(** * otio-fcpxml: the FCPX XML adapter for gotio, embedded in Rocq

    A shallow embedding of the Go package [fcpxml]
    (the decoder, the encoder and the document types) together with the few library
    functions it calls (strings, strconv, fmt, encoding/xml, gotio),
    and the properties of its specification proved over that embedding.

    Go strings are byte strings: [string].  A Go [error] is a value of
    [error]; a function returning [(T, error)] returns [result T].
    A nil-able pointer is an [option]; a slice is a [list].  Mutation of
    the tracks and of the XML decoder is explicit state passing. *)

From Stdlib Require Import ZArith NArith String Ascii List Bool Lia.
From Stdlib Require Import Floats.SpecFloat.
From Stdlib Require Import DecimalString DecimalZ DecimalN DecimalPos DecimalFacts.
From stdpp Require Import base tactics option list gmap strings.

Set Warnings "-register-all".

Open Scope string_scope.
Open Scope list_scope.
Open Scope Z_scope.

(* ================================================================== *)
(** * Errors and results *)
(* ================================================================== *)

(** The two error kinds of package strconv ([strconv.ErrSyntax],
    [strconv.ErrRange]). *)
Inductive numErr := ErrSyntax | ErrRange.

(** Go error values, by the way they are built. *)
Inductive error :=
| Errorf (msg : string)                   (* fmt.Errorf(msg), no wrapped cause *)
| Wrapf (msg : string) (cause : error)    (* fmt.Errorf(msg + "%w", cause) *)
| NumError (func num : string) (err : numErr)   (* *strconv.NumError *)
| EOF                                     (* io.EOF *)
| SyntaxError (msg : string)              (* *xml.SyntaxError *)
| UnmarshalError (msg : string).          (* xml.UnmarshalError *)

Inductive result (A : Type) :=
| Ok (a : A)
| Err (e : error).
Arguments Ok {A} a.
Arguments Err {A} e.

Definition bind {A B} (r : result A) (k : A -> result B) : result B :=
  match r with
  | Ok a => k a
  | Err e => Err e
  end.

Notation "x <- c1 ;; c2" := (bind c1 (fun x => c2))
  (at level 100, c1 at next level, right associativity).

(** [if err != nil { return fmt.Errorf(msg + "%w", err) }] *)
Definition wrap {A} (msg : string) (r : result A) : result A :=
  match r with
  | Ok a => Ok a
  | Err e => Err (Wrapf msg e)
  end.

(** [p != nil] for a pointer. *)
Definition notnil {A} (p : option A) : bool :=
  match p with
  | Some _ => true
  | None => false
  end.

(** Monadic map over a list, left to right, stopping at the first error. *)
Fixpoint traverse {A B} (f : A -> result B) (l : list A) : result (list B) :=
  match l with
  | [] => Ok []
  | a :: l' => b <- f a ;; bs <- traverse f l' ;; Ok (b :: bs)
  end.

(* ================================================================== *)
(** * Package strings *)
(* ================================================================== *)

(** [strings.TrimSuffix(s, suffix)]: [s] without the trailing [suffix], or
    [s] itself when it does not end with [suffix].  The only tail of [s]
    that can equal [suffix] is the one of its length. *)
Fixpoint TrimSuffix (s suffix : string) : string :=
  if String.eqb s suffix then ""
  else match s with
       | EmptyString => ""
       | String c s' => String c (TrimSuffix s' suffix)
       end.

(** [strings.Split(s, sep)] for a separator of one byte: the substrings
    between the occurrences of [sep]; never empty ([Split "" sep = [""]]). *)
Fixpoint Split (s : string) (sep : ascii) : list string :=
  match s with
  | EmptyString => [""]
  | String c s' =>
      if Ascii.eqb c sep then "" :: Split s' sep
      else match Split s' sep with
           | p :: ps => String c p :: ps
           | [] => [String c ""]
           end
  end.

Fixpoint string_forallb (p : ascii -> bool) (s : string) : bool :=
  match s with
  | EmptyString => true
  | String c s' => p c && string_forallb p s'
  end.

(* ================================================================== *)
(** * float64 and package strconv *)
(* ================================================================== *)

(** IEEE 754 binary64 values, as the Standard Library's specification of
    floating-point numbers has them. *)
Definition float64 := spec_float.
Definition prec : Z := 53.
Definition emax : Z := 1024.

(** [float64(z)] for an integer [z]: the nearest binary64, ties to even. *)
Definition float64_of_Z (z : Z) : float64 := binary_normalize prec emax z 0 false.

Definition MinInt64 : Z := - 2 ^ 63.
Definition MaxInt64 : Z := 2 ^ 63 - 1.

(** The conversion [int64(f)]: the fraction is discarded (truncation towards
    zero).  For a value int64 cannot hold (NaN, an infinity, a value outside
    [MinInt64, MaxInt64]) the Go specification leaves the result to the
    implementation; this is amd64's, where CVTTSD2SQ yields the "integer
    indefinite" value 0x8000000000000000, that is [MinInt64].  For a value
    below [MinInt64] a saturating conversion (arm64, wasm) yields the same. *)
Definition int64_of_float64 (f : float64) : Z :=
  match f with
  | S754_zero _ => 0
  | S754_finite s m e =>
      let a := Z.shiftl (Z.pos m) e in
      let z := if s then - a else a in
      if (MinInt64 <=? z) && (z <=? MaxInt64) then z else MinInt64
  | S754_infinity _ | S754_nan => MinInt64
  end.

(** [fmt.Sprintf("%d", z)] and [strconv.FormatInt(z, 10)]. *)
Definition FormatInt (z : Z) : string := NilZero.string_of_int (Z.to_int z).

Definition is_digit (c : ascii) : bool :=
  (48 <=? N_of_ascii c)%N && (N_of_ascii c <=? 57)%N.

(** strconv's [lower(c)]: [c | ('x' - 'X')]. *)
Definition lower (c : ascii) : ascii := ascii_of_N (N.lor (N_of_ascii c) 32).

Definition is_hex_letter (c : ascii) : bool :=
  (97 <=? N_of_ascii (lower c))%N && (N_of_ascii (lower c) <=? 102)%N.

Definition digit_val (c : ascii) : N := (N_of_ascii c - 48)%N.
Definition hex_letter_val (c : ascii) : N := (N_of_ascii (lower c) - 97 + 10)%N.

(** strconv's [commonPrefixLenIgnoreCase(s, prefix)]; [prefix] is lower
    case, and only the letters A-Z of [s] are folded. *)
Definition fold_upper (c : ascii) : ascii :=
  if (65 <=? N_of_ascii c)%N && (N_of_ascii c <=? 90)%N
  then ascii_of_N (N_of_ascii c + 32) else c.

Fixpoint commonPrefixLenIgnoreCase (s pfx : string) : nat :=
  match s, pfx with
  | String c s', String p pfx' =>
      if Ascii.eqb (fold_upper c) p then S (commonPrefixLenIgnoreCase s' pfx') else O
  | _, _ => O
  end.

(** strconv's [special]: the infinities, with an optional sign, and NaN.
    Returns the value and the number of bytes read. *)
Definition special_inf (neg : bool) (nsign : nat) (s : string) : option (float64 * nat) :=
  let n := commonPrefixLenIgnoreCase s "infinity" in
  let n := if Nat.ltb 3 n && Nat.ltb n 8 then 3%nat else n in
  if Nat.eqb n 3 || Nat.eqb n 8 then Some (S754_infinity neg, (nsign + n)%nat) else None.

Definition special (s : string) : option (float64 * nat) :=
  match s with
  | EmptyString => None
  | String c s' =>
      if Ascii.eqb c "+" then special_inf false 1 s'
      else if Ascii.eqb c "-" then special_inf true 1 s'
      else if Ascii.eqb c "i" || Ascii.eqb c "I" then special_inf false 0 s
      else if Ascii.eqb c "n" || Ascii.eqb c "N" then
        if Nat.eqb (commonPrefixLenIgnoreCase s "nan") 3 then Some (S754_nan, 3%nat) else None
      else None
  end.

(** The state of [readFloat]'s loop over the digits.  [mantissa] holds every
    digit read (strconv keeps the first 19 and converts the text again,
    exactly, when some were cut: the value parsed is the same). *)
Record mantState := {
  sawdot : bool;
  sawdigits : bool;
  nd : Z;
  dp : Z;
  mantissa : N;
  underscores : bool
}.

Definition mantState0 : mantState :=
  {| sawdot := false; sawdigits := false; nd := 0; dp := 0; mantissa := 0%N;
     underscores := false |}.

Fixpoint readMantissa (hex : bool) (st : mantState) (s : string) : mantState * string :=
  match s with
  | EmptyString => (st, s)
  | String c s' =>
      if Ascii.eqb c "_" then
        readMantissa hex
          {| sawdot := sawdot st; sawdigits := sawdigits st; nd := nd st; dp := dp st;
             mantissa := mantissa st; underscores := true |} s'
      else if Ascii.eqb c "." then
        if sawdot st then (st, s)
        else readMantissa hex
          {| sawdot := true; sawdigits := sawdigits st; nd := nd st; dp := nd st;
             mantissa := mantissa st; underscores := underscores st |} s'
      else if is_digit c then
        if Ascii.eqb c "0" && (nd st =? 0) then
          readMantissa hex
            {| sawdot := sawdot st; sawdigits := true; nd := nd st; dp := dp st - 1;
               mantissa := mantissa st; underscores := underscores st |} s'
        else
          readMantissa hex
            {| sawdot := sawdot st; sawdigits := true; nd := nd st + 1; dp := dp st;
               mantissa := (mantissa st * (if hex then 16 else 10) + digit_val c)%N;
               underscores := underscores st |} s'
      else if hex && is_hex_letter c then
        readMantissa hex
          {| sawdot := sawdot st; sawdigits := true; nd := nd st + 1; dp := dp st;
             mantissa := (mantissa st * 16 + hex_letter_val c)%N;
             underscores := underscores st |} s'
      else (st, s)
  end.

(** The digits of the exponent; the value stops growing at 10000. *)
Fixpoint readExpDigits (e : Z) (us : bool) (s : string) : Z * bool * string :=
  match s with
  | EmptyString => (e, us, s)
  | String c s' =>
      if Ascii.eqb c "_" then readExpDigits e true s'
      else if is_digit c then
        readExpDigits (if e <? 10000 then e * 10 + Z.of_N (digit_val c) else e) us s'
      else (e, us, s)
  end.

(** strconv's [underscoreOK]: underscores only between digits, or right
    after a base prefix. *)
Fixpoint underscoreOK_loop (hex : bool) (saw : ascii) (s : string) : bool :=
  match s with
  | EmptyString => negb (Ascii.eqb saw "_")
  | String c s' =>
      if is_digit c || (hex && is_hex_letter c) then underscoreOK_loop hex "0" s'
      else if Ascii.eqb c "_" then
        if Ascii.eqb saw "0" then underscoreOK_loop hex "_" s' else false
      else if Ascii.eqb saw "_" then false
      else underscoreOK_loop hex "!" s'
  end.

Definition underscoreOK (s : string) : bool :=
  let s := match s with
           | String c s' => if Ascii.eqb c "-" || Ascii.eqb c "+" then s' else s
           | EmptyString => s
           end in
  match s with
  | String c0 (String c1 s') =>
      if Ascii.eqb c0 "0" &&
         (Ascii.eqb (lower c1) "b" || Ascii.eqb (lower c1) "o" || Ascii.eqb (lower c1) "x")
      then underscoreOK_loop (Ascii.eqb (lower c1) "x") "0" s'
      else underscoreOK_loop false "^" s
  | _ => underscoreOK_loop false "^" s
  end.

(** What [readFloat] returns when [ok], beside the text left unread: the
    digits as a number, the exponent (of 10, or of 2 for a hexadecimal
    mantissa), and the sign. *)
Record floatLit := {
  lit_mantissa : N;
  lit_exp : Z;
  lit_neg : bool;
  lit_hex : bool
}.

(** The three short steps of [readFloat] around its loop: the optional
    sign, the base prefix "0x" (taken only when more text follows it), and
    the optional exponent, which a hexadecimal mantissa must have.
    [readExponent] returns the signed exponent read, whether an underscore
    was seen so far, and the text left; [None] when the literal is
    malformed. *)
Definition readSign (s : string) : bool * string :=
  match s with
  | String c s' =>
      if Ascii.eqb c "+" then (false, s')
      else if Ascii.eqb c "-" then (true, s')
      else (false, s)
  | EmptyString => (false, s)
  end.

Definition readBase (s : string) : bool * string :=
  match s with
  | String a (String b (String c r)) =>
      if Ascii.eqb a "0" && Ascii.eqb (lower b) "x" then (true, String c r)
      else (false, s)
  | _ => (false, s)
  end.

Definition readExponent (hex : bool) (us : bool) (s : string) : option (Z * bool * string) :=
  let expChar := if hex then "p"%char else "e"%char in
  match s with
  | String c s1 =>
      if Ascii.eqb (lower c) expChar then
        match s1 with
        | EmptyString => None
        | String d s2 =>
            let '(esign, s3) :=
              if Ascii.eqb d "+" then (1, s2)
              else if Ascii.eqb d "-" then (-1, s2)
              else (1, s1) in
            match s3 with
            | EmptyString => None
            | String c3 _ =>
                if is_digit c3 then
                  let '(e, us', rest) := readExpDigits 0 us s3 in
                  Some (e * esign, us', rest)
                else None
            end
        end
      else if hex then None
      else Some (0, us, s)
  | EmptyString => if hex then None else Some (0, us, s)
  end.

(** strconv's [readFloat], when it returns [ok]. *)
Definition readFloat (s : string) : option (floatLit * string) :=
  match s with
  | EmptyString => None
  | String _ _ =>
      let '(neg, s1) := readSign s in
      let '(hex, s2) := readBase s1 in
      let '(st, s3) := readMantissa hex mantState0 s2 in
      if negb (sawdigits st) then None
      else
        let dp0 := if sawdot st then dp st else nd st in
        let dp1 := if hex then dp0 * 4 else dp0 in
        let nd1 := if hex then nd st * 4 else nd st in
        match readExponent hex (underscores st) s3 with
        | None => None
        | Some (e, us, rest) =>
            let exp := if (mantissa st =? 0)%N then 0 else dp1 + e - nd1 in
            let read :=
              String.substring 0 (String.length s - String.length rest)%nat s in
            if us && negb (underscoreOK read) then None
            else Some ({| lit_mantissa := mantissa st; lit_exp := exp;
                          lit_neg := neg; lit_hex := hex |}, rest)
        end
  end.

(** The binary64 nearest to [(-1)^neg * m * 10^exp] (or [* 2^exp] for a
    hexadecimal mantissa), ties to even. *)
Definition float64_of_lit (l : floatLit) : float64 :=
  match lit_mantissa l with
  | N0 => S754_zero (lit_neg l)
  | Npos m =>
      if lit_hex l then binary_round prec emax (lit_neg l) m (lit_exp l)
      else if 0 <=? lit_exp l then
        binary_round prec emax (lit_neg l) (m * Z.to_pos (10 ^ lit_exp l)) 0
      else
        SFdiv prec emax (S754_finite (lit_neg l) m 0)
                        (S754_finite false (Z.to_pos (10 ^ (- lit_exp l))) 0)
  end.

Definition is_infinity (f : float64) : bool :=
  match f with S754_infinity _ => true | _ => false end.

(** [strconv.ParseFloat(s, 64)]: the whole of [s] must be a floating-point
    literal (decimal or hexadecimal, underscores allowed between digits) or
    one of "inf", "infinity", "nan" in any case; the result is the nearest
    binary64, and a literal that rounds to an infinity is a range error. *)
Definition ParseFloat (s : string) : result float64 :=
  match special s with
  | Some (f, n) =>
      if Nat.eqb n (String.length s) then Ok f
      else Err (NumError "ParseFloat" s ErrSyntax)
  | None =>
      match readFloat s with
      | Some (l, EmptyString) =>
          let f := float64_of_lit l in
          if is_infinity f then Err (NumError "ParseFloat" s ErrRange) else Ok f
      | _ => Err (NumError "ParseFloat" s ErrSyntax)
      end
  end.

(* ================================================================== *)
(** * Package opentime *)
(* ================================================================== *)

Module opentime.

(** [opentime.RationalTime]: a value at a rate, both float64. *)
Record RationalTime := NewRationalTime { value : float64; rate : float64 }.

(** The zero value [opentime.RationalTime{}]. *)
Definition zero : RationalTime :=
  {| value := S754_zero false; rate := S754_zero false |}.

Record TimeRange := NewTimeRange { start_time : RationalTime; duration : RationalTime }.

End opentime.

Import opentime.

(* ================================================================== *)
(** * The rational time codec (decoder.go) *)
(* ================================================================== *)

(** The rate given to a bare number. *)
Definition default_rate : float64 := float64_of_Z 24.

(** [Decoder.parseRationalTime], decoder.go lines 335-370. *)
Definition parseRationalTime (s : string) : result RationalTime :=
  if String.eqb s "" then Ok zero
  else
    let s := TrimSuffix s "s" in
    match Split s "/" with
    | [numerator; denominator] =>
        match ParseFloat numerator with
        | Err _ => Err (Errorf ("invalid rational time numerator: " +:+ numerator))
        | Ok value =>
            match ParseFloat denominator with
            | Err _ => Err (Errorf ("invalid rational time denominator: " +:+ denominator))
            | Ok rate => Ok (NewRationalTime value rate)
            end
        end
    | _ =>
        match ParseFloat s with
        | Err _ => Err (Errorf ("invalid rational time format: " +:+ s))
        | Ok value => Ok (NewRationalTime value default_rate)
        end
    end.

(** [Encoder.formatRationalTime], decoder.go lines 649-658
    ([rt.Rate() <= 0] is false for a NaN rate). *)
Definition formatRationalTime (rt : RationalTime) : string :=
  if SFleb (rate rt) (S754_zero false) then "0/1s"
  else
    FormatInt (int64_of_float64 (value rt)) +:+ "/" +:+
    FormatInt (int64_of_float64 (rate rt)) +:+ "s".

(* ================================================================== *)
(** * Package encoding/xml: tokens and the streaming decoder *)
(* ================================================================== *)

Module xml.

Record Name := { Space : string; Local : string }.

Record Attr := { AttrName : Name; Value : string }.

Inductive Token :=
| StartElement (name : Name) (attr : list Attr)
| EndElement (name : Name)
| CharData (data : string)
| Comment (data : string)
| ProcInst (target inst : string)
| Directive (data : string).

Definition Name_eqb (a b : Name) : bool :=
  String.eqb (Space a) (Space b) && String.eqb (Local a) (Local b).

(** The state of an [xml.Decoder] past its lexer: the names of the elements
    that are open, innermost first, and the tokens still to come. *)
Record Decoder := { open : list Name; input : list Token }.

(** [xml.Decoder.Token]: the next token.  The decoder checks that the
    tags nest: an end tag must close the innermost open element, and the
    input may end only when no element is open. *)
Definition NextToken (d : Decoder) : result (Token * Decoder) :=
  match input d with
  | [] =>
      match open d with
      | [] => Err EOF
      | _ :: _ => Err (SyntaxError "unexpected EOF")
      end
  | StartElement n a :: rest =>
      Ok (StartElement n a, {| open := n :: open d; input := rest |})
  | EndElement n :: rest =>
      match open d with
      | [] => Err (SyntaxError "unexpected end element")
      | top :: outer =>
          if Name_eqb top n then Ok (EndElement n, {| open := outer; input := rest |})
          else Err (SyntaxError "element closed by another end tag")
      end
  | t :: rest => Ok (t, {| open := open d; input := rest |})
  end.

(** [xml.Decoder.Skip]: reads tokens up to the end tag that closes the
    element whose start tag was just read.  Each turn of the loop reads one
    token, so the number of tokens left bounds the number of turns. *)
Fixpoint Skip_loop (fuel : nat) (depth : nat) (d : Decoder) : result Decoder :=
  match fuel with
  | O => Err (SyntaxError "unexpected EOF")
  | S fuel' =>
      match NextToken d with
      | Err e => Err e
      | Ok (StartElement _ _, d') => Skip_loop fuel' (S depth) d'
      | Ok (EndElement _, d') =>
          match depth with
          | O => Ok d'
          | S depth' => Skip_loop fuel' depth' d'
          end
      | Ok (_, d') => Skip_loop fuel' depth d'
      end
  end.

Definition Skip (d : Decoder) : result Decoder :=
  Skip_loop (S (length (input d))) O d.

(** The content of an element, as a tree. *)
Inductive Node :=
| Element (name : Name) (attr : list Attr) (children : list Node)
| Text (data : string)
| CommentNode (data : string)
| ProcInstNode (target inst : string)
| DirectiveNode (data : string).

(** The tokens of a node and of a sequence of nodes, in document order. *)
Fixpoint tokens (n : Node) : list Token :=
  match n with
  | Element name attr children =>
      StartElement name attr ::
      (fix all (l : list Node) : list Token :=
         match l with
         | [] => []
         | c :: l' => tokens c ++ all l'
         end) children ++ [EndElement name]
  | Text data => [CharData data]
  | CommentNode data => [Comment data]
  | ProcInstNode target inst => [ProcInst target inst]
  | DirectiveNode data => [Directive data]
  end.

Definition tokens_all (l : list Node) : list Token := flat_map tokens l.

(** The children of the element whose start tag was just read, up to and
    including its end tag: what [DecodeElement] consumes. *)
Fixpoint readContent (fuel : nat) (d : Decoder) : result (list Node * Decoder) :=
  match fuel with
  | O => Err (SyntaxError "unexpected EOF")
  | S fuel' =>
      match NextToken d with
      | Err e => Err e
      | Ok (EndElement _, d') => Ok ([], d')
      | Ok (StartElement n a, d') =>
          match readContent fuel' d' with
          | Err e => Err e
          | Ok (kids, d'') =>
              match readContent fuel' d'' with
              | Err e => Err e
              | Ok (sibs, dk) => Ok (Element n a kids :: sibs, dk)
              end
          end
      | Ok (CharData s, d') =>
          match readContent fuel' d' with
          | Err e => Err e
          | Ok (sibs, d'') => Ok (Text s :: sibs, d'')
          end
      | Ok (Comment s, d') =>
          match readContent fuel' d' with
          | Err e => Err e
          | Ok (sibs, d'') => Ok (CommentNode s :: sibs, d'')
          end
      | Ok (ProcInst t i, d') =>
          match readContent fuel' d' with
          | Err e => Err e
          | Ok (sibs, d'') => Ok (ProcInstNode t i :: sibs, d'')
          end
      | Ok (Directive s, d') =>
          match readContent fuel' d' with
          | Err e => Err e
          | Ok (sibs, d'') => Ok (DirectiveNode s :: sibs, d'')
          end
      end
  end.

Definition readElement (d : Decoder) : result (list Node * Decoder) :=
  readContent (S (length (input d))) d.

(** What [d.DecodeElement(v, &start)] does to a struct value [v] of type [T]
    from the start tag and the content of the element, driven by the struct
    tags of [T] through reflection: a library service, kept abstract. *)
Class Unmarshaler (T : Type) :=
  unmarshal : T -> Name -> list Attr -> list Node -> result T.

End xml.

(* ================================================================== *)
(** * The document model (the types file) *)
(* ================================================================== *)

(** Each struct of the types file is a record [t] in a module of the struct's
    name, with the struct's field names; [zero] is its zero value.
    [Resources] and its formats, assets, media and effects are never read
    by the converter and are left out. *)

Definition Name0 : xml.Name := {| xml.Space := ""; xml.Local := "" |}.

Module Marker.
Record t := {
  XMLName : xml.Name; Start : string; Duration : string; Value : string;
  Note : string; Completed : bool }.
Definition zero : t :=
  {| XMLName := Name0; Start := ""; Duration := ""; Value := ""; Note := "";
     Completed := false |}.
End Marker.

Module Video.
Record t := {
  XMLName : xml.Name; Name : string; Ref : string; Offset : string;
  Start : string; Duration : string; Markers : list Marker.t }.
Definition zero : t :=
  {| XMLName := Name0; Name := ""; Ref := ""; Offset := ""; Start := "";
     Duration := ""; Markers := [] |}.
End Video.

Module Channel.
Record t := {
  XMLName : xml.Name; Role : string; SrcCh : string; Start : string;
  Duration : string }.
End Channel.

Module Audio.
Record t := {
  XMLName : xml.Name; Name : string; Ref : string; Offset : string;
  Start : string; Duration : string; Role : string; Channels : list Channel.t }.
Definition zero : t :=
  {| XMLName := Name0; Name := ""; Ref := ""; Offset := ""; Start := "";
     Duration := ""; Role := ""; Channels := [] |}.
End Audio.

Module Gap.
Record t := {
  XMLName : xml.Name; Name : string; Offset : string; Start : string;
  Duration : string }.
Definition zero : t :=
  {| XMLName := Name0; Name := ""; Offset := ""; Start := ""; Duration := "" |}.
End Gap.

Module Title.
Record t := {
  XMLName : xml.Name; Name : string; Ref : string; Offset : string;
  Start : string; Duration : string }.
Definition zero : t :=
  {| XMLName := Name0; Name := ""; Ref := ""; Offset := ""; Start := "";
     Duration := "" |}.
End Title.

Module Param.
Record t := { XMLName : xml.Name; Name : string; Key : string; Value : string }.
End Param.

Module FilterVideo.
Record t := { XMLName : xml.Name; Ref : string; Name : string; Params : list Param.t }.
End FilterVideo.

Module FilterAudio.
Record t := { XMLName : xml.Name; Ref : string; Name : string; Params : list Param.t }.
End FilterAudio.

Module Transition.
Record t := {
  XMLName : xml.Name; Name : string; Offset : string; Duration : string;
  FilterVideo : option FilterVideo.t; FilterAudio : option FilterAudio.t }.
Definition zero : t :=
  {| XMLName := Name0; Name := ""; Offset := ""; Duration := "";
     FilterVideo := None; FilterAudio := None |}.
End Transition.

Module RefClip.
Record t := {
  XMLName : xml.Name; Name : string; Ref : string; Offset : string;
  Start : string; Duration : string; SrcEnable : string;
  UseAudioSubroles : bool; Markers : list Marker.t }.
Definition zero : t :=
  {| XMLName := Name0; Name := ""; Ref := ""; Offset := ""; Start := "";
     Duration := ""; SrcEnable := ""; UseAudioSubroles := false; Markers := [] |}.
End RefClip.

Module Clip.
Record t := {
  XMLName : xml.Name; Name : string; Ref : string; Offset : string;
  Start : string; Duration : string; TCFormat : string; AudioStart : string;
  AudioDuration : string; AudioRole : string; Markers : list Marker.t;
  Video : option Video.t; Audio : option Audio.t }.
Definition zero : t :=
  {| XMLName := Name0; Name := ""; Ref := ""; Offset := ""; Start := "";
     Duration := ""; TCFormat := ""; AudioStart := ""; AudioDuration := "";
     AudioRole := ""; Markers := []; Video := None; Audio := None |}.
End Clip.

(** The dynamic types an element of [Spine.Items] (an [interface{}]) has:
    a pointer to one of the seven item structs. *)
Inductive Item :=
| ItemClip (v : Clip.t)
| ItemVideo (v : Video.t)
| ItemAudio (v : Audio.t)
| ItemGap (v : Gap.t)
| ItemTitle (v : Title.t)
| ItemTransition (v : Transition.t)
| ItemRefClip (v : RefClip.t).

Module Spine.
Record t := { XMLName : xml.Name; Items : list Item }.
End Spine.

Module Sequence.
Record t := {
  XMLName : xml.Name; Format : string; Duration : string; TCStart : string;
  TCFormat : string; AudioLayout : string; AudioRate : string;
  Spine : option Spine.t }.
End Sequence.

Module Project.
Record t := {
  XMLName : xml.Name; Name : string; UID : string; ModDate : string;
  Sequence : option Sequence.t }.
End Project.

Module Event.
Record t := {
  XMLName : xml.Name; Name : string; UID : string; Projects : list Project.t;
  Clips : list Clip.t; RefClips : list RefClip.t }.
End Event.

Module Library.
Record t := {
  XMLName : xml.Name; Location : string; Events : list Event.t;
  Projects : list Project.t }.
End Library.

Module FCPXML.
Record t := {
  XMLName : xml.Name; Version : string; Library : option Library.t;
  Event : option Event.t; Project : option Project.t }.
End FCPXML.

(* ================================================================== *)
(** * Spine.UnmarshalXML (the types file, lines 64-111) *)
(* ================================================================== *)

Section SpineUnmarshal.

Context `{xml.Unmarshaler Clip.t} `{xml.Unmarshaler Video.t}
        `{xml.Unmarshaler Audio.t} `{xml.Unmarshaler Gap.t}
        `{xml.Unmarshaler Title.t} `{xml.Unmarshaler Transition.t}
        `{xml.Unmarshaler RefClip.t}.

(** The inner [switch t.Name.Local]: the fresh item a known tag stands for,
    [None] in the [default] case. *)
Definition newItem (local : string) : option Item :=
  if String.eqb local "asset-clip" || String.eqb local "clip" then Some (ItemClip Clip.zero)
  else if String.eqb local "video" then Some (ItemVideo Video.zero)
  else if String.eqb local "audio" then Some (ItemAudio Audio.zero)
  else if String.eqb local "gap" then Some (ItemGap Gap.zero)
  else if String.eqb local "title" then Some (ItemTitle Title.zero)
  else if String.eqb local "transition" then Some (ItemTransition Transition.zero)
  else if String.eqb local "ref-clip" then Some (ItemRefClip RefClip.zero)
  else None.

(** The struct decoding of [DecodeElement], at the dynamic type of [item]. *)
Definition unmarshalItem (item : Item) (name : xml.Name) (attr : list xml.Attr)
    (content : list xml.Node) : result Item :=
  match item with
  | ItemClip v => v' <- xml.unmarshal v name attr content ;; Ok (ItemClip v')
  | ItemVideo v => v' <- xml.unmarshal v name attr content ;; Ok (ItemVideo v')
  | ItemAudio v => v' <- xml.unmarshal v name attr content ;; Ok (ItemAudio v')
  | ItemGap v => v' <- xml.unmarshal v name attr content ;; Ok (ItemGap v')
  | ItemTitle v => v' <- xml.unmarshal v name attr content ;; Ok (ItemTitle v')
  | ItemTransition v => v' <- xml.unmarshal v name attr content ;; Ok (ItemTransition v')
  | ItemRefClip v => v' <- xml.unmarshal v name attr content ;; Ok (ItemRefClip v')
  end.

(** [d.DecodeElement(item, &t)]: reads the element whose start tag [t] was
    just read, to its end tag, into [item]. *)
Definition DecodeElement (item : Item) (name : xml.Name) (attr : list xml.Attr)
    (d : xml.Decoder) : result (Item * xml.Decoder) :=
  match xml.readElement d with
  | Err e => Err e
  | Ok (content, d') =>
      match unmarshalItem item name attr content with
      | Err e => Err e
      | Ok item' => Ok (item', d')
      end
  end.

(** The [for] loop of [UnmarshalXML]; [items] is [s.Items].  Each turn reads
    at least one token. *)
Fixpoint UnmarshalXML_loop (fuel : nat) (start : xml.Name) (items : list Item)
    (d : xml.Decoder) : result (list Item * xml.Decoder) :=
  match fuel with
  | O => Err (SyntaxError "unexpected EOF")
  | S fuel' =>
      match xml.NextToken d with
      | Err e => Err e
      | Ok (xml.StartElement name attr, d') =>
          match newItem (xml.Local name) with
          | None =>
              (* Skip unknown elements *)
              match xml.Skip d' with
              | Err e => Err e
              | Ok d'' => UnmarshalXML_loop fuel' start items d''
              end
          | Some item =>
              match DecodeElement item name attr d' with
              | Err e => Err e
              | Ok (item', d'') => UnmarshalXML_loop fuel' start (items ++ [item']) d''
              end
          end
      | Ok (xml.EndElement name, d') =>
          if xml.Name_eqb name start then Ok (items, d')
          else UnmarshalXML_loop fuel' start items d'
      | Ok (_, d') => UnmarshalXML_loop fuel' start items d'
      end
  end.

(** [(s *Spine) UnmarshalXML(d, start)]: the spine read from the decoder,
    whose last token was the start tag [start]. *)
Definition UnmarshalXML (d : xml.Decoder) (start : xml.Name)
    : result (Spine.t * xml.Decoder) :=
  match UnmarshalXML_loop (S (length (xml.input d))) start [] d with
  | Err e => Err e
  | Ok (items, d') => Ok ({| Spine.XMLName := start; Spine.Items := items |}, d')
  end.

End SpineUnmarshal.

(* ================================================================== *)
(** * Package gotio: the timeline model *)
(* ================================================================== *)

Module gotio.

(** A value of type [interface{}] stored in a metadata map. *)
Inductive any :=
| AnyString (s : string)
| AnyBool (b : bool)
| AnyInt (z : Z).

Definition MarkerColorGreen : string := "GREEN".
Definition TrackKindVideo : string := "Video".
Definition TrackKindAudio : string := "Audio".

Record Marker := NewMarker {
  marker_name : string;
  marked_range : TimeRange;
  marker_color : string;
  marker_comment : string }.

Record ExternalReference := NewExternalReference {
  reference_name : string;
  target_url : string;
  available_range : option TimeRange }.

Record Clip := NewClip {
  clip_name : string;
  media_reference : ExternalReference;
  clip_source_range : option TimeRange;
  clip_markers : list Marker }.

Record Gap := NewGap {
  gap_name : string;
  gap_source_range : option TimeRange }.

(** The composable items: a clip, a gap, a stack or a track; stacks and
    tracks hold children. *)
Inductive Composable :=
| ClipItem (c : Clip)
| GapItem (g : Gap)
| StackItem (s : Stack)
| TrackItem (t : Track)
with Stack :=
| mkStack (name : string) (source_range : option TimeRange) (markers : list Marker)
          (metadata : gmap string any) (children : list Composable)
with Track :=
| mkTrack (name : string) (source_range : option TimeRange) (kind : string)
          (children : list Composable).

Definition stack_name (s : Stack) := let 'mkStack n _ _ _ _ := s in n.
Definition stack_source_range (s : Stack) := let 'mkStack _ r _ _ _ := s in r.
Definition stack_markers (s : Stack) := let 'mkStack _ _ m _ _ := s in m.
Definition stack_metadata (s : Stack) := let 'mkStack _ _ _ md _ := s in md.
Definition stack_children (s : Stack) := let 'mkStack _ _ _ _ c := s in c.

Definition track_name (t : Track) := let 'mkTrack n _ _ _ := t in n.
Definition track_kind (t : Track) := let 'mkTrack _ _ k _ := t in k.
Definition track_children (t : Track) := let 'mkTrack _ _ _ c := t in c.

(** [gotio.NewStack(name, sourceRange, nil, nil, markers, nil)]. *)
Definition NewStack (name : string) (source_range : option TimeRange)
    (markers : list Marker) : Stack :=
  mkStack name source_range markers ∅ [].

(** [gotio.NewTrack(name, nil, kind, nil, nil)]. *)
Definition NewTrack (name : string) (kind : string) : Track :=
  mkTrack name None kind [].

Definition stack_SetMetadata (s : Stack) (md : gmap string any) : Stack :=
  let 'mkStack n r m _ c := s in mkStack n r m md c.

(** [AppendChild] on a track and on a stack: the child goes last. *)
Definition track_AppendChild (t : Track) (c : Composable) : Track :=
  let 'mkTrack n r k cs := t in mkTrack n r k (cs ++ [c]).

Definition stack_AppendChild (s : Stack) (c : Composable) : Stack :=
  let 'mkStack n r m md cs := s in mkStack n r m md (cs ++ [c]).

(** A timeline: its name and its root stack, a pointer that may be nil. *)
Record Timeline := { timeline_name : string; tracks : option Stack }.

(** [gotio.NewTimeline(name, nil, nil)]: a timeline with an empty root
    stack. *)
Definition NewTimeline (name : string) : Timeline :=
  {| timeline_name := name; tracks := Some (NewStack "tracks" None []) |}.

(** Modelled from the spec: gotio's [Duration()] of a clip, gap or stack,
    which is not part of this repository; section 6 of the specification
    gives its contract, "fails if unset".  The argument is the item's source
    range. *)
Definition Duration (source_range : option TimeRange) : result RationalTime :=
  match source_range with
  | Some r => Ok (duration r)
  | None => Err (Errorf "duration is not set")
  end.

End gotio.

(* ================================================================== *)
(** * The decoder (decoder.go) *)
(* ================================================================== *)

(** [convertMarker], lines 258-279. *)
Definition convertMarker (marker : Marker.t) : result gotio.Marker :=
  start <- wrap "failed to parse marker start: " (parseRationalTime (Marker.Start marker)) ;;
  duration <-
    (if negb (String.eqb (Marker.Duration marker) "")
     then wrap "failed to parse marker duration: " (parseRationalTime (Marker.Duration marker))
     else Ok zero) ;;
  let markedRange := NewTimeRange start duration in
  let name := Marker.Value marker in
  let comment := Marker.Note marker in
  Ok (gotio.NewMarker name markedRange gotio.MarkerColorGreen comment).

(** The reference every converted clip gets:
    [gotio.NewExternalReference("", "", nil, nil)]. *)
Definition emptyReference : gotio.ExternalReference :=
  gotio.NewExternalReference "" "" None.

(** [convertClip], lines 134-178.  The two tracks are passed in and
    returned. *)
Definition convertClip (clip : Clip.t) (videoTrack audioTrack : gotio.Track)
    : result (gotio.Track * gotio.Track) :=
  duration <- wrap "failed to parse clip duration: " (parseRationalTime (Clip.Duration clip)) ;;
  start <-
    (if negb (String.eqb (Clip.Start clip) "")
     then wrap "failed to parse clip start: " (parseRationalTime (Clip.Start clip))
     else Ok zero) ;;
  let sourceRange := NewTimeRange start duration in
  markers <- traverse convertMarker (Clip.Markers clip) ;;
  let otioClip :=
    gotio.ClipItem (gotio.NewClip (Clip.Name clip) emptyReference (Some sourceRange) markers) in
  let videoTrack :=
    if notnil (Clip.Video clip) || negb (String.eqb (Clip.Ref clip) "")
    then gotio.track_AppendChild videoTrack otioClip else videoTrack in
  let audioTrack :=
    if notnil (Clip.Audio clip) || negb (String.eqb (Clip.AudioDuration clip) "")
    then gotio.track_AppendChild audioTrack otioClip else audioTrack in
  Ok (videoTrack, audioTrack).

(** [convertVideo], lines 181-212. *)
Definition convertVideo (video : Video.t) (videoTrack : gotio.Track) : result gotio.Track :=
  duration <- wrap "failed to parse video duration: " (parseRationalTime (Video.Duration video)) ;;
  start <-
    (if negb (String.eqb (Video.Start video) "")
     then wrap "failed to parse video start: " (parseRationalTime (Video.Start video))
     else Ok zero) ;;
  let sourceRange := NewTimeRange start duration in
  markers <- traverse convertMarker (Video.Markers video) ;;
  let otioClip :=
    gotio.ClipItem (gotio.NewClip (Video.Name video) emptyReference (Some sourceRange) markers) in
  Ok (gotio.track_AppendChild videoTrack otioClip).

(** [convertAudio], lines 215-236. *)
Definition convertAudio (audio : Audio.t) (audioTrack : gotio.Track) : result gotio.Track :=
  duration <- wrap "failed to parse audio duration: " (parseRationalTime (Audio.Duration audio)) ;;
  start <-
    (if negb (String.eqb (Audio.Start audio) "")
     then wrap "failed to parse audio start: " (parseRationalTime (Audio.Start audio))
     else Ok zero) ;;
  let sourceRange := NewTimeRange start duration in
  let otioClip :=
    gotio.ClipItem (gotio.NewClip (Audio.Name audio) emptyReference (Some sourceRange) []) in
  Ok (gotio.track_AppendChild audioTrack otioClip).

(** [convertGap], lines 239-255. *)
Definition convertGap (gap : Gap.t) (videoTrack audioTrack : gotio.Track)
    : result (gotio.Track * gotio.Track) :=
  duration <- wrap "failed to parse gap duration: " (parseRationalTime (Gap.Duration gap)) ;;
  let sourceRange := NewTimeRange zero duration in
  let videoGap := gotio.GapItem (gotio.NewGap (Gap.Name gap) (Some sourceRange)) in
  let audioGap := gotio.GapItem (gotio.NewGap (Gap.Name gap) (Some sourceRange)) in
  Ok (gotio.track_AppendChild videoTrack videoGap,
      gotio.track_AppendChild audioTrack audioGap).

(** The metadata [convertRefClip] gives the stack: the map literal, and the
    conditional assignment. *)
Definition refClipMetadata (refClip : RefClip.t) : gmap string gotio.any :=
  let metadata : gmap string gotio.any :=
    {[ "fcpx_ref" := gotio.AnyString (RefClip.Ref refClip) ]} in
  if negb (String.eqb (RefClip.SrcEnable refClip) "")
  then <[ "fcpx_src_enable" := gotio.AnyString (RefClip.SrcEnable refClip) ]> metadata
  else metadata.

(** [convertRefClip], lines 282-332. *)
Definition convertRefClip (refClip : RefClip.t) (videoTrack audioTrack : gotio.Track)
    : result (gotio.Track * gotio.Track) :=
  duration <- wrap "failed to parse ref-clip duration: "
                (parseRationalTime (RefClip.Duration refClip)) ;;
  start <-
    (if negb (String.eqb (RefClip.Start refClip) "")
     then wrap "failed to parse ref-clip start: " (parseRationalTime (RefClip.Start refClip))
     else Ok zero) ;;
  let sourceRange := NewTimeRange start duration in
  markers <- traverse convertMarker (RefClip.Markers refClip) ;;
  let stack := gotio.NewStack (RefClip.Name refClip) (Some sourceRange) markers in
  let stack := gotio.stack_SetMetadata stack (refClipMetadata refClip) in
  if String.eqb (RefClip.SrcEnable refClip) "audio"
  then Ok (videoTrack, gotio.track_AppendChild audioTrack (gotio.StackItem stack))
  else Ok (gotio.track_AppendChild videoTrack (gotio.StackItem stack), audioTrack).

(** One turn of the loop over [seq.Spine.Items] in [convertSequenceToTracks]
    (lines 87-119): the type switch.  A [*Title] matches no case. *)
Definition convertSpineItem (item : Item) (videoTrack audioTrack : gotio.Track)
    : result (gotio.Track * gotio.Track) :=
  match item with
  | ItemClip v => convertClip v videoTrack audioTrack
  | ItemVideo v =>
      videoTrack' <- convertVideo v videoTrack ;; Ok (videoTrack', audioTrack)
  | ItemAudio v =>
      audioTrack' <- convertAudio v audioTrack ;; Ok (videoTrack, audioTrack')
  | ItemGap v => convertGap v videoTrack audioTrack
  | ItemTransition _ => Ok (videoTrack, audioTrack)
  | ItemRefClip v => convertRefClip v videoTrack audioTrack
  | ItemTitle _ => Ok (videoTrack, audioTrack)
  end.

Fixpoint convertSpineItems (items : list Item) (videoTrack audioTrack : gotio.Track)
    : result (gotio.Track * gotio.Track) :=
  match items with
  | [] => Ok (videoTrack, audioTrack)
  | item :: items' =>
      match convertSpineItem item videoTrack audioTrack with
      | Err e => Err e
      | Ok (videoTrack', audioTrack') => convertSpineItems items' videoTrack' audioTrack'
      end
  end.

(** [tracks.AppendChild(track)] on the root stack of the timeline. *)
Definition timeline_AppendTrack (timeline : gotio.Timeline) (track : gotio.Track)
    : gotio.Timeline :=
  {| gotio.timeline_name := gotio.timeline_name timeline;
     gotio.tracks :=
       match gotio.tracks timeline with
       | Some root => Some (gotio.stack_AppendChild root (gotio.TrackItem track))
       | None => None
       end |}.

(** [convertSequenceToTracks], lines 77-131; the timeline is passed in and
    returned. *)
Definition convertSequenceToTracks (seq : Sequence.t) (timeline : gotio.Timeline)
    : result gotio.Timeline :=
  match Sequence.Spine seq with
  | None => Ok timeline
  | Some spine =>
      let videoTrack := gotio.NewTrack "Video 1" gotio.TrackKindVideo in
      let audioTrack := gotio.NewTrack "Audio 1" gotio.TrackKindAudio in
      match convertSpineItems (Spine.Items spine) videoTrack audioTrack with
      | Err e => Err e
      | Ok (videoTrack, audioTrack) =>
          let timeline :=
            if Nat.ltb 0 (length (gotio.track_children videoTrack))
            then timeline_AppendTrack timeline videoTrack else timeline in
          let timeline :=
            if Nat.ltb 0 (length (gotio.track_children audioTrack))
            then timeline_AppendTrack timeline audioTrack else timeline in
          Ok timeline
      end
  end.

(** The loop over [fcpxml.Library.Events] (lines 48-53): the first project
    of the first event that has one. *)
Fixpoint firstEventProject (events : list Event.t) : option Project.t :=
  match events with
  | [] => None
  | event :: events' =>
      match Event.Projects event with
      | project :: _ => Some project
      | [] => firstEventProject events'
      end
  end.

(** The project [convertToTimeline] converts (lines 41-57): the [if] /
    [else if] chain over the document. *)
Definition findProject (fcpxml : FCPXML.t) : option Project.t :=
  match FCPXML.Project fcpxml with
  | Some project => Some project
  | None =>
      match FCPXML.Library fcpxml with
      | Some library =>
          match Library.Projects library with
          | project :: _ => Some project
          | [] =>
              firstEventProject (Library.Events library)
          end
      | None =>
          match FCPXML.Event fcpxml with
          | Some event =>
              match Event.Projects event with
              | project :: _ => Some project
              | [] => None
              end
          | None => None
          end
      end
  end.

(** [convertToTimeline], lines 39-74. *)
Definition convertToTimeline (fcpxml : FCPXML.t) : result gotio.Timeline :=
  match findProject fcpxml with
  | None => Err (Errorf "no project found in FCPX XML")
  | Some project =>
      let timeline := gotio.NewTimeline (Project.Name project) in
      match Project.Sequence project with
      | Some seq => convertSequenceToTracks seq timeline
      | None => Ok timeline
      end
  end.

(* ================================================================== *)
(** * The encoder (decoder.go, from line 371) *)
(* ================================================================== *)

(** [convertMarkerToFCPX], lines 599-608. *)
Definition convertMarkerToFCPX (marker : gotio.Marker) : Marker.t :=
  let markedRange := gotio.marked_range marker in
  {| Marker.XMLName := Name0;
     Marker.Start := formatRationalTime (start_time markedRange);
     Marker.Duration := formatRationalTime (duration markedRange);
     Marker.Value := gotio.marker_name marker;
     Marker.Note := gotio.marker_comment marker;
     Marker.Completed := false |}.

(** [if r != nil { start = r.StartTime() }], with [start] the zero value
    otherwise. *)
Definition startOf (source_range : option TimeRange) : RationalTime :=
  match source_range with
  | Some r => start_time r
  | None => zero
  end.

(** [convertClipToFCPX], lines 522-560. *)
Definition convertClipToFCPX (clip : gotio.Clip) (isVideo : bool) : result Item :=
  duration <- wrap "failed to get clip duration: "
                (gotio.Duration (gotio.clip_source_range clip)) ;;
  let start := startOf (gotio.clip_source_range clip) in
  let markers := map convertMarkerToFCPX (gotio.clip_markers clip) in
  if isVideo then
    Ok (ItemVideo
          {| Video.XMLName := Name0; Video.Name := gotio.clip_name clip; Video.Ref := "";
             Video.Offset := ""; Video.Start := formatRationalTime start;
             Video.Duration := formatRationalTime duration; Video.Markers := markers |})
  else
    Ok (ItemAudio
          {| Audio.XMLName := Name0; Audio.Name := gotio.clip_name clip; Audio.Ref := "";
             Audio.Offset := ""; Audio.Start := formatRationalTime start;
             Audio.Duration := formatRationalTime duration; Audio.Role := "";
             Audio.Channels := [] |}).

(** [convertClipToAudio], lines 563-581. *)
Definition convertClipToAudio (clip : gotio.Clip) : result Audio.t :=
  duration <- wrap "failed to get clip duration: "
                (gotio.Duration (gotio.clip_source_range clip)) ;;
  let start := startOf (gotio.clip_source_range clip) in
  Ok {| Audio.XMLName := Name0; Audio.Name := gotio.clip_name clip; Audio.Ref := "";
        Audio.Offset := ""; Audio.Start := formatRationalTime start;
        Audio.Duration := formatRationalTime duration; Audio.Role := "";
        Audio.Channels := [] |}.

(** [convertGapToFCPX], lines 584-596. *)
Definition convertGapToFCPX (gap : gotio.Gap) : result Item :=
  duration <- wrap "failed to get gap duration: "
                (gotio.Duration (gotio.gap_source_range gap)) ;;
  Ok (ItemGap
        {| Gap.XMLName := Name0; Gap.Name := gotio.gap_name gap; Gap.Offset := "";
           Gap.Start := ""; Gap.Duration := formatRationalTime duration |}).

(** [convertStackToRefClip], lines 611-646. *)
Definition convertStackToRefClip (stack : gotio.Stack) : result Item :=
  duration <- wrap "failed to get stack duration: "
                (gotio.Duration (gotio.stack_source_range stack)) ;;
  let start := startOf (gotio.stack_source_range stack) in
  let markers := map convertMarkerToFCPX (gotio.stack_markers stack) in
  let refID :=
    match gotio.stack_metadata stack !! "fcpx_ref" with
    | Some (gotio.AnyString ref) => ref
    | _ => "r1"
    end in
  Ok (ItemRefClip
        {| RefClip.XMLName := Name0; RefClip.Name := gotio.stack_name stack;
           RefClip.Ref := refID; RefClip.Offset := "";
           RefClip.Start := formatRationalTime start;
           RefClip.Duration := formatRationalTime duration; RefClip.SrcEnable := "";
           RefClip.UseAudioSubroles := false; RefClip.Markers := markers |}).

(** [convertItem], lines 508-519. *)
Definition convertItem (item : gotio.Composable) (isVideo : bool) : result Item :=
  match item with
  | gotio.ClipItem v => convertClipToFCPX v isVideo
  | gotio.GapItem v => convertGapToFCPX v
  | gotio.StackItem v => convertStackToRefClip v
  | gotio.TrackItem _ => Err (Errorf "unsupported item type: *gotio.Track")
  end.

(** The children of the tracks of one kind, track after track (lines 458-469). *)
Fixpoint itemsOfKind (kind : string) (children : list gotio.Composable)
    : list gotio.Composable :=
  match children with
  | [] => []
  | gotio.TrackItem track :: children' =>
      if String.eqb (gotio.track_kind track) kind
      then gotio.track_children track ++ itemsOfKind kind children'
      else itemsOfKind kind children'
  | _ :: children' => itemsOfKind kind children'
  end.

(** One turn of the loop over [videoItems] (lines 472-495), [i] being the
    index: the spine entry of the video item, and, were that entry a
    [*Clip], the audio clip at the same index put in its [Audio] field. *)
Definition convertVideoItem (audioItems : list gotio.Composable) (i : nat)
    (item : gotio.Composable) : result Item :=
  fcpItem <- convertItem item true ;;
  match audioItems !! i with
  | Some (gotio.ClipItem audioClip) =>
      match fcpItem with
      | ItemClip clip =>
          audio <- convertClipToAudio audioClip ;;
          Ok (ItemClip
                {| Clip.XMLName := Clip.XMLName clip; Clip.Name := Clip.Name clip;
                   Clip.Ref := Clip.Ref clip; Clip.Offset := Clip.Offset clip;
                   Clip.Start := Clip.Start clip; Clip.Duration := Clip.Duration clip;
                   Clip.TCFormat := Clip.TCFormat clip;
                   Clip.AudioStart := Clip.AudioStart clip;
                   Clip.AudioDuration := Clip.AudioDuration clip;
                   Clip.AudioRole := Clip.AudioRole clip; Clip.Markers := Clip.Markers clip;
                   Clip.Video := Clip.Video clip; Clip.Audio := Some audio |})
      | _ => Ok fcpItem
      end
  | _ => Ok fcpItem
  end.

Fixpoint convertVideoItems (audioItems : list gotio.Composable) (i : nat)
    (videoItems : list gotio.Composable) : result (list Item) :=
  match videoItems with
  | [] => Ok []
  | item :: videoItems' =>
      fcpItem <- convertVideoItem audioItems i item ;;
      rest <- convertVideoItems audioItems (S i) videoItems' ;;
      Ok (fcpItem :: rest)
  end.

(** [convertTracksToSequence], lines 447-505. *)
Definition convertTracksToSequence (stack : option gotio.Stack) : result Sequence.t :=
  match stack with
  | None => Err (Errorf "no tracks in timeline")
  | Some stack =>
      let videoItems := itemsOfKind gotio.TrackKindVideo (gotio.stack_children stack) in
      let audioItems := itemsOfKind gotio.TrackKindAudio (gotio.stack_children stack) in
      items <- convertVideoItems audioItems 0 videoItems ;;
      Ok {| Sequence.XMLName := Name0; Sequence.Format := "r1"; Sequence.Duration := "";
            Sequence.TCStart := ""; Sequence.TCFormat := ""; Sequence.AudioLayout := "";
            Sequence.AudioRate := "";
            Sequence.Spine := Some {| Spine.XMLName := Name0; Spine.Items := items |} |}
  end.

(** [convertFromTimeline], lines 424-444. *)
Definition convertFromTimeline (timeline : gotio.Timeline) : result FCPXML.t :=
  sequence <- convertTracksToSequence (gotio.tracks timeline) ;;
  let project :=
    {| Project.XMLName := Name0; Project.Name := gotio.timeline_name timeline;
       Project.UID := ""; Project.ModDate := ""; Project.Sequence := Some sequence |} in
  Ok {| FCPXML.XMLName := Name0; FCPXML.Version := "1.9"; FCPXML.Library := None;
        FCPXML.Event := None; FCPXML.Project := Some project |}.

(* ================================================================== *)
(** * Facts about strings *)
(* ================================================================== *)

Lemma append_cons (c : ascii) (s t : string) : String c s +:+ t = String c (s +:+ t).
Proof. reflexivity. Qed.

Lemma append_nil_l (t : string) : "" +:+ t = t.
Proof. reflexivity. Qed.

Lemma append_nil_r (s : string) : s +:+ "" = s.
Proof.
  induction s as [|c s IH]; [reflexivity |].
  now rewrite append_cons, IH.
Qed.

Lemma append_assoc (a b c : string) : (a +:+ b) +:+ c = a +:+ (b +:+ c).
Proof.
  induction a as [|x a IH]; [reflexivity |].
  now rewrite !append_cons, IH.
Qed.

Lemma length_append (a b : string) :
  String.length (a +:+ b) = (String.length a + String.length b)%nat.
Proof.
  induction a as [|x a IH]; [reflexivity |].
  rewrite append_cons. simpl. now rewrite IH.
Qed.

Lemma forallb_append (p : ascii -> bool) (a b : string) :
  string_forallb p (a +:+ b) = string_forallb p a && string_forallb p b.
Proof.
  induction a as [|x a IH]; [reflexivity |].
  rewrite append_cons. simpl. rewrite IH. now rewrite andb_assoc.
Qed.

(** A string followed by a non-empty suffix is not that suffix. *)
Lemma cons_append_neq (c : ascii) (a suf : string) : String c (a +:+ suf) <> suf.
Proof.
  intros E. apply (f_equal String.length) in E. simpl in E.
  rewrite length_append in E. lia.
Qed.

Lemma TrimSuffix_nil (suf : string) : TrimSuffix "" suf = "".
Proof. destruct suf; reflexivity. Qed.

Lemma TrimSuffix_cons (c : ascii) (s suf : string) :
  TrimSuffix (String c s) suf =
  if String.eqb (String c s) suf then "" else String c (TrimSuffix s suf).
Proof. reflexivity. Qed.

Lemma TrimSuffix_append (a suf : string) : TrimSuffix (a +:+ suf) suf = a.
Proof.
  induction a as [|c a IH].
  - rewrite append_nil_l. destruct suf; [reflexivity |].
    now rewrite TrimSuffix_cons, String.eqb_refl.
  - rewrite append_cons, TrimSuffix_cons.
    destruct (String.eqb_spec (String c (a +:+ suf)) suf) as [E | _].
    + now apply cons_append_neq in E.
    + now rewrite IH.
Qed.

(** What [TrimSuffix] returns is the string itself, or the string without
    the suffix it ended with. *)
Lemma TrimSuffix_inv (s suf : string) :
  s = TrimSuffix s suf +:+ suf \/ s = TrimSuffix s suf.
Proof.
  induction s as [|c s IH].
  - rewrite TrimSuffix_nil. destruct suf; auto.
  - rewrite TrimSuffix_cons.
    destruct (String.eqb_spec (String c s) suf) as [E | _].
    + left. now rewrite E.
    + rewrite append_cons.
      destruct IH as [IH | IH]; [left | right]; now rewrite <- IH.
Qed.

(** The bytes that end no floating-point literal and separate no fraction. *)
Definition plain (c : ascii) : bool := negb (Ascii.eqb c "/") && negb (Ascii.eqb c "s").

Lemma TrimSuffix_plain (a b : string) :
  b <> "" -> string_forallb plain b = true -> TrimSuffix (a +:+ b) "s" = a +:+ b.
Proof.
  intros Hne Hb. induction a as [|c a IH].
  - rewrite append_nil_l. clear Hne. induction b as [|c b IHb]; [reflexivity |].
    simpl in Hb. apply andb_prop in Hb as [Hc Hb].
    rewrite TrimSuffix_cons.
    destruct (String.eqb_spec (String c b) "s") as [E | _].
    + injection E as -> ->. discriminate Hc.
    + now rewrite IHb.
  - rewrite append_cons, TrimSuffix_cons.
    destruct (String.eqb_spec (String c (a +:+ b)) "s") as [E | _].
    + injection E as _ E. destruct a, b; try discriminate E. congruence.
    + now rewrite IH.
Qed.

Lemma Split_cons (s : string) (sep : ascii) : exists p ps, Split s sep = p :: ps.
Proof.
  induction s as [|c s IH]; simpl; eauto.
  destruct (Ascii.eqb c sep); eauto.
  destruct IH as (p & ps & ->). eauto.
Qed.

Lemma Split_none (s : string) (sep : ascii) :
  string_forallb (fun c => negb (Ascii.eqb c sep)) s = true -> Split s sep = [s].
Proof.
  induction s as [|c s IH]; simpl; [reflexivity |].
  intros H. apply andb_prop in H as [Hc Hs].
  apply negb_true_iff in Hc. rewrite Hc, (IH Hs). reflexivity.
Qed.

Lemma Split_append (a t : string) (sep : ascii) :
  string_forallb (fun c => negb (Ascii.eqb c sep)) a = true ->
  Split (a +:+ String sep t) sep = a :: Split t sep.
Proof.
  induction a as [|c a IH].
  - intros _. rewrite append_nil_l. simpl. now rewrite Ascii.eqb_refl.
  - intros H. simpl in H. apply andb_prop in H as [Hc Ha].
    apply negb_true_iff in Hc. rewrite append_cons. simpl.
    rewrite Hc, (IH Ha). reflexivity.
Qed.

(** The parts [Split] returns, joined by the separator, are the string. *)
Fixpoint Join (parts : list string) (sep : ascii) : string :=
  match parts with
  | [] => ""
  | [p] => p
  | p :: ps => p +:+ String sep (Join ps sep)
  end.

Lemma Join_Split (s : string) (sep : ascii) : Join (Split s sep) sep = s.
Proof.
  induction s as [|c s IH]; simpl; [reflexivity |].
  destruct (Split_cons s sep) as (p & ps & E). rewrite E in *.
  destruct (Ascii.eqb_spec c sep) as [-> | _].
  - cbn [Join]. rewrite append_nil_l. now rewrite <- IH.
  - rewrite <- IH. destruct ps; cbn [Join]; [reflexivity |].
    now rewrite append_cons.
Qed.

(** No part [Split] returns holds the separator. *)
Lemma Split_parts (s : string) (sep : ascii) :
  Forall (fun p => string_forallb (fun c => negb (Ascii.eqb c sep)) p = true) (Split s sep).
Proof.
  induction s as [|c s IH]; simpl.
  - repeat constructor.
  - destruct (Ascii.eqb_spec c sep) as [-> | Hc].
    + constructor; [reflexivity | exact IH].
    + destruct (Split s sep) as [|p ps]; [repeat constructor; simpl |].
      * apply Ascii.eqb_neq in Hc. now rewrite Hc.
      * inversion IH; subst. constructor; [| assumption].
        simpl. apply Ascii.eqb_neq in Hc. now rewrite Hc.
Qed.

(* ================================================================== *)
(** * The text ParseFloat accepts *)
(* ================================================================== *)

(** [Consumes s rest]: a scanner started on [s] left [rest], and every byte
    it read is [plain]. *)
Definition Consumes (s rest : string) : Prop :=
  exists pre, s = pre +:+ rest /\ string_forallb plain pre = true.

Lemma Consumes_refl (s : string) : Consumes s s.
Proof. exists "". split; reflexivity. Qed.

Lemma Consumes_step (c : ascii) (s rest : string) :
  plain c = true -> Consumes s rest -> Consumes (String c s) rest.
Proof.
  intros Hc (pre & -> & Hpre). exists (String c pre). split; [reflexivity |].
  simpl. now rewrite Hc.
Qed.

Lemma Consumes_trans (s t u : string) : Consumes s t -> Consumes t u -> Consumes s u.
Proof.
  intros (p & -> & Hp) (q & -> & Hq). exists (p +:+ q). split.
  - now rewrite append_assoc.
  - rewrite forallb_append. now rewrite Hp, Hq.
Qed.

Lemma Consumes_all (s : string) : Consumes s "" -> string_forallb plain s = true.
Proof. intros (pre & -> & H). now rewrite append_nil_r. Qed.

Ltac byte_cases c :=
  destruct c as [[] [] [] [] [] [] [] []]; vm_compute; try reflexivity; try discriminate.

Lemma plain_digit (c : ascii) : is_digit c = true -> plain c = true.
Proof. byte_cases c. Qed.

Lemma plain_hex_letter (c : ascii) : is_hex_letter c = true -> plain c = true.
Proof. byte_cases c. Qed.

Lemma plain_lower (c x : ascii) :
  Ascii.eqb (lower c) x = true -> plain x = true -> plain c = true.
Proof.
  intros E Hx. apply Ascii.eqb_eq in E. subst x. revert Hx. byte_cases c.
Qed.

Lemma plain_fold_upper (c x : ascii) :
  Ascii.eqb (fold_upper c) x = true -> plain x = true -> plain c = true.
Proof.
  intros E Hx. apply Ascii.eqb_eq in E. subst x. revert Hx. byte_cases c.
Qed.

Lemma plain_eqb (c x : ascii) : Ascii.eqb c x = true -> plain x = true -> plain c = true.
Proof. intros E Hx. apply Ascii.eqb_eq in E. now subst. Qed.

Lemma readMantissa_Consumes (hex : bool) (s : string) :
  forall st st' rest, readMantissa hex st s = (st', rest) -> Consumes s rest.
Proof.
  induction s as [|c s IH]; intros st st' rest; cbn [readMantissa].
  - intros [= _ <-]. apply Consumes_refl.
  - destruct (Ascii.eqb c "_") eqn:E1.
    { intros Hr. eapply Consumes_step; [| eapply IH, Hr]. now apply (plain_eqb _ _ E1). }
    destruct (Ascii.eqb c ".") eqn:E2.
    { destruct (sawdot st).
      - intros [= _ <-]. apply Consumes_refl.
      - intros Hr. eapply Consumes_step; [| eapply IH, Hr]. now apply (plain_eqb _ _ E2). }
    destruct (is_digit c) eqn:E3.
    { destruct (Ascii.eqb c "0" && (nd st =? 0)); intros Hr;
        (eapply Consumes_step; [now apply plain_digit | eapply IH, Hr]). }
    destruct (hex && is_hex_letter c) eqn:E4.
    { apply andb_prop in E4 as [_ E4]. intros Hr.
      eapply Consumes_step; [now apply plain_hex_letter | eapply IH, Hr]. }
    intros [= _ <-]. apply Consumes_refl.
Qed.

Lemma readExpDigits_Consumes (s : string) :
  forall e us e' us' rest, readExpDigits e us s = (e', us', rest) -> Consumes s rest.
Proof.
  induction s as [|c s IH]; intros e us e' us' rest; cbn [readExpDigits].
  - intros [= _ _ <-]. apply Consumes_refl.
  - destruct (Ascii.eqb c "_") eqn:E1.
    { intros Hr. eapply Consumes_step; [| eapply IH, Hr]. now apply (plain_eqb _ _ E1). }
    destruct (is_digit c) eqn:E2.
    { intros Hr. eapply Consumes_step; [now apply plain_digit | eapply IH, Hr]. }
    intros [= _ _ <-]. apply Consumes_refl.
Qed.

Lemma readSign_Consumes (s : string) neg rest : readSign s = (neg, rest) -> Consumes s rest.
Proof.
  destruct s as [|c s]; cbn [readSign].
  - intros [= _ <-]. apply Consumes_refl.
  - destruct (Ascii.eqb c "+") eqn:E1.
    { intros [= _ <-]. apply Consumes_step; [| apply Consumes_refl].
      now apply (plain_eqb _ _ E1). }
    destruct (Ascii.eqb c "-") eqn:E2.
    { intros [= _ <-]. apply Consumes_step; [| apply Consumes_refl].
      now apply (plain_eqb _ _ E2). }
    intros [= _ <-]. apply Consumes_refl.
Qed.

Lemma readBase_Consumes (s : string) hex rest : readBase s = (hex, rest) -> Consumes s rest.
Proof.
  destruct s as [|a [|b [|c r]]]; cbn [readBase];
    try (intros [= _ <-]; apply Consumes_refl).
  destruct (Ascii.eqb a "0" && Ascii.eqb (lower b) "x") eqn:E.
  - apply andb_prop in E as [Ea Eb]. intros [= _ <-].
    apply Consumes_step; [now apply (plain_eqb _ _ Ea) |].
    apply Consumes_step; [now apply (plain_lower _ _ Eb) |].
    apply Consumes_refl.
  - intros [= _ <-]. apply Consumes_refl.
Qed.

Lemma readExponent_Consumes (hex us : bool) (s : string) e us' rest :
  readExponent hex us s = Some (e, us', rest) -> Consumes s rest.
Proof.
  unfold readExponent. destruct s as [|c s1].
  - destruct hex; [discriminate |]. intros [= _ _ <-]. apply Consumes_refl.
  - destruct (Ascii.eqb (lower c) (if hex then "p"%char else "e"%char)) eqn:Ec.
    + assert (Hc : plain c = true).
      { apply (plain_lower _ _ Ec). now destruct hex. }
      destruct s1 as [|d s2]; [discriminate |].
      destruct (Ascii.eqb d "+") eqn:E1; [| destruct (Ascii.eqb d "-") eqn:E2].
      * destruct s2 as [|c3 s3]; [discriminate |].
        destruct (is_digit c3); [| discriminate].
        destruct (readExpDigits 0 us (String c3 s3)) as [[e0 us0] r0] eqn:Er.
        intros [= _ _ <-]. apply Consumes_step; [exact Hc |].
        apply Consumes_step; [now apply (plain_eqb _ _ E1) |].
        eapply readExpDigits_Consumes, Er.
      * destruct s2 as [|c3 s3]; [discriminate |].
        destruct (is_digit c3); [| discriminate].
        destruct (readExpDigits 0 us (String c3 s3)) as [[e0 us0] r0] eqn:Er.
        intros [= _ _ <-]. apply Consumes_step; [exact Hc |].
        apply Consumes_step; [now apply (plain_eqb _ _ E2) |].
        eapply readExpDigits_Consumes, Er.
      * destruct (is_digit d); [| discriminate].
        destruct (readExpDigits 0 us (String d s2)) as [[e0 us0] r0] eqn:Er.
        intros [= _ _ <-]. apply Consumes_step; [exact Hc |].
        eapply readExpDigits_Consumes, Er.
    + destruct hex; [discriminate |]. intros [= _ _ <-]. apply Consumes_refl.
Qed.

Lemma readFloat_Consumes (s : string) l rest :
  readFloat s = Some (l, rest) -> Consumes s rest.
Proof.
  unfold readFloat. destruct s as [|c0 s0]; [discriminate |].
  destruct (readSign (String c0 s0)) as [neg s1] eqn:E1.
  destruct (readBase s1) as [hex s2] eqn:E2.
  destruct (readMantissa hex mantState0 s2) as [st s3] eqn:E3.
  destruct (negb (sawdigits st)); [discriminate |].
  destruct (readExponent hex (underscores st) s3) as [[[e us] r] |] eqn:E4;
    [| discriminate].
  match goal with |- (if ?b then _ else _) = _ -> _ => destruct b end; [discriminate |].
  intros [= _ <-].
  eapply Consumes_trans; [eapply readSign_Consumes, E1 |].
  eapply Consumes_trans; [eapply readBase_Consumes, E2 |].
  eapply Consumes_trans; [eapply readMantissa_Consumes, E3 |].
  eapply readExponent_Consumes, E4.
Qed.

(** The prefix [commonPrefixLenIgnoreCase] matches is made of plain bytes
    when the pattern is. *)
Lemma commonPrefix_plain (pfx s : string) :
  string_forallb plain pfx = true ->
  commonPrefixLenIgnoreCase s pfx = String.length s ->
  string_forallb plain s = true.
Proof.
  revert s. induction pfx as [|p pfx IH]; intros s Hp.
  - destruct s; [reflexivity | discriminate].
  - destruct s as [|c s]; [reflexivity |]. cbn [commonPrefixLenIgnoreCase].
    simpl in Hp. apply andb_prop in Hp as [Hp1 Hp2].
    destruct (Ascii.eqb (fold_upper c) p) eqn:E; [| discriminate].
    intros [= Hl]. simpl. rewrite (plain_fold_upper _ _ E Hp1). simpl.
    now apply IH.
Qed.

Lemma commonPrefix_le (pfx s : string) :
  (commonPrefixLenIgnoreCase s pfx <= String.length s)%nat.
Proof.
  revert s. induction pfx as [|p pfx IH]; intros [|c s]; simpl; try lia.
  destruct (Ascii.eqb (fold_upper c) p); [| lia]. specialize (IH s). lia.
Qed.

Lemma special_inf_plain (neg : bool) (nsign : nat) (s : string) f n :
  special_inf neg nsign s = Some (f, n) -> n = (nsign + String.length s)%nat ->
  string_forallb plain s = true.
Proof.
  unfold special_inf. intros H Hn.
  pose proof (commonPrefix_le "infinity" s) as Hle.
  destruct (Nat.ltb 3 (commonPrefixLenIgnoreCase s "infinity")
            && Nat.ltb (commonPrefixLenIgnoreCase s "infinity") 8) eqn:Eb.
  - simpl in H. injection H as _ <-.
    assert (Hs : String.length s = 3%nat) by lia.
    apply andb_prop in Eb as [Eb _]. apply Nat.ltb_lt in Eb.
    destruct s as [|c1 [|c2 [|c3 [|c4 s]]]]; try discriminate Hs.
    simpl in Eb.
    destruct (Ascii.eqb (fold_upper c1) "i"); [| lia].
    destruct (Ascii.eqb (fold_upper c2) "n"); [| lia].
    destruct (Ascii.eqb (fold_upper c3) "f"); lia.
  - destruct (Nat.eqb (commonPrefixLenIgnoreCase s "infinity") 3
              || Nat.eqb (commonPrefixLenIgnoreCase s "infinity") 8); [| discriminate].
    injection H as _ <-.
    apply (commonPrefix_plain "infinity"); [reflexivity | lia].
Qed.

(** Every byte of a text [ParseFloat] accepts is plain, and the text is not
    empty. *)
Lemma ParseFloat_plain (s : string) (f : float64) :
  ParseFloat s = Ok f -> s <> "" /\ string_forallb plain s = true.
Proof.
  unfold ParseFloat. destruct (special s) as [[f0 n] |] eqn:Es.
  - destruct (Nat.eqb_spec n (String.length s)) as [-> | _]; [| discriminate].
    intros _. destruct s as [|c s]; [discriminate Es |]. split; [discriminate |].
    cbn [special] in Es.
    destruct (Ascii.eqb c "+") eqn:E1.
    { simpl. rewrite (plain_eqb _ _ E1 eq_refl). simpl.
      eapply special_inf_plain; [exact Es | reflexivity]. }
    destruct (Ascii.eqb c "-") eqn:E2.
    { simpl. rewrite (plain_eqb _ _ E2 eq_refl). simpl.
      eapply special_inf_plain; [exact Es | reflexivity]. }
    destruct (Ascii.eqb c "i" || Ascii.eqb c "I").
    { eapply special_inf_plain; [exact Es | reflexivity]. }
    destruct (Ascii.eqb c "n" || Ascii.eqb c "N"); [| discriminate].
    destruct (Nat.eqb_spec (commonPrefixLenIgnoreCase (String c s) "nan") 3) as [E3 | _];
      [| discriminate].
    injection Es as _ Hn. apply (commonPrefix_plain "nan"); [reflexivity |].
    rewrite E3. simpl. now rewrite <- Hn.
  - destruct (readFloat s) as [[l [|c r]] |] eqn:Er; try discriminate.
    intros _. split.
    + intros ->. discriminate Er.
    + apply Consumes_all. eapply readFloat_Consumes, Er.
Qed.

(* ================================================================== *)
(** * ParseFloat on the text FormatInt prints *)
(* ================================================================== *)

(** The number a sequence of decimal digits stands for, after the digits
    already read. *)
Fixpoint uint_value (d : Decimal.uint) (acc : N) : N :=
  match d with
  | Decimal.Nil => acc
  | Decimal.D0 d' => uint_value d' (acc * 10 + 0)
  | Decimal.D1 d' => uint_value d' (acc * 10 + 1)
  | Decimal.D2 d' => uint_value d' (acc * 10 + 2)
  | Decimal.D3 d' => uint_value d' (acc * 10 + 3)
  | Decimal.D4 d' => uint_value d' (acc * 10 + 4)
  | Decimal.D5 d' => uint_value d' (acc * 10 + 5)
  | Decimal.D6 d' => uint_value d' (acc * 10 + 6)
  | Decimal.D7 d' => uint_value d' (acc * 10 + 7)
  | Decimal.D8 d' => uint_value d' (acc * 10 + 8)
  | Decimal.D9 d' => uint_value d' (acc * 10 + 9)
  end%N.

Lemma uint_value_pos (d : Decimal.uint) :
  forall acc, uint_value d (N.pos acc) = N.pos (Pos.of_uint_acc d acc).
Proof.
  induction d; intros acc; cbn [uint_value Pos.of_uint_acc]; try reflexivity;
    rewrite <- IHd; f_equal; lia.
Qed.

Lemma uint_value_0 (d : Decimal.uint) : uint_value d 0 = Pos.of_uint d.
Proof.
  induction d; cbn [uint_value Pos.of_uint]; try reflexivity;
    try (rewrite <- uint_value_pos; f_equal; lia).
  exact IHd.
Qed.

(** What the loop of [readFloat] does to its state on a decimal digit. *)
Definition digit_step (c : ascii) (st : mantState) : mantState :=
  if Ascii.eqb c "0" && (nd st =? 0) then
    {| sawdot := sawdot st; sawdigits := true; nd := nd st; dp := dp st - 1;
       mantissa := mantissa st; underscores := underscores st |}
  else
    {| sawdot := sawdot st; sawdigits := true; nd := nd st + 1; dp := dp st;
       mantissa := (mantissa st * 10 + digit_val c)%N; underscores := underscores st |}.

Lemma readMantissa_digit (c : ascii) (s : string) (st : mantState) :
  is_digit c = true ->
  readMantissa false st (String c s) = readMantissa false (digit_step c st) s.
Proof.
  intros Hc. cbn [readMantissa]. unfold digit_step.
  assert (E1 : Ascii.eqb c "_" = false) by (revert Hc; byte_cases c).
  assert (E2 : Ascii.eqb c "." = false) by (revert Hc; byte_cases c).
  rewrite E1, E2, Hc. destruct (Ascii.eqb c "0" && (nd st =? 0)); reflexivity.
Qed.

(** The invariant of the loop on a run of digits: no dot, no underscore, and
    no digit counted while the mantissa is zero. *)
Definition digits_only (st : mantState) : Prop :=
  sawdot st = false /\ underscores st = false /\
  (nd st = 0 -> mantissa st = 0%N) /\ 0 <= nd st.

Lemma digit_step_digits_only (c : ascii) (st : mantState) :
  digits_only st -> digits_only (digit_step c st).
Proof.
  intros (H1 & H2 & H3 & H4). unfold digit_step.
  destruct (Ascii.eqb c "0" && (nd st =? 0)) eqn:E; repeat split; cbn; auto; lia.
Qed.

Lemma digit_step_sawdigits (c : ascii) (st : mantState) :
  sawdigits (digit_step c st) = true.
Proof. unfold digit_step. now destruct (Ascii.eqb c "0" && (nd st =? 0)). Qed.

Lemma digit_step_mantissa (c : ascii) (st : mantState) :
  digits_only st ->
  mantissa (digit_step c st) = (mantissa st * 10 + digit_val c)%N.
Proof.
  intros (_ & _ & H3 & _). unfold digit_step.
  destruct (Ascii.eqb c "0" && (nd st =? 0)) eqn:E; [| reflexivity].
  apply andb_prop in E as [Ec En]. apply Ascii.eqb_eq in Ec. apply Z.eqb_eq in En.
  subst c. cbn. now rewrite (H3 En).
Qed.

Lemma readMantissa_sawdigits (s : string) :
  forall st st' rest,
    readMantissa false st s = (st', rest) -> sawdigits st = true -> sawdigits st' = true.
Proof.
  induction s as [|c s IH]; intros st st' rest; cbn [readMantissa].
  - now intros [= <- _].
  - repeat match goal with
           | |- context [if ?b then _ else _] => destruct b
           end;
      try (now intros [= <- _]); intros Hr Hs; eapply IH; eauto.
Qed.

(** The loop of [readFloat] over a run of decimal digits: it reads them all,
    and the mantissa is their number. *)
Lemma readMantissa_digits (d : Decimal.uint) :
  forall st,
    digits_only st ->
    exists st',
      readMantissa false st (NilEmpty.string_of_uint d) = (st', "") /\
      digits_only st' /\
      mantissa st' = uint_value d (mantissa st) /\
      (d <> Decimal.Nil -> sawdigits st' = true).
Proof.
  induction d; intros st Hst; cbn [NilEmpty.string_of_uint uint_value];
    [ exists st; split; [reflexivity |]; split; [exact Hst |]; split;
      [reflexivity | congruence] | ..];
    rewrite readMantissa_digit by reflexivity;
    (match goal with
     | |- context [digit_step ?c st] =>
         destruct (IHd _ (digit_step_digits_only c _ Hst)) as (st' & Hr & Hinv & Hm & _)
     end;
     exists st'; split; [exact Hr |]; split; [exact Hinv |]; split;
     [ rewrite Hm, digit_step_mantissa by exact Hst; reflexivity
     | intros _; eapply readMantissa_sawdigits; [exact Hr | apply digit_step_sawdigits] ]).
Qed.

Lemma digits_are_digits (d : Decimal.uint) :
  string_forallb is_digit (NilEmpty.string_of_uint d) = true.
Proof. induction d; cbn [NilEmpty.string_of_uint string_forallb]; auto. Qed.

Lemma digits_not_empty (d : Decimal.uint) :
  d <> Decimal.Nil ->
  exists c s, NilEmpty.string_of_uint d = String c s /\ is_digit c = true.
Proof.
  intros Hd. pose proof (digits_are_digits d) as H.
  destruct d; try congruence; cbn [NilEmpty.string_of_uint] in *;
    eexists _, _; (split; [reflexivity | reflexivity]).
Qed.

Lemma readSign_digit (c : ascii) (s : string) :
  is_digit c = true -> readSign (String c s) = (false, String c s).
Proof.
  intros Hc. cbn [readSign].
  assert (E1 : Ascii.eqb c "+" = false) by (revert Hc; byte_cases c).
  assert (E2 : Ascii.eqb c "-" = false) by (revert Hc; byte_cases c).
  now rewrite E1, E2.
Qed.

Lemma readBase_digits (s : string) :
  string_forallb is_digit s = true -> readBase s = (false, s).
Proof.
  destruct s as [|a [|b [|c r]]]; try reflexivity.
  cbn [string_forallb readBase]. intros H.
  apply andb_prop in H as [_ H]. apply andb_prop in H as [Hb _].
  assert (E : Ascii.eqb (lower b) "x" = false) by (revert Hb; byte_cases b).
  rewrite E, andb_false_r. reflexivity.
Qed.

Lemma special_digit (c : ascii) (s : string) :
  is_digit c = true -> special (String c s) = None.
Proof.
  intros Hc. cbn [special].
  assert (E1 : Ascii.eqb c "+" = false) by (revert Hc; byte_cases c).
  assert (E2 : Ascii.eqb c "-" = false) by (revert Hc; byte_cases c).
  assert (E3 : Ascii.eqb c "i" || Ascii.eqb c "I" = false) by (revert Hc; byte_cases c).
  assert (E4 : Ascii.eqb c "n" || Ascii.eqb c "N" = false) by (revert Hc; byte_cases c).
  now rewrite E1, E2, E3, E4.
Qed.

Lemma special_minus_digit (c : ascii) (s : string) :
  is_digit c = true -> special (String "-" (String c s)) = None.
Proof.
  intros Hc. cbn [special]. change (Ascii.eqb "-" "+") with false.
  change (Ascii.eqb "-" "-") with true. cbv iota.
  unfold special_inf. cbn [commonPrefixLenIgnoreCase].
  assert (E : Ascii.eqb (fold_upper c) "i" = false) by (revert Hc; byte_cases c).
  rewrite E. reflexivity.
Qed.

(** [readFloat] on a run of decimal digits, with or without a minus sign. *)
Lemma readFloat_digits (d : Decimal.uint) (neg : bool) :
  d <> Decimal.Nil ->
  readFloat ((if neg then "-" else "") +:+ NilEmpty.string_of_uint d) =
  Some ({| lit_mantissa := uint_value d 0; lit_exp := 0; lit_neg := neg;
           lit_hex := false |}, "").
Proof.
  intros Hd. destruct (digits_not_empty d Hd) as (c & s & Es & Hc).
  assert (Hsign : readSign ((if neg then "-" else "") +:+ NilEmpty.string_of_uint d)
                  = (neg, NilEmpty.string_of_uint d)).
  { destruct neg; [reflexivity |]. rewrite append_nil_l, Es. now apply readSign_digit. }
  assert (Hdo : digits_only mantState0) by (repeat split; cbn; auto; lia).
  destruct (readMantissa_digits d mantState0 Hdo) as (st & Hr & (H1 & H2 & _ & _) & Hm & Hs).
  unfold readFloat.
  destruct ((if neg then "-" else "") +:+ NilEmpty.string_of_uint d) as [|c0 s0] eqn:E0.
  { destruct neg; [discriminate E0 |]. rewrite append_nil_l, Es in E0. discriminate E0. }
  rewrite Hsign, (readBase_digits _ (digits_are_digits d)), Hr, (Hs Hd).
  cbn [negb]. rewrite H1, H2. cbn [readExponent andb].
  assert (Hexp : (if (mantissa st =? 0)%N then 0 else nd st + 0 - nd st) = 0)
    by (destruct (mantissa st =? 0)%N; lia).
  rewrite Hexp, Hm. reflexivity.
Qed.

Lemma float64_of_lit_int (m : N) (neg : bool) :
  float64_of_lit {| lit_mantissa := m; lit_exp := 0; lit_neg := neg; lit_hex := false |} =
  match m with
  | N0 => S754_zero neg
  | Npos p => binary_round prec emax neg p 0
  end.
Proof.
  unfold float64_of_lit. cbn. destruct m as [|p]; [reflexivity |].
  now rewrite Pos.mul_1_r.
Qed.

(** [ParseFloat] reads back the integer [FormatInt] printed, as the nearest
    float64. *)
Lemma ParseFloat_FormatInt (z : Z) :
  ParseFloat (FormatInt z) =
  if is_infinity (float64_of_Z z)
  then Err (NumError "ParseFloat" (FormatInt z) ErrRange)
  else Ok (float64_of_Z z).
Proof.
  destruct z as [|p|p].
  - reflexivity.
  - unfold FormatInt. cbn [Z.to_int NilZero.string_of_int].
    pose proof (Unsigned.to_uint_nonnil p) as Hd.
    assert (Es : NilZero.string_of_uint (Pos.to_uint p)
                 = "" +:+ NilEmpty.string_of_uint (Pos.to_uint p)).
    { unfold NilZero.string_of_uint. revert Hd.
      destruct (Pos.to_uint p); [congruence | reflexivity ..]. }
    rewrite Es. unfold ParseFloat.
    destruct (digits_not_empty _ Hd) as (c & s & Ec & Hc).
    rewrite (readFloat_digits _ false Hd).
    rewrite append_nil_l, Ec, (special_digit _ _ Hc), <- Ec.
    rewrite float64_of_lit_int, uint_value_0, Unsigned.of_to. reflexivity.
  - unfold FormatInt. cbn [Z.to_int NilZero.string_of_int].
    pose proof (Unsigned.to_uint_nonnil p) as Hd.
    assert (Es : String "-" (NilZero.string_of_uint (Pos.to_uint p))
                 = "-" +:+ NilEmpty.string_of_uint (Pos.to_uint p)).
    { unfold NilZero.string_of_uint. revert Hd.
      destruct (Pos.to_uint p); [congruence | reflexivity ..]. }
    rewrite Es. unfold ParseFloat.
    destruct (digits_not_empty _ Hd) as (c & s & Ec & Hc).
    rewrite (readFloat_digits _ true Hd).
    change ("-" +:+ NilEmpty.string_of_uint (Pos.to_uint p))
      with (String "-" (NilEmpty.string_of_uint (Pos.to_uint p))).
    rewrite Ec, (special_minus_digit _ _ Hc), <- Ec.
    rewrite float64_of_lit_int, uint_value_0, Unsigned.of_to. reflexivity.
Qed.

(* ================================================================== *)
(** * The rational time codec: parse *)
(* ================================================================== *)

(** The errors of [parseRationalTime]: the specification's
    MalformedDuration. *)
Definition MalformedDuration (e : error) : Prop :=
  exists s,
    e = Errorf ("invalid rational time format: " +:+ s) \/
    e = Errorf ("invalid rational time numerator: " +:+ s) \/
    e = Errorf ("invalid rational time denominator: " +:+ s).

(** The input is the fraction of [a] and [b], with or without the unit. *)
Definition fraction_of (s a b : string) : Prop :=
  s = a +:+ "/" +:+ b \/ s = a +:+ "/" +:+ b +:+ "s".

(** The input is the bare number [n], with or without the unit. *)
Definition bare_of (s n : string) : Prop :=
  s = n \/ s = n +:+ "s".

(** A fraction whose two parts are numbers. *)
Definition fraction_input (s : string) : Prop :=
  exists a b va vb, fraction_of s a b /\ ParseFloat a = Ok va /\ ParseFloat b = Ok vb.

(** A bare number, as the text itself. *)
Definition bare_number (s : string) : Prop :=
  exists v, ParseFloat s = Ok v.

(** A bare number, with or without the unit. *)
Definition bare_input (s : string) : Prop :=
  exists n v, bare_of s n /\ ParseFloat n = Ok v.

Lemma plain_no_slash (s : string) :
  string_forallb plain s = true ->
  string_forallb (fun c => negb (Ascii.eqb c "/")) s = true.
Proof.
  induction s as [|c s IH]; [reflexivity |]. simpl.
  intros H. apply andb_prop in H as [Hc Hs]. rewrite (IH Hs), andb_true_r.
  unfold plain in Hc. now apply andb_prop in Hc as [Hc _].
Qed.

Lemma eqb_empty_false (s : string) : s <> "" -> String.eqb s "" = false.
Proof. intros H. now apply String.eqb_neq. Qed.

Lemma append_not_empty (a b : string) : b <> "" -> a +:+ b <> "".
Proof.
  intros Hb E. apply (f_equal String.length) in E. rewrite length_append in E.
  destruct b; [congruence | simpl in E; lia].
Qed.

(** [parseRationalTime] after its first test, on the text without the unit. *)
Definition parseTrimmed (t : string) : result RationalTime :=
  match Split t "/" with
  | [numerator; denominator] =>
      match ParseFloat numerator with
      | Err _ => Err (Errorf ("invalid rational time numerator: " +:+ numerator))
      | Ok value =>
          match ParseFloat denominator with
          | Err _ => Err (Errorf ("invalid rational time denominator: " +:+ denominator))
          | Ok rate => Ok (NewRationalTime value rate)
          end
      end
  | _ =>
      match ParseFloat t with
      | Err _ => Err (Errorf ("invalid rational time format: " +:+ t))
      | Ok value => Ok (NewRationalTime value default_rate)
      end
  end.

Lemma parseRationalTime_trimmed (s : string) :
  s <> "" -> parseRationalTime s = parseTrimmed (TrimSuffix s "s").
Proof. intros H. unfold parseRationalTime. now rewrite (eqb_empty_false _ H). Qed.

Lemma parseTrimmed_fraction (a b : string) (va vb : float64) :
  ParseFloat a = Ok va -> ParseFloat b = Ok vb ->
  parseTrimmed (a +:+ "/" +:+ b) = Ok (NewRationalTime va vb).
Proof.
  intros Ha Hb. unfold parseTrimmed.
  destruct (ParseFloat_plain _ _ Ha) as [_ Pa].
  destruct (ParseFloat_plain _ _ Hb) as [_ Pb].
  change (a +:+ "/" +:+ b) with (a +:+ String "/" b).
  rewrite (Split_append _ _ _ (plain_no_slash _ Pa)).
  rewrite (Split_none _ _ (plain_no_slash _ Pb)).
  now rewrite Ha, Hb.
Qed.

Lemma parseTrimmed_bare (n : string) (v : float64) :
  ParseFloat n = Ok v -> parseTrimmed n = Ok (NewRationalTime v default_rate).
Proof.
  intros Hn. unfold parseTrimmed.
  destruct (ParseFloat_plain _ _ Hn) as [_ Pn].
  rewrite (Split_none _ _ (plain_no_slash _ Pn)). now rewrite Hn.
Qed.

(** A fraction of two numbers parses to them, with or without the unit. *)
Lemma parse_fraction (s a b : string) (va vb : float64) :
  fraction_of s a b -> ParseFloat a = Ok va -> ParseFloat b = Ok vb ->
  parseRationalTime s = Ok (NewRationalTime va vb).
Proof.
  intros Hs Ha Hb.
  destruct (ParseFloat_plain _ _ Hb) as [Nb Pb].
  destruct Hs as [-> | ->].
  - rewrite parseRationalTime_trimmed.
    + change (a +:+ "/" +:+ b) with (a +:+ String "/" b).
      rewrite <- (append_assoc a "/" b) at 1.
      rewrite (TrimSuffix_plain _ _ Nb Pb), append_assoc.
      now apply parseTrimmed_fraction.
    + rewrite <- (append_assoc a "/" b). now apply append_not_empty.
  - rewrite parseRationalTime_trimmed.
    + rewrite <- (append_assoc "/" b "s"), <- (append_assoc a _ "s").
      rewrite TrimSuffix_append. now apply parseTrimmed_fraction.
    + rewrite <- (append_assoc "/" b "s"), <- (append_assoc a _ "s").
      apply append_not_empty. discriminate.
Qed.

(** A bare number parses to itself at the default rate, with or without
    the unit. *)
Lemma parse_bare (s n : string) (v : float64) :
  bare_of s n -> ParseFloat n = Ok v ->
  parseRationalTime s = Ok (NewRationalTime v default_rate).
Proof.
  intros Hs Hn. destruct (ParseFloat_plain _ _ Hn) as [Nn Pn].
  destruct Hs as [-> | ->].
  - rewrite (parseRationalTime_trimmed _ Nn).
    rewrite <- (append_nil_l n) at 1. rewrite (TrimSuffix_plain _ _ Nn Pn).
    now apply parseTrimmed_bare.
  - rewrite parseRationalTime_trimmed.
    + rewrite TrimSuffix_append. now apply parseTrimmed_bare.
    + apply append_not_empty. discriminate.
Qed.

(** Whatever [parseRationalTime] accepts is one of the three forms, and
    whatever it refuses, it refuses with a MalformedDuration error. *)
Lemma parse_other (s : string) :
  s <> "" -> ~ fraction_input s -> ~ bare_input s ->
  exists e, parseRationalTime s = Err e /\ MalformedDuration e.
Proof.
  intros Hne Hnf Hnb. rewrite (parseRationalTime_trimmed _ Hne).
  assert (Hs : bare_of s (TrimSuffix s "s")).
  { destruct (TrimSuffix_inv s "s") as [E | E]; [right | left]; exact E. }
  unfold parseTrimmed.
  assert (Hbare : forall v, ParseFloat (TrimSuffix s "s") = Ok v -> False).
  { intros v Hv. apply Hnb. now exists (TrimSuffix s "s"), v. }
  pose proof (Join_Split (TrimSuffix s "s") "/") as HJ.
  destruct (Split (TrimSuffix s "s") "/") as [|a [|b [|c l]]].
  1, 2, 4: destruct (ParseFloat (TrimSuffix s "s")) as [v | e] eqn:E;
    [ now destruct (Hbare v) | eexists; split; [reflexivity | eexists; eauto] ].
  cbn [Join] in HJ.
  destruct (ParseFloat a) as [va | ea] eqn:Ea;
    [| eexists; split; [reflexivity | eexists; eauto] ].
  destruct (ParseFloat b) as [vb | eb] eqn:Eb;
    [| eexists; split; [reflexivity | eexists; eauto] ].
  exfalso. apply Hnf. exists a, b, va, vb. split; [| now split].
  unfold fraction_of. rewrite <- HJ in Hs.
  destruct Hs as [Hs | Hs]; [left | right]; rewrite Hs; [reflexivity |].
  now rewrite !append_assoc.
Qed.

(** C3 (amended): [parseRationalTime] is a total case analysis.  The empty
    text is the zero time value; a fraction of two numbers is that pair and
    a bare number is that number at the rate 24, each with or without the
    unit "s"; every other text is refused with a MalformedDuration error. *)
Theorem parseRationalTime_cases :
  parseRationalTime "" = Ok zero /\
  (forall s a b va vb,
      fraction_of s a b -> ParseFloat a = Ok va -> ParseFloat b = Ok vb ->
      parseRationalTime s = Ok (NewRationalTime va vb)) /\
  (forall s n v,
      bare_of s n -> ParseFloat n = Ok v ->
      parseRationalTime s = Ok (NewRationalTime v (float64_of_Z 24))) /\
  (forall s,
      s <> "" -> ~ fraction_input s -> ~ bare_input s ->
      exists e, parseRationalTime s = Err e /\ MalformedDuration e).
Proof.
  split; [reflexivity |]. split; [| split].
  - intros s a b va vb. apply parse_fraction.
  - intros s n v. apply parse_bare.
  - apply parse_other.
Qed.

Lemma slash_found (a b : string) :
  string_forallb (fun c => negb (Ascii.eqb c "/")) (a +:+ String "/" b) = false.
Proof.
  rewrite forallb_append. simpl. apply andb_false_r.
Qed.

(** C3 as stated fails: "24s" is not empty, is no fraction, and is no number
    as it stands, yet it is accepted, as 24 at the rate 24. *)
Lemma bare_number_with_unit_parses :
  "24s" <> "" /\ ~ fraction_input "24s" /\ ~ bare_number "24s" /\
  parseRationalTime "24s" = Ok (NewRationalTime (float64_of_Z 24) (float64_of_Z 24)).
Proof.
  split; [discriminate |]. split; [| split].
  - intros (a & b & va & vb & Hs & _).
    assert (H : string_forallb (fun c => negb (Ascii.eqb c "/")) "24s" = false).
    { destruct Hs as [-> | ->]; apply slash_found. }
    discriminate H.
  - intros (v & Hv). vm_compute in Hv. discriminate Hv.
  - vm_compute. reflexivity.
Qed.

(** The table of TestDecoder_ParseRationalTime, and the bare number of the
    specification. *)
Example parseRationalTime_tests :
  parseRationalTime "1200/24s" = Ok (NewRationalTime (float64_of_Z 1200) (float64_of_Z 24)) /\
  parseRationalTime "0/24s" = Ok (NewRationalTime (float64_of_Z 0) (float64_of_Z 24)) /\
  parseRationalTime "3600/30s" = Ok (NewRationalTime (float64_of_Z 3600) (float64_of_Z 30)) /\
  parseRationalTime "1001/30000s" =
    Ok (NewRationalTime (float64_of_Z 1001) (float64_of_Z 30000)) /\
  parseRationalTime "" = Ok zero /\
  parseRationalTime "invalid" = Err (Errorf "invalid rational time format: invalid") /\
  parseRationalTime "24" = Ok (NewRationalTime (float64_of_Z 24) (float64_of_Z 24)).
Proof. repeat split; vm_compute; reflexivity. Qed.

(* ================================================================== *)
(** * The rational time codec: format, then parse *)
(* ================================================================== *)

(** The integers that pass through float64 and int64 unchanged:
    [int64(float64(z)) == z]. *)
Definition exact_int64 (z : Z) : Prop := int64_of_float64 (float64_of_Z z) = z.

Lemma exact_int64_finite (z : Z) : exact_int64 z -> is_infinity (float64_of_Z z) = false.
Proof.
  unfold exact_int64. intros H.
  destruct (float64_of_Z z) as [sz | si | | s m e] eqn:E; try reflexivity.
  cbn in H. subst z. vm_compute in E. discriminate E.
Qed.

Lemma exact_int64_positive (r : Z) :
  exact_int64 r -> 0 < r -> SFleb (float64_of_Z r) (S754_zero false) = false.
Proof.
  unfold exact_int64. intros H Hr.
  destruct (float64_of_Z r) as [sz | si | | s m e] eqn:E; cbn in H.
  - lia.
  - unfold MinInt64 in H. lia.
  - reflexivity.
  - destruct s; [| reflexivity]. exfalso.
    pose proof (Z.shiftl_nonneg (Z.pos m) e) as Hsh.
    assert (0 <= Z.shiftl (Z.pos m) e) by (apply Hsh; lia).
    destruct ((MinInt64 <=? - Z.shiftl (Z.pos m) e) && (- Z.shiftl (Z.pos m) e <=? MaxInt64));
      unfold MinInt64 in *; lia.
Qed.

Lemma formatRationalTime_exact (z r : Z) :
  exact_int64 z -> exact_int64 r -> 0 < r ->
  formatRationalTime (NewRationalTime (float64_of_Z z) (float64_of_Z r)) =
  FormatInt z +:+ "/" +:+ FormatInt r +:+ "s".
Proof.
  intros Hz Hr Hpos. unfold formatRationalTime. cbn [value rate].
  rewrite (exact_int64_positive _ Hr Hpos). now rewrite Hz, Hr.
Qed.

(* ================================================================== *)
(** * The integers float64 holds exactly *)
(* ================================================================== *)

Lemma digits2_pos_bounds (p : positive) :
  2 ^ (Z.pos (digits2_pos p) - 1) <= Z.pos p < 2 ^ Z.pos (digits2_pos p).
Proof.
  induction p as [p IH | p IH |]; cbn [digits2_pos]; [| | cbn; lia].
  - rewrite Pos2Z.inj_succ. replace (Z.succ (Z.pos (digits2_pos p)) - 1)
      with (Z.succ (Z.pos (digits2_pos p) - 1)) by lia.
    rewrite !Z.pow_succ_r by lia. lia.
  - rewrite Pos2Z.inj_succ. replace (Z.succ (Z.pos (digits2_pos p)) - 1)
      with (Z.succ (Z.pos (digits2_pos p) - 1)) by lia.
    rewrite !Z.pow_succ_r by lia. lia.
Qed.

Lemma digits2_pos_shift (p k : positive) :
  digits2_pos (Pos.iter xO p k) = (digits2_pos p + k)%positive.
Proof.
  induction k as [|k IH] using Pos.peano_ind.
  - cbn. lia.
  - rewrite Pos.iter_succ. cbn [digits2_pos]. rewrite IH. lia.
Qed.

Lemma pos_shift_value (p k : positive) :
  Z.pos (Pos.iter xO p k) = Z.pos p * 2 ^ Z.pos k.
Proof.
  induction k as [|k IH] using Pos.peano_ind.
  - cbn. lia.
  - rewrite Pos.iter_succ, Pos2Z.inj_succ, Z.pow_succ_r by lia.
    rewrite Pos2Z.inj_xO, IH. lia.
Qed.

(** Rounding a mantissa of exactly 53 bits, at an exponent in range, keeps
    it. *)
Lemma binary_round_aux_53 (s : bool) (m : positive) (e : Z) :
  Z.pos (digits2_pos m) = 53 -> -1074 <= e <= 971 ->
  binary_round_aux prec emax s (Z.pos m) e loc_Exact = S754_finite s m e.
Proof.
  intros Hd He. unfold binary_round_aux.
  assert (Hs : shr_fexp prec emax (Z.pos m) e loc_Exact =
               ({| shr_m := Z.pos m; shr_r := false; shr_s := false |}, e)).
  { unfold shr_fexp. cbn [Zdigits2 shr_record_of_loc]. rewrite Hd.
    unfold fexp, SpecFloat.emin, prec, emax.
    replace (Z.max (53 + e - 53) (3 - 1024 - 53) - e) with 0 by lia. reflexivity. }
  rewrite Hs. cbn [shr_m loc_of_shr_record round_nearest_even]. rewrite Hs.
  cbn [shr_m]. unfold prec, emax.
  destruct (Z.leb_spec e (1024 - 53)); [reflexivity | lia].
Qed.

(** [float64(z)] for a positive [z] below 2^53: the mantissa is [z] shifted
    to 53 bits. *)
Lemma binary_round_small (s : bool) (p : positive) :
  Z.pos p < 2 ^ 53 ->
  exists m e, binary_round prec emax s p 0 = S754_finite s m e /\
              e <= 0 /\ Z.pos m = Z.pos p * 2 ^ (- e).
Proof.
  intros Hp. pose proof (digits2_pos_bounds p) as [Hlo Hhi].
  assert (Hd : Z.pos (digits2_pos p) <= 53).
  { destruct (Z.le_gt_cases (Z.pos (digits2_pos p)) 53) as [H | H]; [exact H |].
    exfalso. assert (2 ^ 53 <= 2 ^ (Z.pos (digits2_pos p) - 1))
      by (apply Z.pow_le_mono_r; lia). lia. }
  unfold binary_round, shl_align.
  replace (fexp prec emax (Z.pos (digits2_pos p) + 0)) with (Z.pos (digits2_pos p) - 53)
    by (unfold fexp, SpecFloat.emin, prec, emax; lia).
  destruct (Z.pos (digits2_pos p) - 53 - 0) as [|k|k] eqn:Ek; [| lia |].
  - exists p, 0. split; [| split; [lia | cbn; lia]].
    replace (Z.pos (digits2_pos p) - 53) with 0 by lia.
    apply binary_round_aux_53; lia.
  - exists (Pos.iter xO p k), (Z.pos (digits2_pos p) - 53). split; [| split; [lia |]].
    + apply binary_round_aux_53; [| lia].
      rewrite digits2_pos_shift, Pos2Z.inj_add. lia.
    + rewrite pos_shift_value. f_equal. f_equal. lia.
Qed.

Lemma shiftl_exact (p m : positive) (e : Z) :
  e <= 0 -> Z.pos m = Z.pos p * 2 ^ (- e) -> Z.shiftl (Z.pos m) e = Z.pos p.
Proof.
  intros He Hm. rewrite Hm. rewrite <- (Z.opp_involutive e) at 2.
  rewrite Z.shiftl_opp_r, Z.shiftr_div_pow2 by lia.
  apply Z.div_mul. apply Z.pow_nonzero; lia.
Qed.

(** Every integer of magnitude at most 2^53 passes through float64 and
    int64 unchanged. *)
Lemma exact_int64_small (z : Z) : - 2 ^ 53 <= z <= 2 ^ 53 -> exact_int64 z.
Proof.
  intros Hz. unfold exact_int64.
  destruct (Z.eq_dec z (2 ^ 53)) as [-> | H1]; [reflexivity |].
  destruct (Z.eq_dec z (- 2 ^ 53)) as [-> | H2]; [reflexivity |].
  destruct z as [|p|p]; [reflexivity | |].
  - destruct (binary_round_small false p) as (m & e & Hr & He & Hm); [lia |].
    unfold float64_of_Z, binary_normalize. rewrite Hr. cbn [int64_of_float64].
    rewrite (shiftl_exact p m e He Hm).
    unfold MinInt64, MaxInt64.
    destruct (Z.leb_spec (- 2 ^ 63) (Z.pos p)); [| lia].
    destruct (Z.leb_spec (Z.pos p) (2 ^ 63 - 1)); [reflexivity | lia].
  - destruct (binary_round_small true p) as (m & e & Hr & He & Hm); [lia |].
    unfold float64_of_Z, binary_normalize. rewrite Hr. cbn [int64_of_float64].
    rewrite (shiftl_exact p m e He Hm).
    unfold MinInt64, MaxInt64. change (- Z.pos p) with (Z.neg p).
    destruct (Z.leb_spec (- 2 ^ 63) (Z.neg p)); [| lia].
    destruct (Z.leb_spec (Z.neg p) (2 ^ 63 - 1)); [reflexivity | lia].
Qed.

Lemma iter_pos_iter {A} (f : A -> A) (k : positive) :
  forall x, SpecFloat.iter_pos f k x = Pos.iter f x k.
Proof.
  induction k as [k IH | k IH |]; intros x; cbn [SpecFloat.iter_pos Pos.iter].
  - rewrite !IH. now rewrite <- !Pos.iter_swap.
  - now rewrite !IH.
  - reflexivity.
Qed.

(** Shifting out the zero bits a mantissa was shifted in by loses nothing. *)
Lemma shr_shifted (m k : positive) :
  SpecFloat.iter_pos shr_1 k {| shr_m := Z.pos (Pos.iter xO m k); shr_r := false; shr_s := false |} =
  {| shr_m := Z.pos m; shr_r := false; shr_s := false |}.
Proof.
  rewrite iter_pos_iter. induction k as [|k IH] using Pos.peano_ind.
  - reflexivity.
  - rewrite !Pos.iter_succ, <- Pos.iter_swap.
    cbn [shr_1 orb]. exact IH.
Qed.

(** [float64(z)] for [z] a mantissa of 53 bits times a power of two. *)
Lemma binary_round_large (s : bool) (m k : positive) :
  Z.pos (digits2_pos m) = 53 -> Z.pos k <= 971 ->
  binary_round prec emax s (Pos.iter xO m k) 0 = S754_finite s m (Z.pos k).
Proof.
  intros Hd Hk. unfold binary_round, shl_align.
  assert (Hdig : Z.pos (digits2_pos (Pos.iter xO m k)) = 53 + Z.pos k).
  { rewrite digits2_pos_shift, Pos2Z.inj_add. lia. }
  rewrite Hdig.
  replace (fexp prec emax (53 + Z.pos k + 0)) with (Z.pos k)
    by (unfold fexp, SpecFloat.emin, prec, emax; lia).
  replace (Z.pos k - 0) with (Z.pos k) by lia. cbv iota beta.
  unfold binary_round_aux.
  assert (Hs1 : shr_fexp prec emax (Z.pos (Pos.iter xO m k)) 0 loc_Exact =
                ({| shr_m := Z.pos m; shr_r := false; shr_s := false |}, Z.pos k)).
  { unfold shr_fexp. cbn [Zdigits2 shr_record_of_loc]. rewrite Hdig.
    replace (fexp prec emax (53 + Z.pos k + 0) - 0) with (Z.pos k)
      by (unfold fexp, SpecFloat.emin, prec, emax; lia).
    cbn [shr]. now rewrite shr_shifted. }
  assert (Hs2 : shr_fexp prec emax (Z.pos m) (Z.pos k) loc_Exact =
                ({| shr_m := Z.pos m; shr_r := false; shr_s := false |}, Z.pos k)).
  { unfold shr_fexp. cbn [Zdigits2 shr_record_of_loc]. rewrite Hd.
    replace (fexp prec emax (53 + Z.pos k) - Z.pos k) with 0
      by (unfold fexp, SpecFloat.emin, prec, emax; lia).
    reflexivity. }
  rewrite Hs1. cbn [shr_m loc_of_shr_record round_nearest_even]. rewrite Hs2.
  cbn [shr_m]. unfold prec, emax.
  destruct (Z.leb_spec (Z.pos k) (1024 - 53)); [reflexivity | lia].
Qed.

(** The integers float64 holds exactly: a mantissa below 2^53 times a power
    of two, with either sign. *)
Definition float64_integer (z : Z) : Prop :=
  exists m e, Z.abs z = m * 2 ^ e /\ 0 <= m < 2 ^ 53 /\ 0 <= e.

(** Such an integer, when it is 2^53 or more, is a mantissa of exactly 53
    bits times a positive power of two. *)
Lemma float64_integer_normal (p : positive) :
  float64_integer (Z.pos p) -> 2 ^ 53 <= Z.pos p ->
  exists m k, p = Pos.iter xO m k /\ Z.pos (digits2_pos m) = 53.
Proof.
  intros (m & e & Habs & Hm & He) Hp. change (Z.abs (Z.pos p)) with (Z.pos p) in Habs.
  destruct m as [|m|m]; [lia | | lia].
  pose proof (digits2_pos_bounds m) as [Hlo Hhi].
  assert (Hd : Z.pos (digits2_pos m) <= 53).
  { destruct (Z.le_gt_cases (Z.pos (digits2_pos m)) 53) as [H | H]; [exact H |].
    exfalso. assert (2 ^ 53 <= 2 ^ (Z.pos (digits2_pos m) - 1))
      by (apply Z.pow_le_mono_r; lia). lia. }
  (* the exponent is more than the bits the mantissa lacks *)
  assert (He' : 53 - Z.pos (digits2_pos m) < e).
  { destruct (Z.lt_ge_cases (53 - Z.pos (digits2_pos m)) e) as [H | H]; [exact H |].
    exfalso.
    assert (Z.pos m * 2 ^ e < 2 ^ Z.pos (digits2_pos m) * 2 ^ e).
    { apply Z.mul_lt_mono_pos_r; [apply Z.pow_pos_nonneg; lia | lia]. }
    rewrite <- Z.pow_add_r in H0 by lia.
    assert (2 ^ (Z.pos (digits2_pos m) + e) <= 2 ^ 53) by (apply Z.pow_le_mono_r; lia).
    lia. }
  destruct (53 - Z.pos (digits2_pos m)) as [|j|j] eqn:Ej; [| | lia].
  - (* the mantissa has 53 bits already *)
    destruct e as [|k|k]; [lia | | lia].
    exists m, k. split; [| lia].
    apply Pos2Z.inj. rewrite pos_shift_value. exact Habs.
  - (* the mantissa takes [j] bits of the exponent *)
    destruct (e - Z.pos j) as [|k|k] eqn:Ek; [lia | | lia].
    exists (Pos.iter xO m j), k. split.
    + apply Pos2Z.inj. rewrite !pos_shift_value, Habs.
      replace e with (Z.pos j + Z.pos k) by lia.
      rewrite Z.pow_add_r by lia. lia.
    + rewrite digits2_pos_shift, Pos2Z.inj_add. lia.
Qed.

Lemma int64_of_finite (s : bool) (m k : positive) (p : positive) :
  p = Pos.iter xO m k ->
  int64_of_float64 (S754_finite s m (Z.pos k)) =
  let z := if s then Z.neg p else Z.pos p in
  if (MinInt64 <=? z) && (z <=? MaxInt64) then z else MinInt64.
Proof.
  intros ->. cbn [int64_of_float64]. rewrite Z.shiftl_mul_pow2 by lia.
  rewrite <- pos_shift_value. now destruct s.
Qed.

(** An integer float64 holds exactly and int64 can hold passes through both
    unchanged. *)
Lemma exact_int64_float64_integer (z : Z) :
  float64_integer z -> MinInt64 <= z <= MaxInt64 -> exact_int64 z.
Proof.
  intros Hf Hz.
  destruct (Z.le_gt_cases (Z.abs z) (2 ^ 53)) as [Hs | Hl];
    [apply exact_int64_small; lia |].
  unfold MinInt64, MaxInt64 in Hz. unfold exact_int64.
  destruct z as [|p|p]; [reflexivity | |].
  - destruct (float64_integer_normal p Hf) as (m & k & Hp & Hd); [cbn in Hl; lia |].
    assert (Hk : Z.pos k <= 971).
    { pose proof (digits2_pos_bounds m) as [Hlo _]. rewrite Hd in Hlo.
      destruct (Z.le_gt_cases (Z.pos k) 971) as [H | H]; [exact H |]. exfalso.
      assert (Hv := pos_shift_value m k). rewrite <- Hp in Hv.
      assert (2 ^ 12 <= 2 ^ Z.pos k) by (apply Z.pow_le_mono_r; lia).
      assert (2 ^ 52 * 2 ^ 12 <= Z.pos m * 2 ^ Z.pos k) by (apply Z.mul_le_mono_nonneg; lia).
      lia. }
    unfold float64_of_Z, binary_normalize. rewrite Hp at 1.
    rewrite (binary_round_large false m k Hd Hk), (int64_of_finite false m k p Hp).
    cbv zeta. unfold MinInt64, MaxInt64.
    destruct (Z.leb_spec (- 2 ^ 63) (Z.pos p)); [| lia].
    destruct (Z.leb_spec (Z.pos p) (2 ^ 63 - 1)); [reflexivity | lia].
  - assert (Hf' : float64_integer (Z.pos p)).
    { destruct Hf as (m & e & H). exists m, e. exact H. }
    destruct (float64_integer_normal p Hf') as (m & k & Hp & Hd); [cbn in Hl; lia |].
    assert (Hk : Z.pos k <= 971).
    { pose proof (digits2_pos_bounds m) as [Hlo _]. rewrite Hd in Hlo.
      destruct (Z.le_gt_cases (Z.pos k) 971) as [H | H]; [exact H |]. exfalso.
      assert (Hv := pos_shift_value m k). rewrite <- Hp in Hv.
      assert (2 ^ 12 <= 2 ^ Z.pos k) by (apply Z.pow_le_mono_r; lia).
      assert (2 ^ 52 * 2 ^ 12 <= Z.pos m * 2 ^ Z.pos k) by (apply Z.mul_le_mono_nonneg; lia).
      lia. }
    unfold float64_of_Z, binary_normalize. rewrite Hp at 1.
    rewrite (binary_round_large true m k Hd Hk), (int64_of_finite true m k p Hp).
    cbv zeta. unfold MinInt64, MaxInt64.
    destruct (Z.leb_spec (- 2 ^ 63) (Z.neg p)); [| lia].
    destruct (Z.leb_spec (Z.neg p) (2 ^ 63 - 1)); [reflexivity | lia].
Qed.

(** C4 (amended): for integers [value] and [rate] that float64 holds
    exactly and int64 can hold, with [rate > 0], formatting the rational
    time and parsing the text gives the rational time back. *)
Theorem parse_format_roundtrip (value rate : Z) :
  float64_integer value -> float64_integer rate ->
  MinInt64 <= value <= MaxInt64 -> 0 < rate <= MaxInt64 ->
  parseRationalTime
    (formatRationalTime (NewRationalTime (float64_of_Z value) (float64_of_Z rate))) =
  Ok (NewRationalTime (float64_of_Z value) (float64_of_Z rate)).
Proof.
  intros Fv Fr Rv Rr.
  assert (Hv : exact_int64 value) by now apply exact_int64_float64_integer.
  assert (Hr : exact_int64 rate).
  { apply exact_int64_float64_integer; [exact Fr |]. unfold MinInt64 in *. lia. }
  rewrite (formatRationalTime_exact _ _ Hv Hr (proj1 Rr)).
  apply (parse_fraction _ (FormatInt value) (FormatInt rate)).
  - now right.
  - rewrite ParseFloat_FormatInt. now rewrite (exact_int64_finite _ Hv).
  - rewrite ParseFloat_FormatInt. now rewrite (exact_int64_finite _ Hr).
Qed.

Lemma parse_format_roundtrip_witness :
  parseRationalTime
    (formatRationalTime (NewRationalTime (float64_of_Z 1001) (float64_of_Z 30000))) =
  Ok (NewRationalTime (float64_of_Z 1001) (float64_of_Z 30000)).
Proof.
  apply (parse_format_roundtrip 1001 30000).
  - exists 1001, 0. lia.
  - exists 30000, 0. lia.
  - unfold MinInt64, MaxInt64. lia.
  - unfold MaxInt64. lia.
Defined.

(** C4 as stated fails: -2^64 is an integer float64 holds exactly and the
    rate 24 is a positive integer, yet the text formatted from them is that
    of -2^63 over 24 (int64 cannot hold -2^64, and the conversion yields its
    least value), and parses to another rational time. *)
Lemma roundtrip_fails_beyond_int64 :
  float64_integer (- 2 ^ 64) /\ float64_integer 24 /\ 0 < 24 /\
  float64_of_Z (- 2 ^ 64) = S754_finite true (2 ^ 52) 12 /\
  formatRationalTime (NewRationalTime (float64_of_Z (- 2 ^ 64)) (float64_of_Z 24)) =
    "-9223372036854775808/24s" /\
  parseRationalTime
    (formatRationalTime (NewRationalTime (float64_of_Z (- 2 ^ 64)) (float64_of_Z 24))) =
    Ok (NewRationalTime (float64_of_Z (- 2 ^ 63)) (float64_of_Z 24)) /\
  parseRationalTime
    (formatRationalTime (NewRationalTime (float64_of_Z (- 2 ^ 64)) (float64_of_Z 24))) <>
    Ok (NewRationalTime (float64_of_Z (- 2 ^ 64)) (float64_of_Z 24)).
Proof.
  split; [exists 1, 64; lia |]. split; [exists 24, 0; lia |]. split; [lia |].
  split; [vm_compute; reflexivity |]. split; [vm_compute; reflexivity |].
  split; [vm_compute; reflexivity |]. vm_compute. discriminate.
Qed.

(* ================================================================== *)
(** * The XML decoder on well-formed content *)
(* ================================================================== *)

Lemma Name_eqb_refl (n : xml.Name) : xml.Name_eqb n n = true.
Proof. unfold xml.Name_eqb. now rewrite !String.eqb_refl. Qed.

Lemma tokens_Element (n : xml.Name) (a : list xml.Attr) (ch : list xml.Node) :
  xml.tokens (xml.Element n a ch) =
  xml.StartElement n a :: xml.tokens_all ch ++ [xml.EndElement n].
Proof. reflexivity. Qed.

Lemma tokens_all_cons (k : xml.Node) (kids : list xml.Node) :
  xml.tokens_all (k :: kids) = xml.tokens k ++ xml.tokens_all kids.
Proof. reflexivity. Qed.

(** The tokens of an element followed by [more], as the decoder meets them. *)
Lemma tokens_all_Element (n : xml.Name) (a : list xml.Attr) (ch kids : list xml.Node)
    (more : list xml.Token) :
  xml.tokens_all (xml.Element n a ch :: kids) ++ more =
  xml.StartElement n a ::
    xml.tokens_all ch ++ xml.EndElement n :: (xml.tokens_all kids ++ more).
Proof.
  rewrite tokens_all_cons, tokens_Element. cbn [app].
  now rewrite <- !app_assoc.
Qed.

Lemma length_tokens_all_Element (n : xml.Name) (a : list xml.Attr) (ch kids : list xml.Node) :
  length (xml.tokens_all (xml.Element n a ch :: kids)) =
  S (length (xml.tokens_all ch) + S (length (xml.tokens_all kids))).
Proof.
  rewrite tokens_all_cons, tokens_Element. cbn [app length].
  rewrite !length_app. cbn [length]. lia.
Qed.

(** [Skip_loop] runs through well-formed content without a change of depth
    or of the open elements, one unit of fuel a token. *)
Lemma Skip_loop_content (n : nat) :
  forall kids, (length (xml.tokens_all kids) <= n)%nat ->
  forall k depth opn more,
    xml.Skip_loop (length (xml.tokens_all kids) + k) depth
      {| xml.open := opn; xml.input := xml.tokens_all kids ++ more |} =
    xml.Skip_loop k depth {| xml.open := opn; xml.input := more |}.
Proof.
  induction n as [|n IH]; intros kids Hn k depth opn more.
  - destruct kids as [|[nm a ch | s | s | t i | s] kids]; [reflexivity | ..];
      (rewrite ?length_tokens_all_Element in Hn; cbn in Hn; lia).
  - destruct kids as [|[nm a ch | s | s | t i | s] kids]; [reflexivity | ..].
    + rewrite length_tokens_all_Element in *. rewrite tokens_all_Element.
      cbn [plus xml.Skip_loop xml.NextToken xml.input xml.open].
      rewrite <- Nat.add_assoc.
      rewrite (IH ch) by lia.
      cbn [plus xml.Skip_loop xml.NextToken xml.input xml.open].
      rewrite Name_eqb_refl. apply IH. lia.
    + change (xml.tokens_all (xml.Text s :: kids)) with (xml.CharData s :: xml.tokens_all kids) in *.
      cbn [length plus app xml.Skip_loop xml.NextToken xml.input xml.open] in *.
      apply IH. lia.
    + change (xml.tokens_all (xml.CommentNode s :: kids)) with (xml.Comment s :: xml.tokens_all kids) in *.
      cbn [length plus app xml.Skip_loop xml.NextToken xml.input xml.open] in *.
      apply IH. lia.
    + change (xml.tokens_all (xml.ProcInstNode t i :: kids)) with (xml.ProcInst t i :: xml.tokens_all kids) in *.
      cbn [length plus app xml.Skip_loop xml.NextToken xml.input xml.open] in *.
      apply IH. lia.
    + change (xml.tokens_all (xml.DirectiveNode s :: kids)) with (xml.Directive s :: xml.tokens_all kids) in *.
      cbn [length plus app xml.Skip_loop xml.NextToken xml.input xml.open] in *.
      apply IH. lia.
Qed.

(** [Skip], called after a start tag, reads the element's content and its
    end tag, and nothing more. *)
Lemma Skip_element (nm : xml.Name) (kids : list xml.Node) (outer : list xml.Name)
    (rest : list xml.Token) :
  xml.Skip {| xml.open := nm :: outer;
              xml.input := xml.tokens_all kids ++ xml.EndElement nm :: rest |} =
  Ok {| xml.open := outer; xml.input := rest |}.
Proof.
  unfold xml.Skip. cbn [xml.input]. rewrite length_app. cbn [length].
  replace (S (length (xml.tokens_all kids) + S (length rest)))
    with (length (xml.tokens_all kids) + S (S (length rest)))%nat by lia.
  rewrite (Skip_loop_content _ kids (le_n _)).
  cbn [xml.Skip_loop xml.NextToken xml.input xml.open].
  now rewrite Name_eqb_refl.
Qed.

(** [readContent] rebuilds the content it reads. *)
Lemma readContent_content (fuel : nat) :
  forall kids nm outer rest,
    (length (xml.tokens_all kids) < fuel)%nat ->
    xml.readContent fuel
      {| xml.open := nm :: outer;
         xml.input := xml.tokens_all kids ++ xml.EndElement nm :: rest |} =
    Ok (kids, {| xml.open := outer; xml.input := rest |}).
Proof.
  induction fuel as [|fuel IH]; intros kids nm outer rest Hf; [lia |].
  destruct kids as [|[n a ch | s | s | t i | s] kids].
  - cbn [xml.tokens_all flat_map app xml.readContent xml.NextToken xml.input xml.open].
    now rewrite Name_eqb_refl.
  - rewrite length_tokens_all_Element in Hf. rewrite tokens_all_Element.
    cbn [xml.readContent xml.NextToken xml.input xml.open].
    rewrite (IH ch) by lia. rewrite (IH kids) by lia. reflexivity.
  - change (xml.tokens_all (xml.Text s :: kids)) with (xml.CharData s :: xml.tokens_all kids) in *.
    cbn [length app xml.readContent xml.NextToken xml.input xml.open] in *.
    rewrite (IH kids) by lia. reflexivity.
  - change (xml.tokens_all (xml.CommentNode s :: kids)) with (xml.Comment s :: xml.tokens_all kids) in *.
    cbn [length app xml.readContent xml.NextToken xml.input xml.open] in *.
    rewrite (IH kids) by lia. reflexivity.
  - change (xml.tokens_all (xml.ProcInstNode t i :: kids)) with (xml.ProcInst t i :: xml.tokens_all kids) in *.
    cbn [length app xml.readContent xml.NextToken xml.input xml.open] in *.
    rewrite (IH kids) by lia. reflexivity.
  - change (xml.tokens_all (xml.DirectiveNode s :: kids)) with (xml.Directive s :: xml.tokens_all kids) in *.
    cbn [length app xml.readContent xml.NextToken xml.input xml.open] in *.
    rewrite (IH kids) by lia. reflexivity.
Qed.

Lemma readElement_element (nm : xml.Name) (kids : list xml.Node) (outer : list xml.Name)
    (rest : list xml.Token) :
  xml.readElement {| xml.open := nm :: outer;
                     xml.input := xml.tokens_all kids ++ xml.EndElement nm :: rest |} =
  Ok (kids, {| xml.open := outer; xml.input := rest |}).
Proof.
  unfold xml.readElement. apply readContent_content.
  cbn [xml.input]. rewrite length_app. cbn [length]. lia.
Qed.

(* ================================================================== *)
(** * Spine.UnmarshalXML *)
(* ================================================================== *)

(** The seven variants of a spine item. *)
Inductive ItemKind := KClip | KVideo | KAudio | KGap | KTitle | KTransition | KRefClip.

Definition kindOf (item : Item) : ItemKind :=
  match item with
  | ItemClip _ => KClip
  | ItemVideo _ => KVideo
  | ItemAudio _ => KAudio
  | ItemGap _ => KGap
  | ItemTitle _ => KTitle
  | ItemTransition _ => KTransition
  | ItemRefClip _ => KRefClip
  end.

(** The variant a known tag name stands for. *)
Definition tagKind (local : string) : option ItemKind :=
  if String.eqb local "asset-clip" then Some KClip
  else if String.eqb local "clip" then Some KClip
  else if String.eqb local "video" then Some KVideo
  else if String.eqb local "audio" then Some KAudio
  else if String.eqb local "gap" then Some KGap
  else if String.eqb local "title" then Some KTitle
  else if String.eqb local "transition" then Some KTransition
  else if String.eqb local "ref-clip" then Some KRefClip
  else None.

(** The variant of a child of the spine: that of its tag, for an element
    with a known tag. *)
Definition childKind (n : xml.Node) : option ItemKind :=
  match n with
  | xml.Element name _ _ => tagKind (xml.Local name)
  | _ => None
  end.

Lemma newItem_tagKind (local : string) : kindOf <$> newItem local = tagKind local.
Proof.
  unfold newItem, tagKind.
  destruct (String.eqb local "asset-clip"); [reflexivity |].
  destruct (String.eqb local "clip"); [reflexivity |]. cbn [orb].
  repeat match goal with
         | |- context [if ?b then _ else _] => destruct b; [reflexivity |]
         end.
  reflexivity.
Qed.

Section SpineUnmarshalFacts.

Context `{xml.Unmarshaler Clip.t} `{xml.Unmarshaler Video.t}
        `{xml.Unmarshaler Audio.t} `{xml.Unmarshaler Gap.t}
        `{xml.Unmarshaler Title.t} `{xml.Unmarshaler Transition.t}
        `{xml.Unmarshaler RefClip.t}.

(** A child of the spine that is an element with a known tag, with the
    fresh item of its variant. *)
Definition recognizedChild (n : xml.Node)
    : option (Item * xml.Name * list xml.Attr * list xml.Node) :=
  match n with
  | xml.Element name attr content =>
      match newItem (xml.Local name) with
      | Some item => Some (item, name, attr, content)
      | None => None
      end
  | _ => None
  end.

Definition decodeChild (c : Item * xml.Name * list xml.Attr * list xml.Node)
    : result Item :=
  let '(item, name, attr, content) := c in unmarshalItem item name attr content.

Lemma unmarshalItem_kind (item item' : Item) name attr content :
  unmarshalItem item name attr content = Ok item' -> kindOf item' = kindOf item.
Proof.
  destruct item; cbn [unmarshalItem bind];
    match goal with
    | |- context [xml.unmarshal ?v ?n ?a ?c] => destruct (xml.unmarshal v n a c)
    end; cbn [bind]; try discriminate; intros [= <-]; reflexivity.
Qed.

Lemma traverse_decodeChild_kinds (kids : list xml.Node) (items : list Item) :
  traverse decodeChild (omap recognizedChild kids) = Ok items ->
  map kindOf items = omap childKind kids.
Proof.
  revert items. induction kids as [|k kids IH]; intros items.
  - cbn. now intros [= <-].
  - cbn [omap list_omap]. unfold recognizedChild at 1, childKind at 1.
    destruct k as [name attr content | | | |]; try apply IH.
    rewrite <- newItem_tagKind.
    destruct (newItem (xml.Local name)) as [item |] eqn:En; cbn [fmap option_fmap option_map];
      [| apply IH].
    cbn [traverse bind decodeChild].
    destruct (unmarshalItem item name attr content) as [item' | e] eqn:Eu; [| discriminate].
    cbn [bind].
    destruct (traverse decodeChild (omap recognizedChild kids)) as [its | e] eqn:Et;
      [| discriminate].
    cbn [bind]. intros [= <-]. cbn [map].
    rewrite (unmarshalItem_kind _ _ _ _ _ Eu). f_equal. now apply IH.
Qed.

Lemma length_tokens_all (kids : list xml.Node) :
  (length kids <= length (xml.tokens_all kids))%nat.
Proof.
  induction kids as [|k kids IH]; [reflexivity |].
  rewrite tokens_all_cons, length_app. cbn [length].
  destruct k; cbn [xml.tokens length]; lia.
Qed.

(** The loop of [UnmarshalXML] on well-formed content: the recognized
    children are decoded in order and appended, the others are passed. *)
Lemma UnmarshalXML_loop_content (kids : list xml.Node) :
  forall fuel start items outer rest,
    (length kids < fuel)%nat ->
    UnmarshalXML_loop fuel start items
      {| xml.open := start :: outer;
         xml.input := xml.tokens_all kids ++ xml.EndElement start :: rest |} =
    (its <- traverse decodeChild (omap recognizedChild kids) ;;
     Ok (items ++ its, {| xml.open := outer; xml.input := rest |})).
Proof.
  induction kids as [|k kids IH]; intros fuel start items outer rest Hf;
    (destruct fuel as [|fuel]; [cbn in Hf; lia |]).
  - cbn [xml.tokens_all flat_map app UnmarshalXML_loop xml.NextToken xml.input xml.open].
    rewrite !Name_eqb_refl. cbn. now rewrite app_nil_r.
  - cbn [length] in Hf.
    destruct k as [name attr content | s | s | t i | s].
    + rewrite tokens_all_Element.
      cbn [UnmarshalXML_loop xml.NextToken xml.input xml.open omap list_omap recognizedChild].
      destruct (newItem (xml.Local name)) as [item |] eqn:En.
      * unfold DecodeElement. rewrite readElement_element.
        cbn [traverse bind decodeChild].
        destruct (unmarshalItem item name attr content) as [item' | e]; [| reflexivity].
        cbn [bind]. rewrite IH by lia.
        destruct (traverse decodeChild (omap recognizedChild kids)) as [its | e];
          [| reflexivity].
        cbn [bind]. now rewrite <- app_assoc.
      * rewrite Skip_element. apply IH. lia.
    + change (xml.tokens_all (xml.Text s :: kids)) with (xml.CharData s :: xml.tokens_all kids).
      cbn [app UnmarshalXML_loop xml.NextToken xml.input xml.open omap list_omap recognizedChild].
      apply IH. lia.
    + change (xml.tokens_all (xml.CommentNode s :: kids)) with (xml.Comment s :: xml.tokens_all kids).
      cbn [app UnmarshalXML_loop xml.NextToken xml.input xml.open omap list_omap recognizedChild].
      apply IH. lia.
    + change (xml.tokens_all (xml.ProcInstNode t i :: kids)) with (xml.ProcInst t i :: xml.tokens_all kids).
      cbn [app UnmarshalXML_loop xml.NextToken xml.input xml.open omap list_omap recognizedChild].
      apply IH. lia.
    + change (xml.tokens_all (xml.DirectiveNode s :: kids)) with (xml.Directive s :: xml.tokens_all kids).
      cbn [app UnmarshalXML_loop xml.NextToken xml.input xml.open omap list_omap recognizedChild].
      apply IH. lia.
Qed.

(** [UnmarshalXML] on a well-formed spine element. *)
Lemma UnmarshalXML_content (start : xml.Name) (kids : list xml.Node)
    (outer : list xml.Name) (rest : list xml.Token) :
  UnmarshalXML
    {| xml.open := start :: outer;
       xml.input := xml.tokens_all kids ++ xml.EndElement start :: rest |} start =
  (items <- traverse decodeChild (omap recognizedChild kids) ;;
   Ok ({| Spine.XMLName := start; Spine.Items := items |},
       {| xml.open := outer; xml.input := rest |})).
Proof.
  unfold UnmarshalXML. rewrite UnmarshalXML_loop_content.
  - destruct (traverse decodeChild (omap recognizedChild kids)); reflexivity.
  - cbn [xml.input]. rewrite length_app. pose proof (length_tokens_all kids). lia.
Qed.

Lemma recognizedChild_unknown (pre post : list xml.Node) name attr content :
  newItem (xml.Local name) = None ->
  omap recognizedChild (pre ++ xml.Element name attr content :: post) =
  omap recognizedChild (pre ++ post).
Proof.
  intros Hn. rewrite !omap_app. f_equal. cbn [omap list_omap recognizedChild].
  now rewrite Hn.
Qed.

(** Whatever the struct decoder: on a spine element with the children
    [kids], [UnmarshalXML] returns the items decoded from the children with
    a known tag, in document order, each of the variant of its tag, or the
    error of the first that does not decode; a child with another tag is
    skipped with all it holds: it adds no item and no error. *)
Lemma UnmarshalXML_recognized_in_order (start : xml.Name) (kids : list xml.Node)
    (outer : list xml.Name) (rest : list xml.Token) :
  let d := {| xml.open := start :: outer;
              xml.input := xml.tokens_all kids ++ xml.EndElement start :: rest |} in
  UnmarshalXML d start =
    (items <- traverse decodeChild (omap recognizedChild kids) ;;
     Ok ({| Spine.XMLName := start; Spine.Items := items |},
         {| xml.open := outer; xml.input := rest |})) /\
  (forall spine d',
      UnmarshalXML d start = Ok (spine, d') ->
      map kindOf (Spine.Items spine) = omap childKind kids) /\
  (forall pre name attr content post,
      kids = pre ++ xml.Element name attr content :: post ->
      tagKind (xml.Local name) = None ->
      UnmarshalXML d start =
      UnmarshalXML
        {| xml.open := start :: outer;
           xml.input := xml.tokens_all (pre ++ post) ++ xml.EndElement start :: rest |}
        start).
Proof.
  intros d. subst d. split; [apply UnmarshalXML_content |]. split.
  - intros spine d'. rewrite UnmarshalXML_content.
    destruct (traverse decodeChild (omap recognizedChild kids)) as [items | e] eqn:Et;
      [| discriminate].
    cbn [bind]. intros [= <- _]. cbn [Spine.Items].
    now apply traverse_decodeChild_kinds.
  - intros pre name attr content post -> Hk.
    rewrite !UnmarshalXML_content. rewrite recognizedChild_unknown; [reflexivity |].
    rewrite <- newItem_tagKind in Hk. now destruct (newItem (xml.Local name)).
Qed.

End SpineUnmarshalFacts.

(* ================================================================== *)
(** * Spine.UnmarshalXML with the struct decoding of encoding/xml *)
(* ================================================================== *)

(** encoding/xml's [unmarshal] of a struct value whose [XMLName] field has
    the tag [tag] (xml/read.go, "Validate and assign element name"): an
    element of another local name is refused before anything is assigned.
    [fields] is what follows the check, the assignment of the name, the
    attributes and the children to the fields by reflection over the
    struct tags: a library service, kept abstract. *)
Definition unmarshalStruct {T} (tag : string)
    (fields : T -> xml.Name -> list xml.Attr -> list xml.Node -> result T)
    : xml.Unmarshaler T :=
  fun v name attr content =>
    if negb (String.eqb tag "") && negb (String.eqb tag (xml.Local name))
    then Err (UnmarshalError
                ("expected element type <" +:+ tag +:+ "> but have <" +:+
                 xml.Local name +:+ ">"))
    else fields v name attr content.

(** The tag of the [XMLName] field of each item struct (the types file,
    lines 118, 135, 146, 167, 186, 196 and 248). *)
Definition structTag (kind : ItemKind) : string :=
  match kind with
  | KClip => "asset-clip"
  | KVideo => "video"
  | KAudio => "audio"
  | KGap => "gap"
  | KTitle => "title"
  | KTransition => "transition"
  | KRefClip => "ref-clip"
  end.

Lemma traverse_app {A B} (f : A -> result B) (l1 l2 : list A) :
  traverse f (l1 ++ l2) =
  (b1 <- traverse f l1 ;; b2 <- traverse f l2 ;; Ok (b1 ++ b2)).
Proof.
  induction l1 as [|a l1 IH]; cbn [app traverse bind].
  - now destruct (traverse f l2).
  - destruct (f a) as [b |]; cbn [bind]; [| reflexivity].
    rewrite IH. destruct (traverse f l1) as [b1 |]; cbn [bind]; [| reflexivity].
    now destruct (traverse f l2).
Qed.

Section SpineUnmarshalStructs.

(** The assignment of the fields of each item struct. *)
Variable fieldsClip : Clip.t -> xml.Name -> list xml.Attr -> list xml.Node -> result Clip.t.
Variable fieldsVideo : Video.t -> xml.Name -> list xml.Attr -> list xml.Node -> result Video.t.
Variable fieldsAudio : Audio.t -> xml.Name -> list xml.Attr -> list xml.Node -> result Audio.t.
Variable fieldsGap : Gap.t -> xml.Name -> list xml.Attr -> list xml.Node -> result Gap.t.
Variable fieldsTitle : Title.t -> xml.Name -> list xml.Attr -> list xml.Node -> result Title.t.
Variable fieldsTransition :
  Transition.t -> xml.Name -> list xml.Attr -> list xml.Node -> result Transition.t.
Variable fieldsRefClip :
  RefClip.t -> xml.Name -> list xml.Attr -> list xml.Node -> result RefClip.t.

#[local] Instance unmarshalClip : xml.Unmarshaler Clip.t :=
  unmarshalStruct (structTag KClip) fieldsClip.
#[local] Instance unmarshalVideo : xml.Unmarshaler Video.t :=
  unmarshalStruct (structTag KVideo) fieldsVideo.
#[local] Instance unmarshalAudio : xml.Unmarshaler Audio.t :=
  unmarshalStruct (structTag KAudio) fieldsAudio.
#[local] Instance unmarshalGap : xml.Unmarshaler Gap.t :=
  unmarshalStruct (structTag KGap) fieldsGap.
#[local] Instance unmarshalTitle : xml.Unmarshaler Title.t :=
  unmarshalStruct (structTag KTitle) fieldsTitle.
#[local] Instance unmarshalTransition : xml.Unmarshaler Transition.t :=
  unmarshalStruct (structTag KTransition) fieldsTransition.
#[local] Instance unmarshalRefClip : xml.Unmarshaler RefClip.t :=
  unmarshalStruct (structTag KRefClip) fieldsRefClip.

(** The assignment of the fields, at the dynamic type of the item. *)
Definition assignFields (item : Item) (name : xml.Name) (attr : list xml.Attr)
    (content : list xml.Node) : result Item :=
  match item with
  | ItemClip v => v' <- fieldsClip v name attr content ;; Ok (ItemClip v')
  | ItemVideo v => v' <- fieldsVideo v name attr content ;; Ok (ItemVideo v')
  | ItemAudio v => v' <- fieldsAudio v name attr content ;; Ok (ItemAudio v')
  | ItemGap v => v' <- fieldsGap v name attr content ;; Ok (ItemGap v')
  | ItemTitle v => v' <- fieldsTitle v name attr content ;; Ok (ItemTitle v')
  | ItemTransition v => v' <- fieldsTransition v name attr content ;; Ok (ItemTransition v')
  | ItemRefClip v => v' <- fieldsRefClip v name attr content ;; Ok (ItemRefClip v')
  end.

(** The error of encoding/xml on an element "clip" decoded into a [Clip]. *)
Definition clipRefused : error :=
  UnmarshalError "expected element type <asset-clip> but have <clip>".

(** An element with the local name "clip". *)
Definition clipElement (space : string) (attr : list xml.Attr) (content : list xml.Node)
    : xml.Node :=
  xml.Element {| xml.Space := space; xml.Local := "clip" |} attr content.

Lemma tag_accepted (local : string) (item : Item) (name : xml.Name)
    (attr : list xml.Attr) (content : list xml.Node) :
  newItem local = Some item -> local <> "clip" -> xml.Local name = local ->
  unmarshalItem item name attr content = assignFields item name attr content.
Proof.
  intros Hn Hc Hl. destruct name as [space local']. cbn in Hl. subst local'.
  unfold newItem in Hn.
  destruct (String.eqb_spec local "asset-clip") as [E | _];
    [subst local; injection Hn as <-; reflexivity |].
  destruct (String.eqb_spec local "clip") as [E | _]; [contradiction |].
  cbn [orb] in Hn. cbv iota in Hn.
  repeat match type of Hn with
         | (if String.eqb local ?t then _ else _) = _ =>
             destruct (String.eqb_spec local t) as [E | _];
             [subst local; injection Hn as <-; reflexivity | cbv iota in Hn]
         end.
  discriminate Hn.
Qed.

Lemma UnmarshalXML_clip (start : xml.Name) (pre post : list xml.Node) (space : string)
    (attr : list xml.Attr) (content : list xml.Node) (outer : list xml.Name)
    (rest : list xml.Token) :
  UnmarshalXML
    {| xml.open := start :: outer;
       xml.input := xml.tokens_all (pre ++ clipElement space attr content :: post) ++
                    xml.EndElement start :: rest |} start =
  (items <- traverse decodeChild (omap recognizedChild pre) ;; Err clipRefused).
Proof.
  rewrite UnmarshalXML_content, omap_app, traverse_app.
  destruct (traverse decodeChild (omap recognizedChild pre)) as [items |]; reflexivity.
Qed.

(** The spine [<spine><clip name="A" duration="48/24s"/></spine>], after
    its start tag. *)
Definition spineName : xml.Name := {| xml.Space := ""; xml.Local := "spine" |}.

Definition clipAttrs : list xml.Attr :=
  [{| xml.AttrName := {| xml.Space := ""; xml.Local := "name" |}; xml.Value := "A" |};
   {| xml.AttrName := {| xml.Space := ""; xml.Local := "duration" |};
      xml.Value := "48/24s" |}].

Definition spineWithClip : xml.Decoder :=
  {| xml.open := [spineName];
     xml.input := xml.tokens_all [clipElement "" clipAttrs []] ++
                  [xml.EndElement spineName] |}.

(** C5 fails on the code, on the tag "clip".  The switch of [UnmarshalXML]
    takes "clip" for a known tag and makes a [Clip] for it, but the
    [XMLName] field of [Clip] is tagged "asset-clip", so encoding/xml
    refuses to decode the element into it: a well-formed spine with a child
    "clip" gives no items and an error where the claim has a Clip item, in
    its place.  The error is that of the first known child that does not
    decode, the "clip" at the latest, whatever follows it.  The seven other
    known tag names are those of their structs and pass the check. *)
Theorem clip_child_not_decoded :
  newItem "clip" = Some (ItemClip Clip.zero) /\
  tagKind "clip" = Some KClip /\
  (forall start pre space attr content post outer rest,
      UnmarshalXML
        {| xml.open := start :: outer;
           xml.input := xml.tokens_all (pre ++ clipElement space attr content :: post) ++
                        xml.EndElement start :: rest |} start =
      (items <- traverse decodeChild (omap recognizedChild pre) ;; Err clipRefused)) /\
  (forall start pre space attr content post outer rest spine d',
      UnmarshalXML
        {| xml.open := start :: outer;
           xml.input := xml.tokens_all (pre ++ clipElement space attr content :: post) ++
                        xml.EndElement start :: rest |} start <> Ok (spine, d')) /\
  (forall local item name attr content,
      newItem local = Some item -> local <> "clip" -> xml.Local name = local ->
      unmarshalItem item name attr content = assignFields item name attr content) /\
  UnmarshalXML spineWithClip spineName = Err clipRefused.
Proof.
  split; [reflexivity |]. split; [reflexivity |]. split; [| split; [| split]].
  - intros. apply UnmarshalXML_clip.
  - intros start pre space attr content post outer rest spine d'.
    rewrite UnmarshalXML_clip.
    now destruct (traverse decodeChild (omap recognizedChild pre)).
  - apply tag_accepted.
  - apply (UnmarshalXML_clip spineName [] []).
Qed.

(** With the struct decoding of encoding/xml, a spine whose children have
    the tag names of the structs: a known child gives the item its fields
    are assigned to, in order, and a child with another tag gives
    nothing. *)
Lemma UnmarshalXML_struct_tags (start : xml.Name) (kids : list xml.Node)
    (outer : list xml.Name) (rest : list xml.Token) :
  Forall (fun kid => match kid with
                     | xml.Element name _ _ => xml.Local name <> "clip"
                     | _ => True
                     end) kids ->
  UnmarshalXML
    {| xml.open := start :: outer;
       xml.input := xml.tokens_all kids ++ xml.EndElement start :: rest |} start =
  (items <- traverse (fun c => let '(item, name, attr, content) := c in
                               assignFields item name attr content)
              (omap recognizedChild kids) ;;
   Ok ({| Spine.XMLName := start; Spine.Items := items |},
       {| xml.open := outer; xml.input := rest |})).
Proof.
  intros Hk. rewrite UnmarshalXML_content. f_equal.
  induction Hk as [|kid kids Hkid _ IH]; [reflexivity |].
  destruct kid as [name attr content | | | |]; cbn [omap list_omap recognizedChild];
    try exact IH.
  destruct (newItem (xml.Local name)) as [item |] eqn:En; [| exact IH].
  cbn [traverse decodeChild]. rewrite (tag_accepted _ _ _ attr content En Hkid eq_refl).
  now rewrite IH.
Qed.

End SpineUnmarshalStructs.

(* ================================================================== *)
(** * The decoder: project resolution *)
(* ================================================================== *)

(** The first of the positions that holds a project. *)
Fixpoint firstFound (positions : list (option Project.t)) : option Project.t :=
  match positions with
  | [] => None
  | Some p :: _ => Some p
  | None :: rest => firstFound rest
  end.

(** The four positions of a project in a document. *)
Definition rootProject (doc : FCPXML.t) : option Project.t := FCPXML.Project doc.

Definition libraryProject (doc : FCPXML.t) : option Project.t :=
  match FCPXML.Library doc with
  | Some library => head (Library.Projects library)
  | None => None
  end.

Definition libraryEventProject (doc : FCPXML.t) : option Project.t :=
  match FCPXML.Library doc with
  | Some library => firstEventProject (Library.Events library)
  | None => None
  end.

Definition rootEventProject (doc : FCPXML.t) : option Project.t :=
  match FCPXML.Event doc with
  | Some event => head (Event.Projects event)
  | None => None
  end.

(** The resolution as the claim has it: the four positions in order. *)
Definition claimedProject (doc : FCPXML.t) : option Project.t :=
  firstFound [rootProject doc; libraryProject doc; libraryEventProject doc;
              rootEventProject doc].

(** The root-level event counts only in a document without a library. *)
Definition rootEventProjectNoLibrary (doc : FCPXML.t) : option Project.t :=
  match FCPXML.Library doc with
  | Some _ => None
  | None => rootEventProject doc
  end.

Definition NoProjectFound : error := Errorf "no project found in FCPX XML".

Lemma findProject_positions (doc : FCPXML.t) :
  findProject doc =
  firstFound [rootProject doc; libraryProject doc; libraryEventProject doc;
              rootEventProjectNoLibrary doc].
Proof.
  unfold findProject, rootProject, libraryProject, libraryEventProject,
    rootEventProjectNoLibrary, rootEventProject.
  destruct (FCPXML.Project doc) as [p |]; [reflexivity |]. cbn [firstFound].
  destruct (FCPXML.Library doc) as [library |].
  - destruct (Library.Projects library) as [|p ps]; cbn [head firstFound]; [| reflexivity].
    now destruct (firstEventProject (Library.Events library)).
  - cbn [firstFound]. destruct (FCPXML.Event doc) as [event |]; [| reflexivity].
    now destruct (Event.Projects event).
Qed.

(* ================================================================== *)
(** * The decoder: the errors of a conversion *)
(* ================================================================== *)

(** An error of the decoder below project resolution: a time attribute
    that [parseRationalTime] refused, with the field it was read for. *)
Definition TimeError (e : error) : Prop :=
  exists field s cause,
    e = Wrapf field cause /\ parseRationalTime s = Err cause /\ MalformedDuration cause.

Lemma parseRationalTime_error (s : string) (e : error) :
  parseRationalTime s = Err e -> MalformedDuration e.
Proof.
  unfold parseRationalTime. destruct (String.eqb s ""); [discriminate |].
  destruct (Split (TrimSuffix s "s") "/") as [|a [|b [|c l]]];
    repeat match goal with
           | |- context [ParseFloat ?x] => destruct (ParseFloat x)
           end;
    try discriminate; intros [= <-]; eexists; eauto.
Qed.

Lemma wrap_parse_error (field s : string) (e : error) :
  wrap field (parseRationalTime s) = Err e -> TimeError e.
Proof.
  destruct (parseRationalTime s) as [v | cause] eqn:E; [discriminate |].
  intros [= <-]. exists field, s, cause. split; [reflexivity |]. split; [exact E |].
  now apply (parseRationalTime_error s).
Qed.

Lemma wrap_start_error (field s : string) (e : error) :
  (if negb (String.eqb s "") then wrap field (parseRationalTime s) else Ok zero) = Err e ->
  TimeError e.
Proof.
  destruct (negb (String.eqb s "")); [apply wrap_parse_error | discriminate].
Qed.

Lemma convertMarker_error (m : Marker.t) (e : error) :
  convertMarker m = Err e -> TimeError e.
Proof.
  unfold convertMarker.
  destruct (wrap "failed to parse marker start: " (parseRationalTime (Marker.Start m)))
    as [st | e1] eqn:E1; cbn [bind].
  - destruct (if negb (String.eqb (Marker.Duration m) "") then _ else _)
      as [du | e2] eqn:E2; cbn [bind]; [discriminate |].
    intros [= <-]. eapply wrap_start_error, E2.
  - intros [= <-]. eapply wrap_parse_error, E1.
Qed.

Lemma traverse_error {A B} (f : A -> result B) (P : error -> Prop) (l : list A) (e : error) :
  (forall a e, f a = Err e -> P e) -> traverse f l = Err e -> P e.
Proof.
  intros Hf. induction l as [|a l IH]; [discriminate |]. cbn [traverse].
  destruct (f a) as [b | e1] eqn:E1; cbn [bind].
  - destruct (traverse f l) as [bs | e2]; cbn [bind]; [discriminate |].
    intros [= <-]. now apply IH.
  - intros [= <-]. eapply Hf, E1.
Qed.

Lemma convertMarkers_error (ms : list Marker.t) (e : error) :
  traverse convertMarker ms = Err e -> TimeError e.
Proof. apply traverse_error, convertMarker_error. Qed.

(** Destructs the binds of a conversion from the outside in; the goal is
    [... = Err e -> TimeError e]. *)
Ltac time_errors :=
  repeat match goal with
         | |- bind ?c _ = Err _ -> _ =>
             let E := fresh "E" in
             destruct c eqn:E; cbn [bind];
             [| intros [= <-];
                first [ eapply wrap_parse_error; eassumption
                      | eapply wrap_start_error; eassumption
                      | eapply convertMarkers_error; eassumption ] ]
         end.

Lemma convertClip_error (c : Clip.t) vt at' (e : error) :
  convertClip c vt at' = Err e -> TimeError e.
Proof. unfold convertClip. time_errors. discriminate. Qed.

Lemma convertVideo_error (v : Video.t) vt (e : error) :
  convertVideo v vt = Err e -> TimeError e.
Proof. unfold convertVideo. time_errors. discriminate. Qed.

Lemma convertAudio_error (a : Audio.t) at' (e : error) :
  convertAudio a at' = Err e -> TimeError e.
Proof. unfold convertAudio. time_errors. discriminate. Qed.

Lemma convertGap_error (g : Gap.t) vt at' (e : error) :
  convertGap g vt at' = Err e -> TimeError e.
Proof. unfold convertGap. time_errors. discriminate. Qed.

Lemma convertRefClip_error (r : RefClip.t) vt at' (e : error) :
  convertRefClip r vt at' = Err e -> TimeError e.
Proof.
  unfold convertRefClip. time_errors.
  destruct (String.eqb (RefClip.SrcEnable r) "audio"); discriminate.
Qed.

Lemma convertSpineItem_error (item : Item) vt at' (e : error) :
  convertSpineItem item vt at' = Err e -> TimeError e.
Proof.
  destruct item; cbn [convertSpineItem]; try discriminate.
  - apply convertClip_error.
  - destruct (convertVideo v vt) eqn:E; cbn [bind]; [discriminate |].
    intros [= <-]. eapply convertVideo_error, E.
  - destruct (convertAudio v at') eqn:E; cbn [bind]; [discriminate |].
    intros [= <-]. eapply convertAudio_error, E.
  - apply convertGap_error.
  - apply convertRefClip_error.
Qed.

Lemma convertSpineItems_error (items : list Item) :
  forall vt at' e, convertSpineItems items vt at' = Err e -> TimeError e.
Proof.
  induction items as [|item items IH]; intros vt at' e; cbn [convertSpineItems];
    [discriminate |].
  destruct (convertSpineItem item vt at') as [[vt1 at1] | e1] eqn:E1.
  - apply IH.
  - intros [= <-]. eapply convertSpineItem_error, E1.
Qed.

Lemma convertSequenceToTracks_error (seq : Sequence.t) tl (e : error) :
  convertSequenceToTracks seq tl = Err e -> TimeError e.
Proof.
  unfold convertSequenceToTracks.
  destruct (Sequence.Spine seq) as [spine |]; [| discriminate].
  destruct (convertSpineItems _ _ _) as [[vt at'] | e1] eqn:E1; [discriminate |].
  intros [= <-]. eapply convertSpineItems_error, E1.
Qed.

Lemma TimeError_not_NoProjectFound : ~ TimeError NoProjectFound.
Proof. intros (field & s & cause & E & _). discriminate E. Qed.

Lemma timeline_AppendTrack_name tl t :
  gotio.timeline_name (timeline_AppendTrack tl t) = gotio.timeline_name tl.
Proof. reflexivity. Qed.

Lemma convertSequenceToTracks_name (seq : Sequence.t) tl tl' :
  convertSequenceToTracks seq tl = Ok tl' ->
  gotio.timeline_name tl' = gotio.timeline_name tl.
Proof.
  unfold convertSequenceToTracks.
  destruct (Sequence.Spine seq) as [spine |]; [| now intros [= <-]].
  destruct (convertSpineItems _ _ _) as [[vt at'] | e1]; [| discriminate].
  intros [= <-].
  destruct (Nat.ltb 0 (length (gotio.track_children vt)));
    destruct (Nat.ltb 0 (length (gotio.track_children at'))); reflexivity.
Qed.

Lemma convertToTimeline_NoProjectFound (doc : FCPXML.t) :
  convertToTimeline doc = Err NoProjectFound <-> findProject doc = None.
Proof.
  unfold convertToTimeline. destruct (findProject doc) as [p |]; split;
    try reflexivity; try discriminate.
  destruct (Project.Sequence p) as [seq |]; [| discriminate].
  intros E. apply convertSequenceToTracks_error in E.
  now apply TimeError_not_NoProjectFound in E.
Qed.

(** C1 (amended): the project decode converts is the first found among the
    document-root project, the library's first direct project, the first
    project of the first library event that has one, and, in a document
    without a library, the first project of the root-level event.  Decode
    fails with NoProjectFound exactly when these yield nothing, and a
    timeline it returns has the name of that project. *)
Theorem findProject_precedence (doc : FCPXML.t) :
  findProject doc =
    firstFound [rootProject doc; libraryProject doc; libraryEventProject doc;
                rootEventProjectNoLibrary doc] /\
  (convertToTimeline doc = Err NoProjectFound <->
   rootProject doc = None /\ libraryProject doc = None /\
   libraryEventProject doc = None /\ rootEventProjectNoLibrary doc = None) /\
  (forall project timeline,
      findProject doc = Some project -> convertToTimeline doc = Ok timeline ->
      gotio.timeline_name timeline = Project.Name project).
Proof.
  split; [apply findProject_positions |]. split.
  - rewrite convertToTimeline_NoProjectFound, findProject_positions.
    destruct (rootProject doc), (libraryProject doc), (libraryEventProject doc),
      (rootEventProjectNoLibrary doc); cbn [firstFound]; intuition congruence.
  - intros project timeline Hp. unfold convertToTimeline. rewrite Hp.
    destruct (Project.Sequence project) as [seq |].
    + intros E. now apply convertSequenceToTracks_name in E.
    + now intros [= <-].
Qed.

Definition sampleProject (name : string) (seq : option Sequence.t) : Project.t :=
  {| Project.XMLName := Name0; Project.Name := name; Project.UID := "";
     Project.ModDate := ""; Project.Sequence := seq |}.

(** A document with a library that holds nothing, and a root-level event
    with a project. *)
Definition emptyLibraryDocument : FCPXML.t :=
  {| FCPXML.XMLName := Name0; FCPXML.Version := "1.9";
     FCPXML.Library :=
       Some {| Library.XMLName := Name0; Library.Location := "";
               Library.Events := []; Library.Projects := [] |};
     FCPXML.Event :=
       Some {| Event.XMLName := Name0; Event.Name := "Event"; Event.UID := "";
               Event.Projects := [sampleProject "In Event" None];
               Event.Clips := []; Event.RefClips := [] |};
     FCPXML.Project := None |}.

(** C1 as stated fails: with a library that holds no project anywhere, the
    project of the root-level event is not found, and decode fails with
    NoProjectFound though the fourth position yields a project. *)
Lemma root_event_ignored_under_library :
  claimedProject emptyLibraryDocument = Some (sampleProject "In Event" None) /\
  findProject emptyLibraryDocument = None /\
  convertToTimeline emptyLibraryDocument = Err NoProjectFound.
Proof. repeat split. Qed.

(* ================================================================== *)
(** * The decoder: tracks *)
(* ================================================================== *)

Lemma track_AppendChild_name t c :
  gotio.track_name (gotio.track_AppendChild t c) = gotio.track_name t.
Proof. now destruct t. Qed.

Lemma track_AppendChild_kind t c :
  gotio.track_kind (gotio.track_AppendChild t c) = gotio.track_kind t.
Proof. now destruct t. Qed.

Lemma track_AppendChild_children t c :
  gotio.track_children (gotio.track_AppendChild t c) = gotio.track_children t ++ [c].
Proof. now destruct t. Qed.

(** Two tracks with the same name and kind: what a conversion keeps of the
    tracks it appends to. *)
Definition sameTrack (t t' : gotio.Track) : Prop :=
  gotio.track_name t' = gotio.track_name t /\ gotio.track_kind t' = gotio.track_kind t.

Lemma sameTrack_refl t : sameTrack t t.
Proof. now split. Qed.

Lemma sameTrack_append t c : sameTrack t (gotio.track_AppendChild t c).
Proof. split; [apply track_AppendChild_name | apply track_AppendChild_kind]. Qed.

Lemma sameTrack_trans t1 t2 t3 : sameTrack t1 t2 -> sameTrack t2 t3 -> sameTrack t1 t3.
Proof. intros [H1 H2] [H3 H4]. split; congruence. Qed.

Create HintDb tracks.
#[local] Hint Resolve sameTrack_refl sameTrack_append : tracks.

Ltac conversion_ok :=
  repeat match goal with
         | |- bind ?c _ = Ok _ -> _ => destruct c; cbn [bind]; [| discriminate]
         | |- context [if ?b then _ else _] => destruct b
         end.

Lemma convertVideo_sameTrack (v : Video.t) vt vt1 :
  convertVideo v vt = Ok vt1 -> sameTrack vt vt1.
Proof. unfold convertVideo. conversion_ok; intros [= <-]; auto with tracks. Qed.

Lemma convertAudio_sameTrack (a : Audio.t) at' at1 :
  convertAudio a at' = Ok at1 -> sameTrack at' at1.
Proof. unfold convertAudio. conversion_ok; intros [= <-]; auto with tracks. Qed.

Lemma convertSpineItem_sameTrack (item : Item) vt at' vt1 at1 :
  convertSpineItem item vt at' = Ok (vt1, at1) -> sameTrack vt vt1 /\ sameTrack at' at1.
Proof.
  destruct item; cbn [convertSpineItem].
  - unfold convertClip. conversion_ok; intros [= <- <-]; auto with tracks.
  - destruct (convertVideo v vt) as [vt' |] eqn:E; cbn [bind]; [| discriminate].
    intros [= <- <-]. split; [eapply convertVideo_sameTrack, E | apply sameTrack_refl].
  - destruct (convertAudio v at') as [at2 |] eqn:E; cbn [bind]; [| discriminate].
    intros [= <- <-]. split; [apply sameTrack_refl | eapply convertAudio_sameTrack, E].
  - unfold convertGap. conversion_ok; intros [= <- <-]; auto with tracks.
  - intros [= <- <-]; auto with tracks.
  - intros [= <- <-]; auto with tracks.
  - unfold convertRefClip. conversion_ok; intros [= <- <-]; auto with tracks.
Qed.

Lemma convertSpineItems_sameTrack (items : list Item) :
  forall vt at' vt1 at1,
    convertSpineItems items vt at' = Ok (vt1, at1) -> sameTrack vt vt1 /\ sameTrack at' at1.
Proof.
  induction items as [|item items IH]; intros vt at' vt1 at1; cbn [convertSpineItems].
  - intros [= <- <-]. split; apply sameTrack_refl.
  - destruct (convertSpineItem item vt at') as [[v a] | e] eqn:E; [| discriminate].
    intros Hr. apply convertSpineItem_sameTrack in E as [E1 E2].
    apply IH in Hr as [H1 H2]. split; eapply sameTrack_trans; eauto.
Qed.

Lemma convertSpineItems_app (l1 l2 : list Item) :
  forall vt at',
    convertSpineItems (l1 ++ l2) vt at' =
    match convertSpineItems l1 vt at' with
    | Ok (vt1, at1) => convertSpineItems l2 vt1 at1
    | Err e => Err e
    end.
Proof.
  induction l1 as [|item l1 IH]; intros vt at'; cbn [app convertSpineItems];
    [reflexivity |].
  destruct (convertSpineItem item vt at') as [[v a] | e]; [apply IH | reflexivity].
Qed.

(** The entry of the root stack a track gives: the track when it has a
    child, nothing otherwise. *)
Definition nonEmptyTrack (t : gotio.Track) : list gotio.Composable :=
  if Nat.ltb 0 (length (gotio.track_children t)) then [gotio.TrackItem t] else [].

Definition videoTrack0 : gotio.Track := gotio.NewTrack "Video 1" gotio.TrackKindVideo.
Definition audioTrack0 : gotio.Track := gotio.NewTrack "Audio 1" gotio.TrackKindAudio.

Definition isTrackOfKind (kind : string) (c : gotio.Composable) : bool :=
  match c with
  | gotio.TrackItem t => String.eqb (gotio.track_kind t) kind
  | _ => false
  end.

Definition isNonEmptyTrack (c : gotio.Composable) : Prop :=
  exists t, c = gotio.TrackItem t /\ gotio.track_children t <> [].

Lemma convertSequenceToTracks_spine (seq : Sequence.t) (spine : Spine.t) (name : string) tl :
  Sequence.Spine seq = Some spine ->
  convertSequenceToTracks seq (gotio.NewTimeline name) = Ok tl ->
  exists vt at',
    convertSpineItems (Spine.Items spine) videoTrack0 audioTrack0 = Ok (vt, at') /\
    tl = {| gotio.timeline_name := name;
            gotio.tracks :=
              Some (gotio.mkStack "tracks" None [] ∅ (nonEmptyTrack vt ++ nonEmptyTrack at')) |}.
Proof.
  intros Hs. unfold convertSequenceToTracks. rewrite Hs.
  fold videoTrack0 audioTrack0.
  destruct (convertSpineItems (Spine.Items spine) videoTrack0 audioTrack0)
    as [[vt at'] | e]; [| discriminate].
  intros [= <-]. exists vt, at'. split; [reflexivity |]. unfold nonEmptyTrack.
  destruct (Nat.ltb 0 (length (gotio.track_children vt)));
    destruct (Nat.ltb 0 (length (gotio.track_children at'))); reflexivity.
Qed.

Lemma nonEmptyTrack_nonEmpty (t : gotio.Track) : Forall isNonEmptyTrack (nonEmptyTrack t).
Proof.
  unfold nonEmptyTrack. destruct (Nat.ltb_spec 0 (length (gotio.track_children t))) as [Hl | _];
    constructor; [| constructor].
  exists t. split; [reflexivity |]. intros E. rewrite E in Hl. cbn in Hl. lia.
Qed.

Lemma nonEmptyTrack_count (kind : string) (t : gotio.Track) :
  (length (List.filter (isTrackOfKind kind) (nonEmptyTrack t)) <=
   if String.eqb (gotio.track_kind t) kind then 1 else 0)%nat.
Proof.
  unfold nonEmptyTrack. destruct (Nat.ltb 0 (length (gotio.track_children t))); cbn.
  - destruct (String.eqb (gotio.track_kind t) kind); cbn; lia.
  - destruct (String.eqb (gotio.track_kind t) kind); lia.
Qed.

(** What decode makes of the tracks: [videoTrack] and [audioTrack] are the
    tracks "Video 1" and "Audio 1" the spine was converted into, and the
    root stack holds each of them if and only if it has a child, the video
    track first, and nothing else. *)
Definition DecodedTracks (doc : FCPXML.t) (timeline : gotio.Timeline) : Prop :=
  exists root videoTrack audioTrack,
    gotio.tracks timeline = Some root /\
    gotio.track_name videoTrack = "Video 1" /\
    gotio.track_kind videoTrack = gotio.TrackKindVideo /\
    gotio.track_name audioTrack = "Audio 1" /\
    gotio.track_kind audioTrack = gotio.TrackKindAudio /\
    (forall project seq spine,
        findProject doc = Some project -> Project.Sequence project = Some seq ->
        Sequence.Spine seq = Some spine ->
        convertSpineItems (Spine.Items spine)
          (gotio.NewTrack "Video 1" gotio.TrackKindVideo)
          (gotio.NewTrack "Audio 1" gotio.TrackKindAudio) = Ok (videoTrack, audioTrack)) /\
    gotio.stack_children root = nonEmptyTrack videoTrack ++ nonEmptyTrack audioTrack /\
    Forall isNonEmptyTrack (gotio.stack_children root) /\
    (length (List.filter (isTrackOfKind gotio.TrackKindVideo) (gotio.stack_children root)) <= 1)%nat /\
    (length (List.filter (isTrackOfKind gotio.TrackKindAudio) (gotio.stack_children root)) <= 1)%nat.

(** C6: the root stack of a decoded timeline holds the video track "Video 1"
    if and only if it has a child, then the audio track "Audio 1" if and
    only if it has a child, and nothing else: every track in it has a
    child, and there is at most one track of each kind. *)
Theorem decode_tracks (doc : FCPXML.t) (timeline : gotio.Timeline) :
  convertToTimeline doc = Ok timeline -> DecodedTracks doc timeline.
Proof.
  unfold DecodedTracks, convertToTimeline.
  destruct (findProject doc) as [p |] eqn:Hp; [| discriminate].
  assert (Hempty : forall tl, Ok (gotio.NewTimeline (Project.Name p)) = Ok tl ->
            (Project.Sequence p = None \/
             exists seq, Project.Sequence p = Some seq /\ Sequence.Spine seq = None) ->
            exists root vt at', gotio.tracks tl = Some root /\
              gotio.track_name vt = "Video 1" /\ gotio.track_kind vt = gotio.TrackKindVideo /\
              gotio.track_name at' = "Audio 1" /\ gotio.track_kind at' = gotio.TrackKindAudio /\
              (forall project seq spine,
                  Some p = Some project -> Project.Sequence project = Some seq ->
                  Sequence.Spine seq = Some spine ->
                  convertSpineItems (Spine.Items spine) videoTrack0 audioTrack0 = Ok (vt, at')) /\
              gotio.stack_children root = nonEmptyTrack vt ++ nonEmptyTrack at' /\
              Forall isNonEmptyTrack (gotio.stack_children root) /\
              (length (List.filter (isTrackOfKind gotio.TrackKindVideo)
                         (gotio.stack_children root)) <= 1)%nat /\
              (length (List.filter (isTrackOfKind gotio.TrackKindAudio)
                         (gotio.stack_children root)) <= 1)%nat).
  { intros tl [= <-] Hno. eexists _, videoTrack0, audioTrack0.
    split; [reflexivity |]. repeat (split; [reflexivity |]).
    split; [| split; [reflexivity | split; [constructor | split; cbn; lia]]].
    intros project seq spine [= <-] Hseq Hspine.
    destruct Hno as [Hno | (seq' & Hs1 & Hs2)].
    - rewrite Hno in Hseq. discriminate Hseq.
    - rewrite Hs1 in Hseq. injection Hseq as <-. rewrite Hs2 in Hspine.
      discriminate Hspine. }
  destruct (Project.Sequence p) as [seq |] eqn:Hseq; [| intros E; apply (Hempty _ E); auto].
  destruct (Sequence.Spine seq) as [spine |] eqn:Hspine.
  - intros E. destruct (convertSequenceToTracks_spine _ _ _ _ Hspine E) as (vt & at' & Hc & ->).
    destruct (convertSpineItems_sameTrack _ _ _ _ _ Hc) as [[Hv1 Hv2] [Ha1 Ha2]].
    eexists _, vt, at'. split; [reflexivity |].
    split; [exact Hv1 |]. split; [exact Hv2 |]. split; [exact Ha1 |]. split; [exact Ha2 |].
    split; [| split; [reflexivity |]].
    + intros project seq' spine' [= <-] Hseq' Hspine'.
      rewrite Hseq in Hseq'. injection Hseq' as <-.
      rewrite Hspine in Hspine'. injection Hspine' as <-. exact Hc.
    + cbn [gotio.stack_children]. split; [| split].
      * apply Forall_app. split; apply nonEmptyTrack_nonEmpty.
      * rewrite List.filter_app, length_app.
        pose proof (nonEmptyTrack_count gotio.TrackKindVideo vt) as Cv.
        pose proof (nonEmptyTrack_count gotio.TrackKindVideo at') as Ca.
        rewrite Hv2 in Cv. rewrite Ha2 in Ca. cbn in Cv, Ca. lia.
      * rewrite List.filter_app, length_app.
        pose proof (nonEmptyTrack_count gotio.TrackKindAudio vt) as Cv.
        pose proof (nonEmptyTrack_count gotio.TrackKindAudio at') as Ca.
        rewrite Hv2 in Cv. rewrite Ha2 in Ca. cbn in Cv, Ca. lia.
  - unfold convertSequenceToTracks. rewrite Hspine. intros E. apply (Hempty _ E).
    right. now exists seq.
Qed.

(** The document of TestDecoder_SimpleProject: a video, a gap, a video. *)
Definition sampleVideo (name duration start : string) : Video.t :=
  {| Video.XMLName := Name0; Video.Name := name; Video.Ref := ""; Video.Offset := "";
     Video.Start := start; Video.Duration := duration; Video.Markers := [] |}.

Definition sampleGap : Gap.t :=
  {| Gap.XMLName := Name0; Gap.Name := "Gap"; Gap.Offset := "1200/24s";
     Gap.Start := "3600/24s"; Gap.Duration := "600/24s" |}.

Definition sampleSequence (items : list Item) : Sequence.t :=
  {| Sequence.XMLName := Name0; Sequence.Format := "r1"; Sequence.Duration := "3600/24s";
     Sequence.TCStart := ""; Sequence.TCFormat := ""; Sequence.AudioLayout := "";
     Sequence.AudioRate := "";
     Sequence.Spine := Some {| Spine.XMLName := Name0; Spine.Items := items |} |}.

Definition sampleDocument (project : Project.t) : FCPXML.t :=
  {| FCPXML.XMLName := Name0; FCPXML.Version := "1.9"; FCPXML.Library := None;
     FCPXML.Event := None; FCPXML.Project := Some project |}.

Definition simpleProject : FCPXML.t :=
  sampleDocument
    (sampleProject "Test Project"
       (Some (sampleSequence
                [ItemVideo (sampleVideo "Clip 1" "1200/24s" "0/24s");
                 ItemGap sampleGap;
                 ItemVideo (sampleVideo "Clip 2" "1800/24s" "0/24s")]))).

Definition rt (value rate : Z) : RationalTime :=
  NewRationalTime (float64_of_Z value) (float64_of_Z rate).

Definition sampleClip (name : string) (start duration : RationalTime) : gotio.Composable :=
  gotio.ClipItem (gotio.NewClip name emptyReference (Some (NewTimeRange start duration)) []).

Definition sampleGapItem : gotio.Composable :=
  gotio.GapItem (gotio.NewGap "Gap" (Some (NewTimeRange zero (rt 600 24)))).

Definition simpleTimeline : gotio.Timeline :=
  {| gotio.timeline_name := "Test Project";
     gotio.tracks :=
       Some (gotio.mkStack "tracks" None [] ∅
               [gotio.TrackItem
                  (gotio.mkTrack "Video 1" None gotio.TrackKindVideo
                     [sampleClip "Clip 1" (rt 0 24) (rt 1200 24); sampleGapItem;
                      sampleClip "Clip 2" (rt 0 24) (rt 1800 24)]);
                gotio.TrackItem
                  (gotio.mkTrack "Audio 1" None gotio.TrackKindAudio [sampleGapItem])]) |}.

(** Decoding a video, a gap and a video gives a video track of three
    children and an audio track that holds the gap. *)
Lemma simpleProject_decodes : convertToTimeline simpleProject = Ok simpleTimeline.
Proof. vm_compute. reflexivity. Qed.

Lemma decode_tracks_witness :
  convertToTimeline simpleProject = Ok simpleTimeline /\
  DecodedTracks simpleProject simpleTimeline.
Proof.
  split; [vm_compute; reflexivity |].
  apply (decode_tracks simpleProject simpleTimeline). vm_compute. reflexivity.
Defined.

(* ================================================================== *)
(** * The decoder: gaps, ref-clips, titles *)
(* ================================================================== *)

(** The gap of the timeline a gap of the spine becomes. *)
Definition gapItem (name : string) (duration : RationalTime) : gotio.Composable :=
  gotio.GapItem (gotio.NewGap name (Some (NewTimeRange zero duration))).

Lemma convertGap_ok (gap : Gap.t) (d : RationalTime) vt at' :
  parseRationalTime (Gap.Duration gap) = Ok d ->
  convertGap gap vt at' =
  Ok (gotio.track_AppendChild vt (gapItem (Gap.Name gap) d),
      gotio.track_AppendChild at' (gapItem (Gap.Name gap) d)).
Proof. intros Hd. unfold convertGap. now rewrite Hd. Qed.

(** C7: a gap of the spine whose duration parses to [d] puts, on the video
    track and on the audio track as the items before it left them, a gap
    with its name, the duration [d] and a source range that starts at the
    zero time value; its offset and start are not read. *)
Theorem gap_on_both_tracks (pre post : list Item) (gap : Gap.t)
    (videoTrack audioTrack videoTrack' audioTrack' : gotio.Track) (d : RationalTime) :
  convertSpineItems pre videoTrack audioTrack = Ok (videoTrack', audioTrack') ->
  parseRationalTime (Gap.Duration gap) = Ok d ->
  convertSpineItems (pre ++ ItemGap gap :: post) videoTrack audioTrack =
    convertSpineItems post
      (gotio.track_AppendChild videoTrack'
         (gotio.GapItem (gotio.NewGap (Gap.Name gap) (Some (NewTimeRange zero d)))))
      (gotio.track_AppendChild audioTrack'
         (gotio.GapItem (gotio.NewGap (Gap.Name gap) (Some (NewTimeRange zero d))))) /\
  (forall offset start,
      convertGap {| Gap.XMLName := Gap.XMLName gap; Gap.Name := Gap.Name gap;
                    Gap.Offset := offset; Gap.Start := start;
                    Gap.Duration := Gap.Duration gap |} videoTrack' audioTrack' =
      convertGap gap videoTrack' audioTrack').
Proof.
  intros Hpre Hd. split.
  - rewrite convertSpineItems_app, Hpre. cbn [convertSpineItems convertSpineItem].
    now rewrite (convertGap_ok _ _ _ _ Hd).
  - intros offset start. reflexivity.
Qed.

Lemma gap_on_both_tracks_witness :
  convertSpineItems [ItemGap sampleGap] videoTrack0 audioTrack0 =
  Ok (gotio.track_AppendChild videoTrack0 sampleGapItem,
      gotio.track_AppendChild audioTrack0 sampleGapItem).
Proof.
  apply (gap_on_both_tracks [] [] sampleGap videoTrack0 audioTrack0 videoTrack0 audioTrack0
           (rt 600 24)); [reflexivity | vm_compute; reflexivity].
Defined.

Lemma refClipMetadata_ref (r : RefClip.t) :
  refClipMetadata r !! "fcpx_ref" = Some (gotio.AnyString (RefClip.Ref r)).
Proof.
  unfold refClipMetadata. destruct (negb (String.eqb (RefClip.SrcEnable r) "")).
  - rewrite lookup_insert_ne by discriminate. apply lookup_singleton_eq.
  - apply lookup_singleton_eq.
Qed.

Lemma refClipMetadata_src_enable (r : RefClip.t) :
  refClipMetadata r !! "fcpx_src_enable" =
  if String.eqb (RefClip.SrcEnable r) "" then None
  else Some (gotio.AnyString (RefClip.SrcEnable r)).
Proof.
  unfold refClipMetadata. destruct (String.eqb (RefClip.SrcEnable r) ""); cbn [negb].
  - apply lookup_singleton_ne. discriminate.
  - apply lookup_insert_eq.
Qed.

Lemma refClipMetadata_other (r : RefClip.t) (key : string) :
  key <> "fcpx_ref" -> key <> "fcpx_src_enable" -> refClipMetadata r !! key = None.
Proof.
  intros H1 H2. unfold refClipMetadata.
  destruct (negb (String.eqb (RefClip.SrcEnable r) "")).
  - rewrite lookup_insert_ne by congruence. apply lookup_singleton_ne. congruence.
  - apply lookup_singleton_ne. congruence.
Qed.

Lemma parse_start (s : string) (t : RationalTime) (field : string) :
  parseRationalTime s = Ok t ->
  (if negb (String.eqb s "") then wrap field (parseRationalTime s) else Ok zero) = Ok t.
Proof.
  intros Hs. destruct (String.eqb_spec s "") as [-> | _]; cbn [negb].
  - exact Hs.
  - now rewrite Hs.
Qed.

(** The stack of the timeline a ref-clip of the spine becomes. *)
Definition refClipStack (r : RefClip.t) (start duration : RationalTime)
    (markers : list gotio.Marker) : gotio.Stack :=
  gotio.mkStack (RefClip.Name r) (Some (NewTimeRange start duration)) markers
    (refClipMetadata r) [].

(** C8: a ref-clip of the spine whose duration, start and markers convert
    becomes a stack with the ref-clip's name, source range and markers,
    whose metadata holds the reference id under "fcpx_ref", the srcEnable
    text under "fcpx_src_enable" when it is not empty, and nothing else;
    the stack goes last on the audio track when srcEnable is "audio", and
    last on the video track otherwise. *)
Theorem refclip_to_stack (pre post : list Item) (refClip : RefClip.t)
    (videoTrack audioTrack videoTrack' audioTrack' : gotio.Track)
    (start duration : RationalTime) (markers : list gotio.Marker) :
  convertSpineItems pre videoTrack audioTrack = Ok (videoTrack', audioTrack') ->
  parseRationalTime (RefClip.Duration refClip) = Ok duration ->
  parseRationalTime (RefClip.Start refClip) = Ok start ->
  traverse convertMarker (RefClip.Markers refClip) = Ok markers ->
  exists stack,
    gotio.stack_name stack = RefClip.Name refClip /\
    gotio.stack_source_range stack = Some (NewTimeRange start duration) /\
    gotio.stack_markers stack = markers /\
    gotio.stack_children stack = [] /\
    gotio.stack_metadata stack !! "fcpx_ref" = Some (gotio.AnyString (RefClip.Ref refClip)) /\
    gotio.stack_metadata stack !! "fcpx_src_enable" =
      (if String.eqb (RefClip.SrcEnable refClip) "" then None
       else Some (gotio.AnyString (RefClip.SrcEnable refClip))) /\
    (forall key, key <> "fcpx_ref" -> key <> "fcpx_src_enable" ->
                 gotio.stack_metadata stack !! key = None) /\
    convertSpineItems (pre ++ ItemRefClip refClip :: post) videoTrack audioTrack =
      if String.eqb (RefClip.SrcEnable refClip) "audio"
      then convertSpineItems post videoTrack'
             (gotio.track_AppendChild audioTrack' (gotio.StackItem stack))
      else convertSpineItems post
             (gotio.track_AppendChild videoTrack' (gotio.StackItem stack)) audioTrack'.
Proof.
  intros Hpre Hd Hs Hm. exists (refClipStack refClip start duration markers).
  split; [reflexivity |]. split; [reflexivity |]. split; [reflexivity |].
  split; [reflexivity |]. split; [apply refClipMetadata_ref |].
  split; [apply refClipMetadata_src_enable |].
  split; [apply refClipMetadata_other |].
  rewrite convertSpineItems_app, Hpre. cbn [convertSpineItems convertSpineItem].
  unfold convertRefClip. rewrite Hd. cbn [wrap bind].
  rewrite (parse_start _ _ _ Hs). cbn [bind]. rewrite Hm. cbn [bind].
  destruct (String.eqb (RefClip.SrcEnable refClip) "audio"); reflexivity.
Qed.

Definition sampleRefClip (srcEnable : string) : RefClip.t :=
  {| RefClip.XMLName := Name0; RefClip.Name := "compound_clip_1"; RefClip.Ref := "r1";
     RefClip.Offset := "0s"; RefClip.Start := ""; RefClip.Duration := "80s";
     RefClip.SrcEnable := srcEnable; RefClip.UseAudioSubroles := false;
     RefClip.Markers :=
       [{| Marker.XMLName := Name0; Marker.Start := "6s"; Marker.Duration := "100/3000s";
           Marker.Value := "Marker 1"; Marker.Note := ""; Marker.Completed := false |}] |}.

Definition sampleMarker : gotio.Marker :=
  gotio.NewMarker "Marker 1" (NewTimeRange (rt 6 24) (rt 100 3000)) gotio.MarkerColorGreen "".

Lemma refclip_to_stack_witness :
  exists stack,
    gotio.stack_name stack = "compound_clip_1" /\
    gotio.stack_source_range stack = Some (NewTimeRange zero (rt 80 24)) /\
    gotio.stack_markers stack = [sampleMarker] /\
    gotio.stack_children stack = [] /\
    gotio.stack_metadata stack !! "fcpx_ref" = Some (gotio.AnyString "r1") /\
    gotio.stack_metadata stack !! "fcpx_src_enable" = Some (gotio.AnyString "audio") /\
    (forall key, key <> "fcpx_ref" -> key <> "fcpx_src_enable" ->
                 gotio.stack_metadata stack !! key = None) /\
    convertSpineItems [ItemRefClip (sampleRefClip "audio")] videoTrack0 audioTrack0 =
      Ok (videoTrack0, gotio.track_AppendChild audioTrack0 (gotio.StackItem stack)).
Proof.
  apply (refclip_to_stack [] [] (sampleRefClip "audio") videoTrack0 audioTrack0
           videoTrack0 audioTrack0 zero (rt 80 24) [sampleMarker]);
    [reflexivity | vm_compute; reflexivity | reflexivity | vm_compute; reflexivity].
Defined.




(* ================================================================== *)
(** * The decoder: a project without a spine, and the errors of decode *)
(* ================================================================== *)




(* ================================================================== *)
(** * The encoder: the audio item at the same index *)
(* ================================================================== *)

Definition isClip (item : Item) : bool :=
  match item with ItemClip _ => true | _ => false end.

(** [convertItem] returns a Video or an Audio for a clip, a Gap for a gap, a
    RefClip for a stack: never a Clip. *)
Lemma convertItem_not_Clip (item : gotio.Composable) (isVideo : bool) (fcpItem : Item) :
  convertItem item isVideo = Ok fcpItem -> isClip fcpItem = false.
Proof.
  destruct item as [c | g | s | t]; cbn [convertItem];
    unfold convertClipToFCPX, convertGapToFCPX, convertStackToRefClip;
    repeat match goal with
           | |- bind ?c _ = Ok _ -> _ => destruct c; cbn [bind]; [| discriminate]
           | |- (if ?b then _ else _) = Ok _ -> _ => destruct b
           end;
    try discriminate; now intros [= <-].
Qed.

(** The audio item at the index of a video item changes nothing of the
    spine entry. *)
Lemma convertVideoItem_audio_unused (audioItems : list gotio.Composable) (i : nat)
    (item : gotio.Composable) :
  convertVideoItem audioItems i item = convertItem item true.
Proof.
  unfold convertVideoItem.
  destruct (convertItem item true) as [fcpItem | e] eqn:E; cbn [bind]; [| reflexivity].
  apply convertItem_not_Clip in E.
  destruct (audioItems !! i) as [[c | g | s | t] |]; try reflexivity.
  destruct fcpItem; try reflexivity. discriminate E.
Qed.

Lemma convertVideoItems_audio_unused (audioItems : list gotio.Composable)
    (videoItems : list gotio.Composable) :
  forall i,
    convertVideoItems audioItems i videoItems =
    traverse (fun item => convertItem item true) videoItems.
Proof.
  induction videoItems as [|item videoItems IH]; intros i; [reflexivity |].
  cbn [convertVideoItems traverse]. now rewrite convertVideoItem_audio_unused, IH.
Qed.

(** The sequence the encoder returns for the spine items [items]. *)
Definition sampleSequenceOf (items : list Item) : Sequence.t :=
  {| Sequence.XMLName := Name0; Sequence.Format := "r1"; Sequence.Duration := "";
     Sequence.TCStart := ""; Sequence.TCFormat := ""; Sequence.AudioLayout := "";
     Sequence.AudioRate := "";
     Sequence.Spine := Some {| Spine.XMLName := Name0; Spine.Items := items |} |}.

(** A timeline of one video clip "V" and, beside it, one audio clip "A". *)
Definition videoAndAudio : gotio.Stack :=
  gotio.mkStack "tracks" None [] ∅
    [gotio.TrackItem
       (gotio.mkTrack "Video 1" None gotio.TrackKindVideo
          [sampleClip "V" (rt 0 24) (rt 48 24)]);
     gotio.TrackItem
       (gotio.mkTrack "Audio 1" None gotio.TrackKindAudio
          [sampleClip "A" (rt 0 24) (rt 48 24)])].

(** C2 fails on the code: the audio clip at the index of a video clip is not
    folded into the spine entry, which is a Video and has no audio field,
    and it is not emitted either.  The entry of a video item is what
    [convertItem] makes of it, whatever the audio items are; for the video
    clip "V" beside the audio clip "A" the spine is the Video "V" alone. *)
Theorem audio_clip_not_folded :
  (forall audioItems i item,
      convertVideoItem audioItems i item = convertItem item true) /\
  (forall stack,
      convertTracksToSequence (Some stack) =
      (items <- traverse (fun item => convertItem item true)
                  (itemsOfKind gotio.TrackKindVideo (gotio.stack_children stack)) ;;
       Ok (sampleSequenceOf items))) /\
  convertTracksToSequence (Some videoAndAudio) =
    Ok (sampleSequenceOf [ItemVideo (sampleVideo "V" "48/24s" "0/24s")]).
Proof.
  split; [apply convertVideoItem_audio_unused |]. split.
  - intros stack. unfold convertTracksToSequence.
    now rewrite convertVideoItems_audio_unused.
  - vm_compute. reflexivity.
Qed.

(* ================================================================== *)
(** * The rational time codec: every float64, and every integer text *)
(* ================================================================== *)

(** The values of the type float64 among those of [spec_float]: a finite
    one has a mantissa of at most 53 bits at a canonical exponent. *)
Definition is_float64 (f : float64) : bool := valid_binary prec emax f.

Lemma is_float64_mantissa (s : bool) (m : positive) (e : Z) :
  is_float64 (S754_finite s m e) = true -> Z.pos m < 2 ^ 53.
Proof.
  unfold is_float64, valid_binary, bounded, canonical_mantissa, fexp, SpecFloat.emin, prec, emax.
  intros H. apply andb_prop in H as [H _]. apply Z.eqb_eq in H.
  pose proof (digits2_pos_bounds m) as [_ Hhi].
  assert (Hd : Z.pos (digits2_pos m) <= 53) by lia.
  assert (2 ^ Z.pos (digits2_pos m) <= 2 ^ 53) by (apply Z.pow_le_mono_r; lia).
  lia.
Qed.

Lemma float64_integer_MinInt64 : float64_integer MinInt64.
Proof. exists 1, 63. unfold MinInt64. cbn. lia. Qed.

(** What [int64(f)] yields is an integer float64 holds exactly. *)
Lemma int64_of_float64_integer (f : float64) :
  is_float64 f = true ->
  float64_integer (int64_of_float64 f) /\
  MinInt64 <= int64_of_float64 f <= MaxInt64.
Proof.
  intros Hf. destruct f as [s | s | | s m e]; cbn [int64_of_float64].
  - split; [exists 0, 0; cbn; lia | unfold MinInt64, MaxInt64; lia].
  - split; [apply float64_integer_MinInt64 | unfold MinInt64, MaxInt64; lia].
  - split; [apply float64_integer_MinInt64 | unfold MinInt64, MaxInt64; lia].
  - pose proof (is_float64_mantissa _ _ _ Hf) as Hm.
    set (a := Z.shiftl (Z.pos m) e).
    assert (Ha : float64_integer a /\ 0 <= a).
    { subst a. destruct (Z.le_gt_cases 0 e) as [He | He].
      - rewrite Z.shiftl_mul_pow2 by lia. split.
        + exists (Z.pos m), e. rewrite Z.abs_eq; [lia |].
          apply Z.mul_nonneg_nonneg; [lia | apply Z.pow_nonneg; lia].
        + apply Z.mul_nonneg_nonneg; [lia | apply Z.pow_nonneg; lia].
      - rewrite Z.shiftl_div_pow2 by lia.
        assert (Hp : 0 < 2 ^ (- e)) by (apply Z.pow_pos_nonneg; lia).
        assert (Hq : 0 <= Z.pos m / 2 ^ (- e)) by (apply Z.div_pos; lia).
        assert (Hr : Z.pos m / 2 ^ (- e) <= Z.pos m) by (apply Z.div_le_upper_bound; nia).
        split; [| exact Hq].
        exists (Z.pos m / 2 ^ (- e)), 0. rewrite Z.abs_eq by exact Hq. cbn [Z.pow]. lia. }
    destruct Ha as [Ha Hpos].
    assert (Hneg : float64_integer (- a)).
    { destruct Ha as (m' & e' & H). exists m', e'. now rewrite Z.abs_opp. }
    destruct s.
    + destruct (Z.leb_spec MinInt64 (- a)); cbn [andb].
      * destruct (Z.leb_spec (- a) MaxInt64); [split; [exact Hneg | lia] |].
        split; [apply float64_integer_MinInt64 | unfold MinInt64, MaxInt64; lia].
      * split; [apply float64_integer_MinInt64 | unfold MinInt64, MaxInt64; lia].
    + destruct (Z.leb_spec MinInt64 a); cbn [andb].
      * destruct (Z.leb_spec a MaxInt64); [split; [exact Ha | lia] |].
        split; [apply float64_integer_MinInt64 | unfold MinInt64, MaxInt64; lia].
      * split; [apply float64_integer_MinInt64 | unfold MinInt64, MaxInt64; lia].
Qed.

Lemma int64_of_float64_exact (f : float64) :
  is_float64 f = true -> exact_int64 (int64_of_float64 f).
Proof.
  intros Hf. destruct (int64_of_float64_integer f Hf) as [Hi Hr].
  now apply exact_int64_float64_integer.
Qed.

(** A rate that is zero or less converts to an integer that is zero or
    less. *)
Lemma int64_of_nonpositive (f : float64) :
  SFleb f (S754_zero false) = true -> int64_of_float64 f <= 0.
Proof.
  destruct f as [s | s | | s m e]; cbn [int64_of_float64]; intros H;
    try (unfold MinInt64; lia).
  destruct s; [| discriminate H].
  assert (0 <= Z.shiftl (Z.pos m) e) by (apply Z.shiftl_nonneg; lia).
  destruct ((MinInt64 <=? - Z.shiftl (Z.pos m) e) && (- Z.shiftl (Z.pos m) e <=? MaxInt64));
    unfold MinInt64; lia.
Qed.

Lemma parse_integers (a b : Z) :
  exact_int64 a -> exact_int64 b ->
  parseRationalTime (FormatInt a +:+ "/" +:+ FormatInt b +:+ "s") = Ok (rt a b).
Proof.
  intros Ha Hb. apply (parse_fraction _ (FormatInt a) (FormatInt b)).
  - now right.
  - rewrite ParseFloat_FormatInt. now rewrite (exact_int64_finite _ Ha).
  - rewrite ParseFloat_FormatInt. now rewrite (exact_int64_finite _ Hb).
Qed.

(** X1: the decoder accepts every text the encoder writes for a time.  For
    a rate above zero (or NaN) it reads back the value and the rate cut to
    int64; for a rate of zero or less it reads back 0 at the rate 1.  When
    the rate cut to int64 is above zero, the time read back is written as
    the same text again. *)
Theorem parse_accepts_format (t : RationalTime) :
  is_float64 (value t) = true -> is_float64 (rate t) = true ->
  parseRationalTime (formatRationalTime t) =
    Ok (if SFleb (rate t) (S754_zero false) then rt 0 1
        else rt (int64_of_float64 (value t)) (int64_of_float64 (rate t))) /\
  (0 < int64_of_float64 (rate t) ->
   formatRationalTime (rt (int64_of_float64 (value t)) (int64_of_float64 (rate t))) =
   formatRationalTime t).
Proof.
  intros Hv Hr.
  pose proof (int64_of_float64_exact _ Hv) as Ev.
  pose proof (int64_of_float64_exact _ Hr) as Er.
  split.
  - unfold formatRationalTime.
    destruct (SFleb (rate t) (S754_zero false)); [vm_compute; reflexivity |].
    now apply parse_integers.
  - intros Hpos. unfold rt. rewrite (formatRationalTime_exact _ _ Ev Er Hpos).
    unfold formatRationalTime.
    destruct (SFleb (rate t) (S754_zero false)) eqn:E; [| reflexivity].
    apply int64_of_nonpositive in E. lia.
Qed.

(** 2.5 at the rate 23.976: the text is "2/23s". *)
Definition fractionalTime : RationalTime :=
  NewRationalTime (S754_finite false 5629499534213120 (-51))
                  (S754_finite false 6748644041614688 (-48)).

Lemma parse_accepts_format_witness :
  formatRationalTime fractionalTime = "2/23s" /\
  parseRationalTime (formatRationalTime fractionalTime) = Ok (rt 2 23) /\
  formatRationalTime (rt 2 23) = formatRationalTime fractionalTime.
Proof.
  split; [vm_compute; reflexivity |].
  destruct (parse_accepts_format fractionalTime) as [H1 H2];
    [vm_compute; reflexivity | vm_compute; reflexivity |].
  split; [exact H1 |]. apply H2. vm_compute. reflexivity.
Defined.

(** An integer below zero that float64 holds is a float64 below zero. *)
Lemma exact_int64_nonpositive (r : Z) :
  exact_int64 r -> r <= 0 -> SFleb (float64_of_Z r) (S754_zero false) = true.
Proof.
  unfold exact_int64. intros H Hr.
  destruct (float64_of_Z r) as [sz | si | | s m e] eqn:E; cbn in H.
  - reflexivity.
  - subst r. vm_compute in E. discriminate E.
  - subst r. vm_compute in E. discriminate E.
  - destruct s; [reflexivity |]. exfalso.
    assert (0 <= Z.shiftl (Z.pos m) e) by (apply Z.shiftl_nonneg; lia).
    destruct ((MinInt64 <=? Z.shiftl (Z.pos m) e) && (Z.shiftl (Z.pos m) e <=? MaxInt64)) eqn:B.
    + assert (R0 : r = 0) by lia. rewrite R0 in E. vm_compute in E. discriminate E.
    + rewrite <- H in E. vm_compute in E. discriminate E.
Qed.

(** X2: an integer fraction "a/b", with or without the unit, is read as
    (a, b) whatever the sign of [b], and a bare integer as (a, 24); what is
    read is written back as "a/bs" when [b] is above zero and as "0/1s"
    when it is not: the decoder does not check the rate, the encoder
    does. *)
Theorem format_parse_integer_text (a b : Z) :
  float64_integer a -> float64_integer b ->
  MinInt64 <= a <= MaxInt64 -> MinInt64 <= b <= MaxInt64 ->
  parseRationalTime (FormatInt a +:+ "/" +:+ FormatInt b +:+ "s") = Ok (rt a b) /\
  parseRationalTime (FormatInt a +:+ "/" +:+ FormatInt b) = Ok (rt a b) /\
  parseRationalTime (FormatInt a) = Ok (rt a 24) /\
  formatRationalTime (rt a b) =
    (if 0 <? b then FormatInt a +:+ "/" +:+ FormatInt b +:+ "s" else "0/1s") /\
  formatRationalTime (rt a 24) = FormatInt a +:+ "/24s".
Proof.
  intros Fa Fb Ra Rb.
  assert (Ha : exact_int64 a) by now apply exact_int64_float64_integer.
  assert (Hb : exact_int64 b) by now apply exact_int64_float64_integer.
  assert (Pa : ParseFloat (FormatInt a) = Ok (float64_of_Z a)).
  { rewrite ParseFloat_FormatInt. now rewrite (exact_int64_finite _ Ha). }
  assert (Pb : ParseFloat (FormatInt b) = Ok (float64_of_Z b)).
  { rewrite ParseFloat_FormatInt. now rewrite (exact_int64_finite _ Hb). }
  split; [now apply parse_integers |].
  split; [apply (parse_fraction _ (FormatInt a) (FormatInt b)); [now left | exact Pa | exact Pb] |].
  split; [apply (parse_bare _ (FormatInt a)); [now left | exact Pa] |].
  split.
  - destruct (Z.ltb_spec 0 b) as [Hpos | Hneg].
    + now apply formatRationalTime_exact.
    + unfold formatRationalTime, rt. cbn [rate].
      now rewrite (exact_int64_nonpositive _ Hb Hneg).
  - unfold rt. rewrite (formatRationalTime_exact a 24 Ha); [reflexivity | | lia].
    apply exact_int64_small. lia.
Qed.

Lemma format_parse_integer_text_witness :
  parseRationalTime "5/0s" = Ok (rt 5 0) /\
  parseRationalTime "5/0" = Ok (rt 5 0) /\
  parseRationalTime "5" = Ok (rt 5 24) /\
  formatRationalTime (rt 5 0) = "0/1s" /\
  formatRationalTime (rt 5 24) = "5/24s".
Proof.
  apply (format_parse_integer_text 5 0).
  - exists 5, 0. lia.
  - exists 0, 0. lia.
  - unfold MinInt64, MaxInt64. lia.
  - unfold MinInt64, MaxInt64. lia.
Defined.

(* ================================================================== *)
(** * The rational time codec: the unit *)
(* ================================================================== *)

(** The text ends with the byte "s". *)
Fixpoint ends_with_s (s : string) : bool :=
  match s with
  | EmptyString => false
  | String c EmptyString => Ascii.eqb c "s"
  | String _ s' => ends_with_s s'
  end.

Lemma ends_with_s_append (a b : string) : b <> "" -> ends_with_s (a +:+ b) = ends_with_s b.
Proof.
  intros Hb. induction a as [|c a IH]; [now rewrite append_nil_l |].
  rewrite append_cons. cbn [ends_with_s]. rewrite IH.
  destruct (a +:+ b) eqn:E; [| reflexivity].
  exfalso. apply (append_not_empty a b Hb E).
Qed.

Lemma plain_not_ends_with_s (b : string) :
  string_forallb plain b = true -> ends_with_s b = false.
Proof.
  induction b as [|c b IH]; [reflexivity |]. cbn [string_forallb ends_with_s].
  intros H. apply andb_prop in H as [Hc Hb].
  destruct b; [| now apply IH].
  unfold plain in Hc. apply andb_prop in Hc as [_ Hc]. now destruct (Ascii.eqb c "s").
Qed.

Lemma append_s_inj (x y : string) : x +:+ "s" = y +:+ "s" -> x = y.
Proof.
  intros E. rewrite <- (TrimSuffix_append x "s"), <- (TrimSuffix_append y "s").
  now rewrite E.
Qed.

(** A number does not end with the unit. *)
Lemma ParseFloat_not_unit (x : string) (v : float64) :
  ParseFloat (x +:+ "s") = Ok v -> False.
Proof.
  intros Hv. destruct (ParseFloat_plain _ _ Hv) as [_ Hp].
  apply plain_not_ends_with_s in Hp.
  rewrite ends_with_s_append in Hp by discriminate. discriminate Hp.
Qed.

Lemma fraction_not_unit (x a b : string) (v : float64) :
  ParseFloat b = Ok v -> x +:+ "s" = a +:+ "/" +:+ b -> False.
Proof.
  intros Hv E. destruct (ParseFloat_plain _ _ Hv) as [Hne Hp].
  apply plain_not_ends_with_s in Hp.
  apply (f_equal ends_with_s) in E.
  rewrite <- (append_assoc a "/" b) in E.
  rewrite !ends_with_s_append in E by (try discriminate; exact Hne).
  rewrite Hp in E. discriminate E.
Qed.

Lemma TrimSuffix_no_unit (s : string) : ends_with_s s = false -> TrimSuffix s "s" = s.
Proof.
  induction s as [|c s IH]; [reflexivity |]. rewrite TrimSuffix_cons.
  destruct s as [|c' s].
  - cbn [ends_with_s]. intros Hc. cbn. now rewrite Hc.
  - intros H. change (String.eqb (String c (String c' s)) "s") with
      (Ascii.eqb c "s" && false)%bool.
    rewrite andb_false_r. now rewrite (IH H).
Qed.

(** X3: the unit "s" is taken off the end of a time text once.  A text
    that does not end with it reads the same with the unit added; the unit
    alone is refused, though the empty text is the zero time; and a text
    that ends with the unit twice is always refused. *)
Theorem unit_suffix_once :
  (forall s, s <> "" -> ends_with_s s = false ->
             parseRationalTime (s +:+ "s") = parseRationalTime s) /\
  parseRationalTime "s" = Err (Errorf "invalid rational time format: ") /\
  (forall s, exists e, parseRationalTime (s +:+ "ss") = Err e /\ MalformedDuration e).
Proof.
  split; [| split].
  - intros s Hne Ht. rewrite (parseRationalTime_trimmed s Hne), (TrimSuffix_no_unit s Ht).
    rewrite parseRationalTime_trimmed by (apply append_not_empty; discriminate).
    now rewrite TrimSuffix_append.
  - reflexivity.
  - intros s. apply parse_other.
    + apply append_not_empty. discriminate.
    + intros (a & b & va & vb & Hf & _ & Hb).
      change "ss" with ("s" +:+ "s") in Hf. rewrite <- append_assoc in Hf.
      destruct Hf as [Hf | Hf].
      * exact (fraction_not_unit _ _ _ _ Hb Hf).
      * rewrite <- (append_assoc "/" b "s"), <- (append_assoc a _ "s") in Hf.
        apply append_s_inj in Hf.
        exact (fraction_not_unit _ _ _ _ Hb Hf).
    + intros (n & v & Hn & Hv).
      change "ss" with ("s" +:+ "s") in Hn. rewrite <- append_assoc in Hn.
      destruct Hn as [Hn | Hn].
      * rewrite <- Hn in Hv. exact (ParseFloat_not_unit _ _ Hv).
      * apply append_s_inj in Hn. rewrite <- Hn in Hv. exact (ParseFloat_not_unit _ _ Hv).
Qed.

(* ================================================================== *)
(** * The rational time codec: the three errors *)
(* ================================================================== *)

(** The text holds no "/". *)
Definition no_slash (s : string) : bool :=
  string_forallb (fun c => negb (Ascii.eqb c "/")) s.

Fixpoint count_slash (s : string) : nat :=
  match s with
  | EmptyString => O
  | String c s' => if Ascii.eqb c "/" then S (count_slash s') else count_slash s'
  end.

Lemma length_Split (s : string) : length (Split s "/") = S (count_slash s).
Proof.
  induction s as [|c s IH]; [reflexivity |]. cbn [Split count_slash].
  destruct (Ascii.eqb c "/"); cbn [length]; [now rewrite IH |].
  destruct (Split s "/"); cbn [length] in *; lia.
Qed.

Lemma count_slash_plain (s : string) :
  string_forallb plain s = true -> count_slash s = O.
Proof.
  induction s as [|c s IH]; [reflexivity |]. cbn [string_forallb count_slash].
  intros H. apply andb_prop in H as [Hc Hs]. unfold plain in Hc.
  apply andb_prop in Hc as [Hc _]. apply negb_true_iff in Hc. rewrite Hc. now apply IH.
Qed.

(** X4: which of its three errors [parseRationalTime] returns, on a text
    with the unit.  With one "/" the numerator is read first and the error
    names the part that is no number, the numerator before the
    denominator; with no "/" or more than one the whole text is read as a
    number, and with more than one it never is one.  The error holds the
    text without the unit, and the error of strconv is dropped. *)
Theorem parse_error_messages :
  (forall a b,
      no_slash a = true -> no_slash b = true ->
      parseRationalTime (a +:+ "/" +:+ b +:+ "s") =
      match ParseFloat a with
      | Err _ => Err (Errorf ("invalid rational time numerator: " +:+ a))
      | Ok value =>
          match ParseFloat b with
          | Err _ => Err (Errorf ("invalid rational time denominator: " +:+ b))
          | Ok rate => Ok (NewRationalTime value rate)
          end
      end) /\
  (forall t,
      count_slash t <> 1%nat ->
      parseRationalTime (t +:+ "s") =
      match ParseFloat t with
      | Err _ => Err (Errorf ("invalid rational time format: " +:+ t))
      | Ok value => Ok (NewRationalTime value (float64_of_Z 24))
      end) /\
  (forall t,
      (2 <= count_slash t)%nat ->
      parseRationalTime (t +:+ "s") = Err (Errorf ("invalid rational time format: " +:+ t))).
Proof.
  assert (Hbare : forall t, count_slash t <> 1%nat ->
            parseRationalTime (t +:+ "s") =
            match ParseFloat t with
            | Err _ => Err (Errorf ("invalid rational time format: " +:+ t))
            | Ok value => Ok (NewRationalTime value (float64_of_Z 24))
            end).
  { intros t Ht. rewrite parseRationalTime_trimmed by (apply append_not_empty; discriminate).
    rewrite TrimSuffix_append. unfold parseTrimmed.
    pose proof (length_Split t) as Hl.
    destruct (Split t "/") as [|p [|q [|x l]]]; try reflexivity.
    cbn [length] in Hl. lia. }
  split; [| split; [exact Hbare |]].
  - intros a b Ha Hb.
    rewrite parseRationalTime_trimmed.
    + rewrite <- (append_assoc "/" b "s"), <- (append_assoc a _ "s"), TrimSuffix_append.
      unfold parseTrimmed. change (a +:+ "/" +:+ b) with (a +:+ String "/" b).
      rewrite (Split_append _ _ _ Ha), (Split_none _ _ Hb). reflexivity.
    + rewrite <- (append_assoc "/" b "s"), <- (append_assoc a _ "s").
      apply append_not_empty. discriminate.
  - intros t Ht. rewrite Hbare by lia.
    destruct (ParseFloat t) as [v |] eqn:E; [| reflexivity].
    apply ParseFloat_plain in E as [_ E]. apply count_slash_plain in E. lia.
Qed.

(* ================================================================== *)
(** * Encode, then decode *)
(* ================================================================== *)

(** The times that pass through the codec unchanged: an integer value and
    an integer rate above zero, both held exactly by float64 and by
    int64. *)
Definition canonicalTime (t : RationalTime) : Prop :=
  exists v r,
    float64_integer v /\ float64_integer r /\
    MinInt64 <= v <= MaxInt64 /\ 0 < r <= MaxInt64 /\ t = rt v r.

Definition canonicalRange (r : TimeRange) : Prop :=
  canonicalTime (start_time r) /\ canonicalTime (duration r).

Lemma canonicalTime_roundtrip (t : RationalTime) :
  canonicalTime t -> parseRationalTime (formatRationalTime t) = Ok t.
Proof.
  intros (v & r & Fv & Fr & Rv & Rr & ->).
  assert (Hv : exact_int64 v) by now apply exact_int64_float64_integer.
  assert (Hr : exact_int64 r).
  { apply exact_int64_float64_integer; [exact Fr |]. unfold MinInt64 in *. lia. }
  unfold rt. rewrite (formatRationalTime_exact _ _ Hv Hr (proj1 Rr)).
  now apply parse_integers.
Qed.

(** The encoder never writes an empty time attribute. *)
Lemma formatRationalTime_not_empty (t : RationalTime) : formatRationalTime t <> "".
Proof.
  unfold formatRationalTime. destruct (SFleb (rate t) (S754_zero false)); [discriminate |].
  rewrite <- !append_assoc. apply append_not_empty. discriminate.
Qed.

Lemma parse_formatted_start (t : RationalTime) (field : string) :
  canonicalTime t ->
  (if negb (String.eqb (formatRationalTime t) "")
   then wrap field (parseRationalTime (formatRationalTime t)) else Ok zero) = Ok t.
Proof.
  intros Ht. apply parse_start. now apply canonicalTime_roundtrip.
Qed.

(** X5: a marker written by the encoder and read by the decoder comes back
    with its name, its comment and its marked range, when the start and the
    duration of the range are canonical times; its color comes back as
    green, whatever it was. *)
Theorem marker_roundtrip (m : gotio.Marker) :
  canonicalRange (gotio.marked_range m) ->
  convertMarker (convertMarkerToFCPX m) =
  Ok (gotio.NewMarker (gotio.marker_name m) (gotio.marked_range m)
        gotio.MarkerColorGreen (gotio.marker_comment m)).
Proof.
  intros [Hs Hd]. unfold convertMarker, convertMarkerToFCPX.
  cbn [Marker.Start Marker.Duration Marker.Value Marker.Note].
  rewrite (canonicalTime_roundtrip _ Hs). cbn [wrap bind].
  rewrite (parse_formatted_start _ _ Hd). cbn [bind].
  now destruct (gotio.marked_range m).
Qed.

Lemma canonicalTime_rt (v r : Z) :
  - 2 ^ 53 < v < 2 ^ 53 -> 0 < r < 2 ^ 53 -> canonicalTime (rt v r).
Proof.
  intros Hv Hr. exists v, r. unfold MinInt64, MaxInt64.
  split; [| split; [| split; [lia | split; [lia | reflexivity]]]].
  - exists (Z.abs v), 0. cbn [Z.pow]. lia.
  - exists r, 0. rewrite Z.abs_eq by lia. cbn [Z.pow]. lia.
Qed.

(** A red marker of 100/3000 s at 6/24 s. *)
Definition redMarker : gotio.Marker :=
  gotio.NewMarker "Marker 1" (NewTimeRange (rt 6 24) (rt 100 3000)) "RED" "note".

Lemma marker_roundtrip_witness :
  convertMarkerToFCPX redMarker =
    {| Marker.XMLName := Name0; Marker.Start := "6/24s"; Marker.Duration := "100/3000s";
       Marker.Value := "Marker 1"; Marker.Note := "note"; Marker.Completed := false |} /\
  convertMarker (convertMarkerToFCPX redMarker) =
    Ok (gotio.NewMarker "Marker 1" (NewTimeRange (rt 6 24) (rt 100 3000))
          gotio.MarkerColorGreen "note").
Proof.
  split; [vm_compute; reflexivity |].
  apply (marker_roundtrip redMarker).
  split; apply canonicalTime_rt; lia.
Defined.

Definition canonicalMarker (m : gotio.Marker) : Prop :=
  gotio.marker_color m = gotio.MarkerColorGreen /\ canonicalRange (gotio.marked_range m).

(** The items of a video track that decode gives back as they were: a clip
    with the empty reference, a gap whose range starts at the zero time, a
    stack without children whose metadata is the reference id alone; all
    with a source range of canonical times and canonical green markers. *)
Definition canonicalItem (c : gotio.Composable) : Prop :=
  match c with
  | gotio.ClipItem clip =>
      gotio.media_reference clip = emptyReference /\
      (exists r, gotio.clip_source_range clip = Some r /\ canonicalRange r) /\
      Forall canonicalMarker (gotio.clip_markers clip)
  | gotio.GapItem gap =>
      exists d, gotio.gap_source_range gap = Some (NewTimeRange zero d) /\ canonicalTime d
  | gotio.StackItem stack =>
      (exists r, gotio.stack_source_range stack = Some r /\ canonicalRange r) /\
      Forall canonicalMarker (gotio.stack_markers stack) /\
      (exists ref, gotio.stack_metadata stack = {[ "fcpx_ref" := gotio.AnyString ref ]}) /\
      gotio.stack_children stack = []
  | gotio.TrackItem _ => False
  end.

Definition isGapItem (c : gotio.Composable) : bool :=
  match c with gotio.GapItem _ => true | _ => false end.

(** A timeline of one video track "Video 1". *)
Definition videoTimeline (name : string) (items : list gotio.Composable) : gotio.Timeline :=
  {| gotio.timeline_name := name;
     gotio.tracks :=
       Some (gotio.mkStack "tracks" None [] ∅
               [gotio.TrackItem (gotio.mkTrack "Video 1" None gotio.TrackKindVideo items)]) |}.

(** The same timeline with, beside the video track, the audio track
    "Audio 1" of the gaps of the video track, when there is one. *)
Definition videoTimelineWithGaps (name : string) (items : list gotio.Composable)
    : gotio.Timeline :=
  {| gotio.timeline_name := name;
     gotio.tracks :=
       Some (gotio.mkStack "tracks" None [] ∅
               (gotio.TrackItem (gotio.mkTrack "Video 1" None gotio.TrackKindVideo items) ::
                nonEmptyTrack
                  (gotio.mkTrack "Audio 1" None gotio.TrackKindAudio
                     (List.filter isGapItem items)))) |}.

Lemma canonicalMarker_roundtrip (m : gotio.Marker) :
  canonicalMarker m -> convertMarker (convertMarkerToFCPX m) = Ok m.
Proof.
  intros [Hc [Hs Hd]]. unfold convertMarker, convertMarkerToFCPX.
  cbn [Marker.Start Marker.Duration Marker.Value Marker.Note].
  rewrite (canonicalTime_roundtrip _ Hs). cbn [wrap bind].
  rewrite (parse_formatted_start _ _ Hd). cbn [bind].
  destruct m as [n [s d] c k]. cbn in Hc. now rewrite <- Hc.
Qed.

Lemma canonicalMarkers_roundtrip (ms : list gotio.Marker) :
  Forall canonicalMarker ms ->
  traverse convertMarker (map convertMarkerToFCPX ms) = Ok ms.
Proof.
  induction 1 as [|m ms Hm _ IH]; [reflexivity |].
  cbn [map traverse]. rewrite (canonicalMarker_roundtrip _ Hm). cbn [bind].
  now rewrite IH.
Qed.

(** The spine entry the encoder writes for a canonical item puts the item
    back on the video track, and a gap on the audio track as well. *)
Lemma canonicalItem_roundtrip (c : gotio.Composable) :
  canonicalItem c ->
  exists item,
    convertItem c true = Ok item /\
    forall vt at',
      convertSpineItem item vt at' =
      Ok (gotio.track_AppendChild vt c,
          if isGapItem c then gotio.track_AppendChild at' c else at').
Proof.
  destruct c as [clip | gap | stack | track]; cbn [canonicalItem]; [| | | intros []].
  - intros (Href & (r & Hr & Hs & Hd) & Hm).
    destruct clip as [name ref range markers]. cbn in Href, Hr, Hm. subst ref range.
    eexists. split; [reflexivity |]. intros vt at'.
    cbn [convertSpineItem]. unfold convertVideo. cbn [Video.Duration Video.Start Video.Markers Video.Name].
    cbn [gotio.Duration gotio.clip_source_range wrap bind startOf gotio.clip_markers gotio.clip_name].
    rewrite (canonicalTime_roundtrip _ Hd). cbn [wrap bind].
    rewrite (parse_formatted_start _ _ Hs). cbn [bind].
    rewrite (canonicalMarkers_roundtrip _ Hm). cbn [bind isGapItem].
    now destruct r.
  - intros (d & Hr & Hd). destruct gap as [name range]. cbn in Hr. subst range.
    eexists. split; [reflexivity |]. intros vt at'.
    cbn [convertSpineItem]. unfold convertGap. cbn [Gap.Duration Gap.Name].
    cbn [gotio.Duration gotio.gap_source_range wrap bind duration gotio.gap_name].
    rewrite (canonicalTime_roundtrip _ Hd). reflexivity.
  - intros ((r & Hr & Hs & Hd) & Hm & (ref & Hmd) & Hc).
    destruct stack as [name range markers md children]. cbn in Hr, Hm, Hmd, Hc.
    subst range md children.
    eexists. split; [reflexivity |]. intros vt at'.
    cbn [convertSpineItem]. unfold convertRefClip.
    cbn [RefClip.Duration RefClip.Start RefClip.Markers RefClip.Name RefClip.SrcEnable].
    cbn [gotio.Duration gotio.stack_source_range wrap bind startOf gotio.stack_markers
         gotio.stack_name].
    rewrite (canonicalTime_roundtrip _ Hd). cbn [wrap bind].
    rewrite (parse_formatted_start _ _ Hs). cbn [bind].
    rewrite (canonicalMarkers_roundtrip _ Hm). cbn [bind isGapItem].
    change (String.eqb "" "audio") with false. cbv iota.
    unfold refClipMetadata. cbn [RefClip.SrcEnable RefClip.Ref].
    change (negb (String.eqb "" "")) with false. cbv iota.
    cbn [gotio.stack_metadata]. rewrite lookup_singleton_eq.
    now destruct r.
Qed.

Lemma canonicalItems_roundtrip (items : list gotio.Composable) :
  Forall canonicalItem items ->
  exists spine,
    traverse (fun c => convertItem c true) items = Ok spine /\
    forall n r k cs n' r' k' cs',
      convertSpineItems spine (gotio.mkTrack n r k cs) (gotio.mkTrack n' r' k' cs') =
      Ok (gotio.mkTrack n r k (cs ++ items),
          gotio.mkTrack n' r' k' (cs' ++ List.filter isGapItem items)).
Proof.
  induction 1 as [|c items Hc _ (spine & Hs & IH)].
  - exists []. split; [reflexivity |]. intros. cbn [convertSpineItems List.filter].
    now rewrite !app_nil_r.
  - destruct (canonicalItem_roundtrip c Hc) as (item & Hi & Hd).
    exists (item :: spine). split.
    + cbn [traverse]. rewrite Hi. cbn [bind]. now rewrite Hs.
    + intros n r k cs n' r' k' cs'. cbn [convertSpineItems]. rewrite Hd.
      cbn [gotio.track_AppendChild List.filter].
      destruct (isGapItem c); rewrite IH, <- !app_assoc; reflexivity.
Qed.

Lemma itemsOfKind_nonEmptyTrack (kind : string) (t : gotio.Track) :
  String.eqb (gotio.track_kind t) kind = false -> itemsOfKind kind (nonEmptyTrack t) = [].
Proof.
  intros Hk. unfold nonEmptyTrack.
  destruct (Nat.ltb 0 (length (gotio.track_children t))); [| reflexivity].
  cbn [itemsOfKind]. now rewrite Hk.
Qed.

(** X6: a timeline of one video track "Video 1" whose items are canonical
    is encoded without error, and decoding the document gives the timeline
    back: the same name and the same video track, and beside it an audio
    track "Audio 1" that holds the gaps of the video track, when it has
    any.  Encoding what was decoded gives the same document again. *)
Theorem encode_decode_video_timeline (name : string) (items : list gotio.Composable) :
  items <> [] -> Forall canonicalItem items ->
  exists doc,
    convertFromTimeline (videoTimeline name items) = Ok doc /\
    convertToTimeline doc = Ok (videoTimelineWithGaps name items) /\
    convertFromTimeline (videoTimelineWithGaps name items) = Ok doc.
Proof.
  intros Hne Hc. destruct (canonicalItems_roundtrip items Hc) as (spine & Hs & Hd).
  assert (Henc : forall rest,
             itemsOfKind gotio.TrackKindVideo rest = [] ->
             convertTracksToSequence
               (Some (gotio.mkStack "tracks" None [] ∅
                        (gotio.TrackItem (gotio.mkTrack "Video 1" None gotio.TrackKindVideo items)
                         :: rest))) = Ok (sampleSequenceOf spine)).
  { intros rest Hrest. unfold convertTracksToSequence.
    rewrite convertVideoItems_audio_unused. cbn [gotio.stack_children itemsOfKind].
    change (String.eqb (gotio.track_kind (gotio.mkTrack "Video 1" None gotio.TrackKindVideo items))
              gotio.TrackKindVideo) with true. cbv iota.
    cbn [gotio.track_children]. rewrite Hrest, app_nil_r, Hs. reflexivity. }
  eexists. split; [| split].
  - unfold convertFromTimeline, videoTimeline. cbn [gotio.tracks gotio.timeline_name].
    rewrite (Henc [] eq_refl). cbn [bind]. reflexivity.
  - unfold convertToTimeline. cbn [findProject FCPXML.Project Project.Sequence Project.Name].
    unfold convertSequenceToTracks, sampleSequenceOf. cbn [Sequence.Spine Spine.Items].
    unfold gotio.NewTrack. rewrite Hd. cbn [app gotio.track_children].
    destruct items as [|c items]; [congruence |].
    change (Nat.ltb 0 (length (c :: items))) with true. cbv iota.
    unfold videoTimelineWithGaps, nonEmptyTrack. cbn [gotio.track_children].
    destruct (Nat.ltb 0 (length (List.filter isGapItem (c :: items)))); reflexivity.
  - unfold convertFromTimeline, videoTimelineWithGaps. cbn [gotio.tracks gotio.timeline_name].
    rewrite Henc; [reflexivity |]. now apply itemsOfKind_nonEmptyTrack.
Qed.

(** A clip with a marker, a gap and a compound clip. *)
Definition canonicalItems : list gotio.Composable :=
  [gotio.ClipItem
     (gotio.NewClip "Clip 1" emptyReference (Some (NewTimeRange (rt 0 24) (rt 1200 24)))
        [gotio.NewMarker "Marker 1" (NewTimeRange (rt 6 24) (rt 100 3000))
           gotio.MarkerColorGreen "note"]);
   gotio.GapItem (gotio.NewGap "Gap" (Some (NewTimeRange zero (rt 600 24))));
   gotio.StackItem
     (gotio.mkStack "Compound" (Some (NewTimeRange (rt 0 24) (rt 80 24))) []
        {[ "fcpx_ref" := gotio.AnyString "r2" ]} [])].

Lemma encode_decode_video_timeline_witness :
  exists doc,
    convertFromTimeline (videoTimeline "Test Project" canonicalItems) = Ok doc /\
    convertToTimeline doc = Ok (videoTimelineWithGaps "Test Project" canonicalItems) /\
    convertFromTimeline (videoTimelineWithGaps "Test Project" canonicalItems) = Ok doc.
Proof.
  apply (encode_decode_video_timeline "Test Project" canonicalItems); [discriminate |].
  assert (T : forall v r, - 2 ^ 53 < v < 2 ^ 53 -> 0 < r < 2 ^ 53 -> canonicalTime (rt v r))
    by exact canonicalTime_rt.
  repeat constructor; cbn;
    repeat first [ apply T; lia | split | eexists | reflexivity | constructor ].
Defined.

(* ================================================================== *)
(** * Decode: what lands on each track *)
(* ================================================================== *)

(** The items of the spine decode converts: those of the spine of the
    sequence of the project found, none when one of them is missing. *)
Definition spineItems (doc : FCPXML.t) : list Item :=
  match findProject doc with
  | Some project =>
      match Project.Sequence project with
      | Some seq =>
          match Sequence.Spine seq with
          | Some spine => Spine.Items spine
          | None => []
          end
      | None => []
      end
  | None => []
  end.

(** The items that put a child on the video track, and on the audio
    track: the tests of [convertSequenceToTracks] and of the conversions it
    calls. *)
Definition landsOnVideo (item : Item) : bool :=
  match item with
  | ItemClip clip => notnil (Clip.Video clip) || negb (String.eqb (Clip.Ref clip) "")
  | ItemVideo _ | ItemGap _ => true
  | ItemRefClip refClip => negb (String.eqb (RefClip.SrcEnable refClip) "audio")
  | ItemAudio _ | ItemTitle _ | ItemTransition _ => false
  end.

Definition landsOnAudio (item : Item) : bool :=
  match item with
  | ItemClip clip => notnil (Clip.Audio clip) || negb (String.eqb (Clip.AudioDuration clip) "")
  | ItemAudio _ | ItemGap _ => true
  | ItemRefClip refClip => String.eqb (RefClip.SrcEnable refClip) "audio"
  | ItemVideo _ | ItemTitle _ | ItemTransition _ => false
  end.

Definition itemName (item : Item) : string :=
  match item with
  | ItemClip v => Clip.Name v
  | ItemVideo v => Video.Name v
  | ItemAudio v => Audio.Name v
  | ItemGap v => Gap.Name v
  | ItemTitle v => Title.Name v
  | ItemTransition v => Transition.Name v
  | ItemRefClip v => RefClip.Name v
  end.

(** The start attribute, the duration attribute and the markers decode
    reads of an item: no start for a gap, whose range starts at the zero
    time, and no markers but those of a clip, a video or a ref-clip. *)
Definition itemStart (item : Item) : string :=
  match item with
  | ItemClip v => Clip.Start v
  | ItemVideo v => Video.Start v
  | ItemAudio v => Audio.Start v
  | ItemRefClip v => RefClip.Start v
  | ItemGap _ | ItemTitle _ | ItemTransition _ => ""
  end.

Definition itemDuration (item : Item) : string :=
  match item with
  | ItemClip v => Clip.Duration v
  | ItemVideo v => Video.Duration v
  | ItemAudio v => Audio.Duration v
  | ItemGap v => Gap.Duration v
  | ItemTitle v => Title.Duration v
  | ItemTransition v => Transition.Duration v
  | ItemRefClip v => RefClip.Duration v
  end.

Definition itemMarkers (item : Item) : list Marker.t :=
  match item with
  | ItemClip v => Clip.Markers v
  | ItemVideo v => Video.Markers v
  | ItemRefClip v => RefClip.Markers v
  | ItemAudio _ | ItemGap _ | ItemTitle _ | ItemTransition _ => []
  end.

Definition composableName (c : gotio.Composable) : string :=
  match c with
  | gotio.ClipItem v => gotio.clip_name v
  | gotio.GapItem v => gotio.gap_name v
  | gotio.StackItem v => gotio.stack_name v
  | gotio.TrackItem v => gotio.track_name v
  end.

Definition composableRange (c : gotio.Composable) : option TimeRange :=
  match c with
  | gotio.ClipItem v => gotio.clip_source_range v
  | gotio.GapItem v => gotio.gap_source_range v
  | gotio.StackItem v => gotio.stack_source_range v
  | gotio.TrackItem (gotio.mkTrack _ r _ _) => r
  end.

Definition composableMarkers (c : gotio.Composable) : list gotio.Marker :=
  match c with
  | gotio.ClipItem v => gotio.clip_markers v
  | gotio.StackItem v => gotio.stack_markers v
  | gotio.GapItem _ | gotio.TrackItem _ => []
  end.

(** The child of a track an item of the spine gives: a clip for a clip, a
    video or an audio, a gap for a gap, a stack that holds the reference id
    for a ref-clip; with the item's name, a source range whose start and
    duration are the item's attributes read by [parseRationalTime] (the
    empty text reads as the zero time), and the item's markers converted. *)
Definition decodesTo (item : Item) (c : gotio.Composable) : Prop :=
  composableName c = itemName item /\
  (exists r, composableRange c = Some r /\
             parseRationalTime (itemStart item) = Ok (start_time r) /\
             parseRationalTime (itemDuration item) = Ok (duration r)) /\
  traverse convertMarker (itemMarkers item) = Ok (composableMarkers c) /\
  match item, c with
  | ItemClip _, gotio.ClipItem _ | ItemVideo _, gotio.ClipItem _
  | ItemAudio _, gotio.ClipItem _ | ItemGap _, gotio.GapItem _ => True
  | ItemRefClip refClip, gotio.StackItem stack =>
      gotio.stack_metadata stack !! "fcpx_ref" = Some (gotio.AnyString (RefClip.Ref refClip))
  | _, _ => False
  end.

Lemma start_parsed (s field : string) (t : RationalTime) :
  (if negb (String.eqb s "") then wrap field (parseRationalTime s) else Ok zero) = Ok t ->
  parseRationalTime s = Ok t.
Proof.
  destruct (String.eqb_spec s "") as [-> | _]; cbn [negb]; [exact id |].
  destruct (parseRationalTime s); [exact id | discriminate].
Qed.

Ltac conversion_steps :=
  repeat match goal with
         | |- bind (wrap ?m ?c) _ = Ok _ -> _ =>
             let E := fresh "E" in destruct c eqn:E; cbn [wrap bind]; [| discriminate]
         | |- bind ?c _ = Ok _ -> _ =>
             let E := fresh "E" in destruct c eqn:E; cbn [bind]; [| discriminate]
         end;
  repeat match goal with
         | E : (if negb (String.eqb _ "") then _ else _) = Ok _ |- _ => apply start_parsed in E
         end.

Lemma convertVideo_child (video : Video.t) vt vt1 :
  convertVideo video vt = Ok vt1 ->
  exists c, gotio.track_children vt1 = gotio.track_children vt ++ [c] /\
            decodesTo (ItemVideo video) c.
Proof.
  unfold convertVideo. conversion_steps. intros [= <-].
  eexists. rewrite track_AppendChild_children. split; [reflexivity |].
  repeat split; cbn; eauto.
Qed.

Lemma convertAudio_child (audio : Audio.t) at' at1 :
  convertAudio audio at' = Ok at1 ->
  exists c, gotio.track_children at1 = gotio.track_children at' ++ [c] /\
            decodesTo (ItemAudio audio) c.
Proof.
  unfold convertAudio. conversion_steps. intros [= <-].
  eexists. rewrite track_AppendChild_children. split; [reflexivity |].
  repeat split; cbn; eauto.
Qed.

(** One item of the spine puts on each track the child it decodes to, or
    nothing. *)
Lemma convertSpineItem_children (item : Item) vt at' vt1 at1 :
  convertSpineItem item vt at' = Ok (vt1, at1) ->
  exists cv ca,
    gotio.track_children vt1 = gotio.track_children vt ++ cv /\
    gotio.track_children at1 = gotio.track_children at' ++ ca /\
    Forall2 decodesTo (List.filter landsOnVideo [item]) cv /\
    Forall2 decodesTo (List.filter landsOnAudio [item]) ca.
Proof.
  assert (Hnil : forall t, gotio.track_children t = gotio.track_children t ++ [])
    by (intros; now rewrite app_nil_r).
  destruct item as [clip | video | audio | gap | title | transition | refClip];
    cbn [convertSpineItem List.filter landsOnVideo landsOnAudio].
  - unfold convertClip. conversion_steps.
    destruct (notnil (Clip.Video clip) || negb (String.eqb (Clip.Ref clip) ""));
      destruct (notnil (Clip.Audio clip) || negb (String.eqb (Clip.AudioDuration clip) ""));
      intros [= <- <-]; eexists _, _; rewrite ?track_AppendChild_children;
      (split; [first [reflexivity | apply Hnil] |]);
      (split; [first [reflexivity | apply Hnil] |]);
      split; repeat constructor; cbn; eauto.
  - destruct (convertVideo video vt) as [vt2 |] eqn:E; cbn [bind]; [| discriminate].
    intros [= <- <-]. destruct (convertVideo_child _ _ _ E) as (c & Hc & Hd).
    exists [c], []. split; [exact Hc |]. split; [apply Hnil |].
    split; [constructor; [exact Hd | constructor] | constructor].
  - destruct (convertAudio audio at') as [at2 |] eqn:E; cbn [bind]; [| discriminate].
    intros [= <- <-]. destruct (convertAudio_child _ _ _ E) as (c & Hc & Hd).
    exists [], [c]. split; [apply Hnil |]. split; [exact Hc |].
    split; [constructor | constructor; [exact Hd | constructor]].
  - unfold convertGap. conversion_steps. intros [= <- <-].
    eexists _, _; rewrite ?track_AppendChild_children.
    split; [reflexivity |]. split; [reflexivity |].
    split; repeat constructor; cbn; eauto.
  - intros [= <- <-]. exists [], []. repeat split; auto; constructor.
  - intros [= <- <-]. exists [], []. repeat split; auto; constructor.
  - unfold convertRefClip. conversion_steps.
    destruct (String.eqb (RefClip.SrcEnable refClip) "audio"); cbn [negb];
      intros [= <- <-]; eexists _, _; rewrite ?track_AppendChild_children;
      (split; [first [reflexivity | apply Hnil] |]);
      (split; [first [reflexivity | apply Hnil] |]);
      split; repeat constructor; cbn; eauto using refClipMetadata_ref.
Qed.

Lemma filter_cons_app {A} (f : A -> bool) (a : A) (l : list A) :
  List.filter f (a :: l) = List.filter f [a] ++ List.filter f l.
Proof. cbn [List.filter]. now destruct (f a). Qed.

Lemma convertSpineItems_children (items : list Item) :
  forall vt at' vt1 at1,
    convertSpineItems items vt at' = Ok (vt1, at1) ->
    exists cv ca,
      gotio.track_children vt1 = gotio.track_children vt ++ cv /\
      gotio.track_children at1 = gotio.track_children at' ++ ca /\
      Forall2 decodesTo (List.filter landsOnVideo items) cv /\
      Forall2 decodesTo (List.filter landsOnAudio items) ca.
Proof.
  induction items as [|item items IH]; intros vt at' vt1 at1; cbn [convertSpineItems].
  - intros [= <- <-]. exists [], []. rewrite !app_nil_r. repeat split; constructor.
  - destruct (convertSpineItem item vt at') as [[vt2 at2] | e] eqn:E; [| discriminate].
    intros Hr. destruct (convertSpineItem_children _ _ _ _ _ E) as (cv & ca & Hv & Ha & Fv & Fa).
    destruct (IH _ _ _ _ Hr) as (cv' & ca' & Hv' & Ha' & Fv' & Fa').
    exists (cv ++ cv'), (ca ++ ca').
    rewrite Hv', Ha', Hv, Ha, <- !app_assoc.
    split; [reflexivity |]. split; [reflexivity |].
    rewrite (filter_cons_app landsOnVideo), (filter_cons_app landsOnAudio).
    split; now apply Forall2_app.
Qed.

Lemma itemsOfKind_app (kind : string) (l1 l2 : list gotio.Composable) :
  itemsOfKind kind (l1 ++ l2) = itemsOfKind kind l1 ++ itemsOfKind kind l2.
Proof.
  induction l1 as [|c l1 IH]; [reflexivity |].
  destruct c as [? | ? | ? | t]; cbn [app itemsOfKind]; try exact IH.
  destruct (String.eqb (gotio.track_kind t) kind); [| exact IH].
  now rewrite IH, app_assoc.
Qed.

Lemma itemsOfKind_nonEmptyTrack_same (kind : string) (t : gotio.Track) :
  String.eqb (gotio.track_kind t) kind = true ->
  itemsOfKind kind (nonEmptyTrack t) = gotio.track_children t.
Proof.
  intros Hk. unfold nonEmptyTrack.
  destruct (gotio.track_children t) as [|c cs] eqn:E; [reflexivity |].
  cbn [length Nat.ltb Nat.leb itemsOfKind]. now rewrite Hk, E, app_nil_r.
Qed.

(** The children of the video tracks and of the audio tracks of the root
    stack decode built from the spine. *)
Lemma decoded_tracks_children (vt at' : gotio.Track) :
  gotio.track_kind vt = gotio.TrackKindVideo ->
  gotio.track_kind at' = gotio.TrackKindAudio ->
  itemsOfKind gotio.TrackKindVideo (nonEmptyTrack vt ++ nonEmptyTrack at') =
    gotio.track_children vt /\
  itemsOfKind gotio.TrackKindAudio (nonEmptyTrack vt ++ nonEmptyTrack at') =
    gotio.track_children at'.
Proof.
  intros Hv Ha. rewrite !itemsOfKind_app. split.
  - rewrite itemsOfKind_nonEmptyTrack_same by now rewrite Hv.
    rewrite itemsOfKind_nonEmptyTrack by now rewrite Ha.
    apply app_nil_r.
  - rewrite itemsOfKind_nonEmptyTrack by now rewrite Hv.
    rewrite itemsOfKind_nonEmptyTrack_same by now rewrite Ha.
    reflexivity.
Qed.

(** What decode returns, by the spine: the timeline of the project's name
    whose root stack holds the tracks the items were converted into. *)
Lemma convertToTimeline_tracks (doc : FCPXML.t) (tl : gotio.Timeline) :
  convertToTimeline doc = Ok tl ->
  exists name vt at',
    tl = {| gotio.timeline_name := name;
            gotio.tracks :=
              Some (gotio.mkStack "tracks" None [] ∅ (nonEmptyTrack vt ++ nonEmptyTrack at')) |} /\
    convertSpineItems (spineItems doc) videoTrack0 audioTrack0 = Ok (vt, at').
Proof.
  unfold convertToTimeline, spineItems.
  destruct (findProject doc) as [project |]; [| discriminate].
  destruct (Project.Sequence project) as [seq |].
  - destruct (Sequence.Spine seq) as [spine |] eqn:Hs.
    + intros E. destruct (convertSequenceToTracks_spine _ _ _ _ Hs E) as (vt & at' & Hc & ->).
      now exists (Project.Name project), vt, at'.
    + unfold convertSequenceToTracks. rewrite Hs. intros [= <-].
      now exists (Project.Name project), videoTrack0, audioTrack0.
  - intros [= <-]. now exists (Project.Name project), videoTrack0, audioTrack0.
Qed.

(** X7: in a decoded timeline the children of the video track are, in the
    order of the spine, the children decoded from the items that land on
    video (a clip with a video or a ref, a video, a gap, a ref-clip whose
    srcEnable is not "audio"), and the children of the audio track those of
    the items that land on audio (a clip with an audio or an audio
    duration, an audio, a gap, a ref-clip whose srcEnable is "audio"); a
    clip with neither lands nowhere. *)
Theorem decoded_track_contents (doc : FCPXML.t) (timeline : gotio.Timeline)
    (root : gotio.Stack) :
  convertToTimeline doc = Ok timeline -> gotio.tracks timeline = Some root ->
  Forall2 decodesTo (List.filter landsOnVideo (spineItems doc))
    (itemsOfKind gotio.TrackKindVideo (gotio.stack_children root)) /\
  Forall2 decodesTo (List.filter landsOnAudio (spineItems doc))
    (itemsOfKind gotio.TrackKindAudio (gotio.stack_children root)).
Proof.
  intros E Hroot. destruct (convertToTimeline_tracks _ _ E) as (name & vt & at' & -> & Hc).
  cbn in Hroot. injection Hroot as <-. cbn [gotio.stack_children].
  destruct (convertSpineItems_sameTrack _ _ _ _ _ Hc) as [[_ Hv] [_ Ha]].
  destruct (decoded_tracks_children vt at' Hv Ha) as [-> ->].
  destruct (convertSpineItems_children _ _ _ _ _ Hc) as (cv & ca & Hcv & Hca & Fv & Fa).
  cbn in Hcv, Hca. rewrite Hcv, Hca. now split.
Qed.

(** A document with one item of each kind: a clip on both tracks, an
    audio, a gap, a title, a transition, an audio ref-clip, a video
    ref-clip and a clip that lands nowhere. *)
Definition sampleAssetClip (name ref audioDuration : string) : Clip.t :=
  {| Clip.XMLName := Name0; Clip.Name := name; Clip.Ref := ref; Clip.Offset := "";
     Clip.Start := ""; Clip.Duration := "48/24s"; Clip.TCFormat := "";
     Clip.AudioStart := ""; Clip.AudioDuration := audioDuration; Clip.AudioRole := "";
     Clip.Markers := []; Clip.Video := None; Clip.Audio := None |}.

Definition sampleAudio : Audio.t :=
  {| Audio.XMLName := Name0; Audio.Name := "Music"; Audio.Ref := "r3"; Audio.Offset := "";
     Audio.Start := ""; Audio.Duration := "2.5/1s"; Audio.Role := ""; Audio.Channels := [] |}.

Definition sampleTitle : Title.t :=
  {| Title.XMLName := Name0; Title.Name := "Title"; Title.Ref := "r4"; Title.Offset := "";
     Title.Start := ""; Title.Duration := "not a time" |}.

Definition mixedItems : list Item :=
  [ItemClip (sampleAssetClip "Both" "r2" "48/24s");
   ItemAudio sampleAudio;
   ItemGap sampleGap;
   ItemTitle sampleTitle;
   ItemTransition Transition.zero;
   ItemRefClip (sampleRefClip "audio");
   ItemRefClip (sampleRefClip "");
   ItemClip (sampleAssetClip "Nowhere" "" "")].

Definition mixedDocument : FCPXML.t :=
  sampleDocument (sampleProject "Mixed" (Some (sampleSequence mixedItems))).

Lemma decoded_track_contents_witness :
  exists timeline root,
    convertToTimeline mixedDocument = Ok timeline /\
    gotio.tracks timeline = Some root /\
    map composableName (itemsOfKind gotio.TrackKindVideo (gotio.stack_children root)) =
      ["Both"; "Gap"; "compound_clip_1"] /\
    map composableName (itemsOfKind gotio.TrackKindAudio (gotio.stack_children root)) =
      ["Both"; "Music"; "Gap"; "compound_clip_1"] /\
    Forall2 decodesTo (List.filter landsOnVideo (spineItems mixedDocument))
      (itemsOfKind gotio.TrackKindVideo (gotio.stack_children root)) /\
    Forall2 decodesTo (List.filter landsOnAudio (spineItems mixedDocument))
      (itemsOfKind gotio.TrackKindAudio (gotio.stack_children root)).
Proof.
  destruct (convertToTimeline mixedDocument) as [timeline | e] eqn:E;
    [| vm_compute in E; discriminate E].
  destruct (gotio.tracks timeline) as [root |] eqn:R;
    [| vm_compute in E; injection E as <-; discriminate R].
  exists timeline, root. split; [reflexivity |]. split; [exact R |].
  pose proof (decoded_track_contents mixedDocument timeline root E R) as H.
  vm_compute in E. injection E as <-. injection R as <-.
  split; [reflexivity |]. split; [reflexivity |]. exact H.
Defined.

(* ================================================================== *)
(** * Decode, then encode *)
(* ================================================================== *)

(** The document [convertFromTimeline] builds around the spine items. *)
Definition encodedDocument (name : string) (items : list Item) : FCPXML.t :=
  {| FCPXML.XMLName := Name0; FCPXML.Version := "1.9"; FCPXML.Library := None;
     FCPXML.Event := None;
     FCPXML.Project :=
       Some {| Project.XMLName := Name0; Project.Name := name; Project.UID := "";
               Project.ModDate := ""; Project.Sequence := Some (sampleSequenceOf items) |} |}.

(** The entry the encoder writes for the child of the video track an item
    was decoded to: a video for a clip or a video, a gap for a gap, a
    ref-clip with the same reference id for a ref-clip; with the item's
    name, the item's start (but for a gap) and duration written back from
    the times [parseRationalTime] read, the item's markers converted there
    and back, and no offset. *)
Definition reencodes (item item' : Item) : Prop :=
  itemName item' = itemName item /\
  exists start duration markers,
    parseRationalTime (itemStart item) = Ok start /\
    parseRationalTime (itemDuration item) = Ok duration /\
    traverse convertMarker (itemMarkers item) = Ok markers /\
    itemDuration item' = formatRationalTime duration /\
    itemMarkers item' = map convertMarkerToFCPX markers /\
    match item, item' with
    | ItemClip _, ItemVideo video | ItemVideo _, ItemVideo video =>
        Video.Start video = formatRationalTime start /\
        Video.Ref video = "" /\ Video.Offset video = ""
    | ItemGap _, ItemGap gap => Gap.Start gap = "" /\ Gap.Offset gap = ""
    | ItemRefClip refClip, ItemRefClip refClip' =>
        RefClip.Start refClip' = formatRationalTime start /\
        RefClip.Ref refClip' = RefClip.Ref refClip /\
        RefClip.SrcEnable refClip' = "" /\ RefClip.Offset refClip' = ""
    | _, _ => False
    end.

Lemma decodesTo_reencodes (item : Item) (c : gotio.Composable) :
  landsOnVideo item = true -> decodesTo item c ->
  exists item', convertItem c true = Ok item' /\ reencodes item item'.
Proof.
  intros Hl (Hn & (r & Hr & Hs & Hd) & Hm & Hk).
  destruct item as [clip | video | audio | gap | title | transition | refClip];
    destruct c as [cl | gp | st | tr]; try contradiction; try discriminate Hl;
    cbn [composableName composableRange composableMarkers itemName itemStart
         itemDuration itemMarkers] in Hn, Hr, Hs, Hd, Hm;
    cbn [convertItem]; unfold convertClipToFCPX, convertGapToFCPX, convertStackToRefClip;
    rewrite Hr; cbn [gotio.Duration wrap bind startOf]; eexists; (split; [reflexivity |]);
    (split; [exact Hn |]); exists (start_time r), (duration r); eexists;
    (split; [exact Hs |]); (split; [exact Hd |]); (split; [exact Hm |]);
    cbn [itemDuration itemMarkers map Video.Start Video.Ref Video.Offset Gap.Start Gap.Offset
         RefClip.Start RefClip.Ref RefClip.SrcEnable RefClip.Offset];
    try (repeat split; reflexivity).
  rewrite Hk. repeat split.
Qed.

Lemma traverse_reencodes (items : list Item) :
  forall cs,
    Forall2 decodesTo (List.filter landsOnVideo items) cs ->
    exists items',
      traverse (fun c => convertItem c true) cs = Ok items' /\
      Forall2 reencodes (List.filter landsOnVideo items) items'.
Proof.
  induction items as [|item items IH]; intros cs; cbn [List.filter].
  - intros Hf. inversion Hf; subst. exists []. split; [reflexivity | constructor].
  - destruct (landsOnVideo item) eqn:Hl; [| apply IH].
    intros Hf. inversion Hf as [|? c ? cs' Hd Hrest]; subst.
    destruct (decodesTo_reencodes _ _ Hl Hd) as (item' & Hi & Hre).
    destruct (IH _ Hrest) as (items' & Ht & Hall).
    exists (item' :: items'). split; [| now constructor].
    cbn [traverse]. rewrite Hi. cbn [bind]. now rewrite Ht.
Qed.

(** X8: a timeline decode returns is always encoded without error, into a
    document of version "1.9" with the project of the timeline's name at
    its root, whose spine holds, in order, one entry for each item of the
    decoded spine that landed on video, and nothing for the others: audios,
    titles, transitions and audio ref-clips are not written back. *)
Theorem decode_then_encode (doc : FCPXML.t) (timeline : gotio.Timeline) :
  convertToTimeline doc = Ok timeline ->
  exists items',
    convertFromTimeline timeline =
      Ok (encodedDocument (gotio.timeline_name timeline) items') /\
    Forall2 reencodes (List.filter landsOnVideo (spineItems doc)) items'.
Proof.
  intros E. destruct (convertToTimeline_tracks _ _ E) as (name & vt & at' & -> & Hc).
  destruct (convertSpineItems_sameTrack _ _ _ _ _ Hc) as [[_ Hv] [_ Ha]].
  destruct (convertSpineItems_children _ _ _ _ _ Hc) as (cv & ca & Hcv & _ & Fv & _).
  cbn in Hcv. destruct (traverse_reencodes _ _ Fv) as (items' & Ht & Hall).
  exists items'. split; [| exact Hall].
  unfold convertFromTimeline, convertTracksToSequence.
  cbn [gotio.tracks gotio.timeline_name gotio.stack_children].
  rewrite convertVideoItems_audio_unused.
  rewrite (proj1 (decoded_tracks_children vt at' Hv Ha)), Hcv, Ht. reflexivity.
Qed.

Lemma decode_then_encode_witness :
  exists timeline items',
    convertToTimeline mixedDocument = Ok timeline /\
    convertFromTimeline timeline = Ok (encodedDocument "Mixed" items') /\
    map itemName items' = ["Both"; "Gap"; "compound_clip_1"] /\
    map itemDuration items' = ["48/24s"; "600/24s"; "80/24s"] /\
    Forall2 reencodes (List.filter landsOnVideo (spineItems mixedDocument)) items'.
Proof.
  destruct (convertToTimeline mixedDocument) as [timeline | e] eqn:E;
    [| vm_compute in E; discriminate E].
  destruct (decode_then_encode mixedDocument timeline E) as (items' & He & Hall).
  exists timeline, items'. split; [reflexivity |].
  vm_compute in E. injection E as <-.
  split; [exact He |].
  vm_compute in He. injection He as <-.
  split; [reflexivity |]. split; [reflexivity |]. exact Hall.
Defined.

(* ================================================================== *)
(** * Decode: when it succeeds *)
(* ================================================================== *)

Definition isOk {A} (r : result A) : bool :=
  match r with
  | Ok _ => true
  | Err _ => false
  end.

(** [parseRationalTime] accepts the text. *)
Definition parses (s : string) : bool := isOk (parseRationalTime s).

(** The time attributes decode reads of a marker and of an item of the
    spine are accepted: the start and the duration of a marker; the
    duration of a gap; the start, the duration and the markers of a clip,
    a video, an audio or a ref-clip; nothing of a title or a transition. *)
Definition markerReads (marker : Marker.t) : bool :=
  parses (Marker.Start marker) && parses (Marker.Duration marker).

Definition itemReads (item : Item) : bool :=
  match item with
  | ItemTitle _ | ItemTransition _ => true
  | _ => parses (itemDuration item) && parses (itemStart item) &&
         forallb markerReads (itemMarkers item)
  end.

Lemma isOk_bind {A B} (r : result A) (k : A -> result B) :
  isOk (bind r k) = match r with Ok a => isOk (k a) | Err _ => false end.
Proof. now destruct r. Qed.

Lemma isOk_wrap {A} (msg : string) (r : result A) : isOk (wrap msg r) = isOk r.
Proof. now destruct r. Qed.

Lemma isOk_start (s field : string) :
  isOk (if negb (String.eqb s "") then wrap field (parseRationalTime s) else Ok zero) =
  parses s.
Proof.
  destruct (String.eqb_spec s "") as [-> | _]; cbn [negb]; [reflexivity |].
  apply isOk_wrap.
Qed.

Lemma isOk_convertMarker (marker : Marker.t) :
  isOk (convertMarker marker) = markerReads marker.
Proof.
  unfold convertMarker, markerReads, parses.
  destruct (parseRationalTime (Marker.Start marker)) as [start |]; cbn [wrap bind isOk andb];
    [| reflexivity].
  rewrite isOk_bind.
  pose proof (isOk_start (Marker.Duration marker) "failed to parse marker duration: ") as Hd.
  unfold parses in Hd. rewrite <- Hd.
  now destruct (if negb (String.eqb (Marker.Duration marker) "") then _ else _).
Qed.

Lemma isOk_traverse {A B} (f : A -> result B) (l : list A) :
  isOk (traverse f l) = forallb (fun a => isOk (f a)) l.
Proof.
  induction l as [|a l IH]; [reflexivity |]. cbn [traverse forallb].
  destruct (f a) as [b |]; cbn [bind isOk andb]; [| reflexivity].
  rewrite <- IH. now destruct (traverse f l).
Qed.

Lemma isOk_convertMarkers (markers : list Marker.t) :
  isOk (traverse convertMarker markers) = forallb markerReads markers.
Proof.
  rewrite isOk_traverse. induction markers as [|m ms IH]; [reflexivity |].
  cbn [forallb]. now rewrite isOk_convertMarker, IH.
Qed.

(** The three reads of a clip, a video, an audio and a ref-clip, then what
    cannot fail. *)
Lemma isOk_reads {A} (field1 field2 duration start : string) (markers : list Marker.t)
    (k : RationalTime -> RationalTime -> list gotio.Marker -> result A) :
  (forall d s ms, isOk (k d s ms) = true) ->
  isOk (d <- wrap field1 (parseRationalTime duration) ;;
        s <- (if negb (String.eqb start "") then wrap field2 (parseRationalTime start)
              else Ok zero) ;;
        ms <- traverse convertMarker markers ;;
        k d s ms) =
  parses duration && parses start && forallb markerReads markers.
Proof.
  intros Hk. unfold parses at 1.
  destruct (parseRationalTime duration) as [d |]; cbn [wrap bind isOk andb]; [| reflexivity].
  rewrite isOk_bind, <- (isOk_start start field2).
  destruct (if negb (String.eqb start "") then _ else _) as [s |]; cbn [isOk andb];
    [| reflexivity].
  rewrite isOk_bind, <- isOk_convertMarkers.
  destruct (traverse convertMarker markers) as [ms |]; [apply Hk | reflexivity].
Qed.

Lemma isOk_convertSpineItem (item : Item) vt at' :
  isOk (convertSpineItem item vt at') = itemReads item.
Proof.
  destruct item as [clip | video | audio | gap | title | transition | refClip];
    cbn [convertSpineItem itemReads itemDuration itemStart itemMarkers]; try reflexivity.
  - unfold convertClip. now apply isOk_reads.
  - rewrite isOk_bind.
    transitivity (isOk (convertVideo video vt)); [now destruct (convertVideo video vt) |].
    unfold convertVideo. now apply isOk_reads.
  - rewrite isOk_bind.
    transitivity (isOk (convertAudio audio at')); [now destruct (convertAudio audio at') |].
    unfold convertAudio. cbn [forallb]. rewrite andb_true_r.
    unfold parses at 1.
    destruct (parseRationalTime (Audio.Duration audio)); cbn [wrap bind isOk andb];
      [| reflexivity].
    rewrite isOk_bind, <- (isOk_start (Audio.Start audio) "failed to parse audio start: ").
    now destruct (if negb (String.eqb (Audio.Start audio) "") then _ else _).
  - unfold convertGap. cbn [forallb]. rewrite andb_true_r.
    change (parses "") with true. rewrite andb_true_r. unfold parses.
    now destruct (parseRationalTime (Gap.Duration gap)).
  - unfold convertRefClip. apply isOk_reads. intros d s ms.
    now destruct (String.eqb (RefClip.SrcEnable refClip) "audio").
Qed.

Lemma isOk_convertSpineItems (items : list Item) :
  forall vt at', isOk (convertSpineItems items vt at') = forallb itemReads items.
Proof.
  induction items as [|item items IH]; intros vt at'; [reflexivity |].
  cbn [convertSpineItems forallb]. rewrite <- (isOk_convertSpineItem item vt at').
  destruct (convertSpineItem item vt at') as [[vt1 at1] |]; cbn [isOk andb];
    [apply IH | reflexivity].
Qed.

(** X9: decode succeeds exactly when the document has a project where
    decode looks for one and every time attribute decode reads in the
    spine of that project is accepted by [parseRationalTime]: a clip that
    lands on no track is read all the same, and the attributes of titles
    and transitions, the offsets and the audio attributes of clips are
    not. *)
Theorem decode_succeeds_iff (doc : FCPXML.t) :
  isOk (convertToTimeline doc) =
  notnil (findProject doc) && forallb itemReads (spineItems doc).
Proof.
  unfold convertToTimeline, spineItems.
  destruct (findProject doc) as [project |]; cbn [notnil andb]; [| reflexivity].
  destruct (Project.Sequence project) as [seq |]; [| reflexivity].
  unfold convertSequenceToTracks.
  destruct (Sequence.Spine seq) as [spine |]; [| reflexivity].
  rewrite <- (isOk_convertSpineItems (Spine.Items spine)
                (gotio.NewTrack "Video 1" gotio.TrackKindVideo)
                (gotio.NewTrack "Audio 1" gotio.TrackKindAudio)).
  now destruct (convertSpineItems _ _ _) as [[vt at'] |].
Qed.

(* ================================================================== *)
(** * Decode: the error *)
(* ================================================================== *)

(** The fields the errors of the conversion name. *)
Definition timeFields : list string :=
  ["clip duration"; "clip start"; "video duration"; "video start"; "audio duration";
   "audio start"; "gap duration"; "marker start"; "marker duration";
   "ref-clip duration"; "ref-clip start"].

(** The error of a time attribute: the error of [parseRationalTime] wrapped
    once, with the field the attribute was read for. *)
Definition FieldError (e : error) : Prop :=
  exists field cause,
    In field timeFields /\
    e = Wrapf ("failed to parse " +:+ field +:+ ": ") cause /\ MalformedDuration cause.

Lemma wrap_field_error (field s : string) (e : error) :
  In field timeFields ->
  wrap ("failed to parse " +:+ field +:+ ": ") (parseRationalTime s) = Err e -> FieldError e.
Proof.
  intros Hf. destruct (parseRationalTime s) as [v | cause] eqn:E; [discriminate |].
  intros [= <-]. exists field, cause. split; [exact Hf |]. split; [reflexivity |].
  now apply (parseRationalTime_error s).
Qed.

Lemma wrap_start_field_error (field s : string) (e : error) :
  In field timeFields ->
  (if negb (String.eqb s "")
   then wrap ("failed to parse " +:+ field +:+ ": ") (parseRationalTime s) else Ok zero) = Err e ->
  FieldError e.
Proof.
  intros Hf. destruct (negb (String.eqb s "")); [now apply wrap_field_error | discriminate].
Qed.

Ltac in_fields := unfold timeFields; cbn [In]; repeat first [left; reflexivity | right].

Lemma convertMarker_field_error (m : Marker.t) (e : error) :
  convertMarker m = Err e -> FieldError e.
Proof.
  unfold convertMarker.
  destruct (wrap "failed to parse marker start: " (parseRationalTime (Marker.Start m)))
    as [st | e1] eqn:E1; cbn [bind].
  - destruct (if negb (String.eqb (Marker.Duration m) "") then _ else _)
      as [du | e2] eqn:E2; cbn [bind]; [discriminate |].
    intros [= <-]. apply (wrap_start_field_error "marker duration" _ _ ltac:(in_fields) E2).
  - intros [= <-]. apply (wrap_field_error "marker start" _ _ ltac:(in_fields) E1).
Qed.

(** The reads of a conversion, then what cannot fail: the error names one
    of the fields, and does not depend on what follows the reads. *)
Lemma reads_field_error {A B} (field1 field2 duration start : string)
    (markers : list Marker.t)
    (k : RationalTime -> RationalTime -> list gotio.Marker -> result A)
    (k' : RationalTime -> RationalTime -> list gotio.Marker -> result B) (e : error) :
  In field1 timeFields -> In field2 timeFields ->
  (forall d s ms e', k d s ms <> Err e') ->
  (d <- wrap ("failed to parse " +:+ field1 +:+ ": ") (parseRationalTime duration) ;;
   s <- (if negb (String.eqb start "")
         then wrap ("failed to parse " +:+ field2 +:+ ": ") (parseRationalTime start)
         else Ok zero) ;;
   ms <- traverse convertMarker markers ;;
   k d s ms) = Err e ->
  FieldError e /\
  (d <- wrap ("failed to parse " +:+ field1 +:+ ": ") (parseRationalTime duration) ;;
   s <- (if negb (String.eqb start "")
         then wrap ("failed to parse " +:+ field2 +:+ ": ") (parseRationalTime start)
         else Ok zero) ;;
   ms <- traverse convertMarker markers ;;
   k' d s ms) = Err e.
Proof.
  intros H1 H2 Hk.
  destruct (wrap _ (parseRationalTime duration)) as [d | e1] eqn:E1; cbn [bind].
  - destruct (if negb (String.eqb start "") then _ else _) as [s | e2] eqn:E2; cbn [bind].
    + destruct (traverse convertMarker markers) as [ms | e3] eqn:E3; cbn [bind].
      * intros E. now apply Hk in E.
      * intros [= <-]. split; [| reflexivity].
        eapply traverse_error; [apply convertMarker_field_error | exact E3].
    + intros [= <-]. split; [| reflexivity]. eapply wrap_start_field_error; [exact H2 | exact E2].
  - intros [= <-]. split; [| reflexivity]. eapply wrap_field_error; [exact H1 | exact E1].
Qed.

Lemma convertVideo_field_error (video : Video.t) vt (e : error) :
  convertVideo video vt = Err e ->
  FieldError e /\ forall vt1, convertVideo video vt1 = Err e.
Proof.
  intros E. split.
  - refine (proj1 (reads_field_error "video duration" "video start" _ _ _ _
                     (fun _ _ _ => Ok tt) e ltac:(in_fields) ltac:(in_fields) _ E)).
    discriminate.
  - intros vt1.
    refine (proj2 (reads_field_error "video duration" "video start" _ _ _ _
                     _ e ltac:(in_fields) ltac:(in_fields) _ E)).
    discriminate.
Qed.

Lemma convertAudio_field_error (audio : Audio.t) at' (e : error) :
  convertAudio audio at' = Err e ->
  FieldError e /\ forall at1, convertAudio audio at1 = Err e.
Proof.
  unfold convertAudio.
  destruct (wrap _ (parseRationalTime (Audio.Duration audio))) as [d | e1] eqn:E1; cbn [bind].
  - destruct (if negb (String.eqb (Audio.Start audio) "") then _ else _) as [s | e2] eqn:E2;
      cbn [bind]; [discriminate |].
    intros [= <-]. split; [| reflexivity].
    apply (wrap_start_field_error "audio start" _ _ ltac:(in_fields) E2).
  - intros [= <-]. split; [| reflexivity].
    apply (wrap_field_error "audio duration" _ _ ltac:(in_fields) E1).
Qed.

(** The error of one item of the spine names a field, and is the same
    whatever the tracks hold. *)
Lemma convertSpineItem_field_error (item : Item) vt at' (e : error) :
  convertSpineItem item vt at' = Err e ->
  FieldError e /\ forall vt1 at1, convertSpineItem item vt1 at1 = Err e.
Proof.
  destruct item as [clip | video | audio | gap | title | transition | refClip];
    cbn [convertSpineItem]; try discriminate.
  - intros E. split.
    + refine (proj1 (reads_field_error "clip duration" "clip start" _ _ _ _
                       (fun _ _ _ => Ok tt) e ltac:(in_fields) ltac:(in_fields) _ E)).
      discriminate.
    + intros vt1 at1.
      refine (proj2 (reads_field_error "clip duration" "clip start" _ _ _ _
                       _ e ltac:(in_fields) ltac:(in_fields) _ E)).
      discriminate.
  - destruct (convertVideo video vt) as [vt2 | e1] eqn:E1; cbn [bind]; [discriminate |].
    intros [= <-]. destruct (convertVideo_field_error _ _ _ E1) as [Hf Hi].
    split; [exact Hf |]. intros vt1 at1. now rewrite Hi.
  - destruct (convertAudio audio at') as [at2 | e1] eqn:E1; cbn [bind]; [discriminate |].
    intros [= <-]. destruct (convertAudio_field_error _ _ _ E1) as [Hf Hi].
    split; [exact Hf |]. intros vt1 at1. now rewrite Hi.
  - unfold convertGap.
    destruct (wrap _ (parseRationalTime (Gap.Duration gap))) as [d | e1] eqn:E1; cbn [bind];
      [discriminate |].
    intros [= <-]. split; [| reflexivity].
    apply (wrap_field_error "gap duration" _ _ ltac:(in_fields) E1).
  - intros E. split.
    + refine (proj1 (reads_field_error "ref-clip duration" "ref-clip start" _ _ _ _
                       (fun _ _ _ => Ok tt) e ltac:(in_fields) ltac:(in_fields) _ E)).
      intros d s ms e'. now destruct (String.eqb (RefClip.SrcEnable refClip) "audio").
    + intros vt1 at1.
      refine (proj2 (reads_field_error "ref-clip duration" "ref-clip start" _ _ _ _
                       _ e ltac:(in_fields) ltac:(in_fields) _ E)).
      intros d s ms e'. now destruct (String.eqb (RefClip.SrcEnable refClip) "audio").
Qed.

(** X10: when decode finds a project and fails, the error is that of the
    first item of the spine, in order, that has a time attribute
    [parseRationalTime] refuses: it is the error of that item alone,
    whatever comes before or after it, and it wraps once the error of
    [parseRationalTime] with the field that was read, one of eleven. *)
Theorem decode_error_first_item (doc : FCPXML.t) (e : error) :
  convertToTimeline doc = Err e ->
  e = NoProjectFound \/
  exists pre item post,
    spineItems doc = pre ++ item :: post /\
    forallb itemReads pre = true /\ itemReads item = false /\
    (forall videoTrack audioTrack, convertSpineItem item videoTrack audioTrack = Err e) /\
    FieldError e.
Proof.
  unfold convertToTimeline, spineItems.
  destruct (findProject doc) as [project |]; [| intros [= <-]; now left].
  destruct (Project.Sequence project) as [seq |]; [| discriminate].
  unfold convertSequenceToTracks.
  destruct (Sequence.Spine seq) as [spine |]; [| discriminate].
  intros E. right.
  assert (Hc : convertSpineItems (Spine.Items spine)
                 (gotio.NewTrack "Video 1" gotio.TrackKindVideo)
                 (gotio.NewTrack "Audio 1" gotio.TrackKindAudio) = Err e).
  { destruct (convertSpineItems _ _ _) as [[vt at'] |]; [discriminate E | now injection E as ->]. }
  clear E. revert Hc.
  generalize (gotio.NewTrack "Video 1" gotio.TrackKindVideo)
             (gotio.NewTrack "Audio 1" gotio.TrackKindAudio).
  induction (Spine.Items spine) as [|item items IH]; intros vt at'; cbn [convertSpineItems];
    [discriminate |].
  destruct (convertSpineItem item vt at') as [[vt1 at1] | e1] eqn:E1.
  - intros Hr. destruct (IH _ _ Hr) as (pre & it & post & -> & Hpre & Hit & Hi & Hf).
    exists (item :: pre), it, post. split; [reflexivity |]. split; [| now repeat split].
    cbn [forallb]. rewrite Hpre, <- (isOk_convertSpineItem item vt at'), E1. reflexivity.
  - intros [= <-]. destruct (convertSpineItem_field_error _ _ _ _ E1) as [Hf Hi].
    exists [], item, items. split; [reflexivity |]. split; [reflexivity |].
    split; [| now split].
    now rewrite <- (isOk_convertSpineItem item vt at'), E1.
Qed.

Definition badGapDocument : FCPXML.t :=
  sampleDocument
    (sampleProject "Bad"
       (Some (sampleSequence
                [ItemVideo (sampleVideo "Clip 1" "1200/24s" "0/24s");
                 ItemGap {| Gap.XMLName := Name0; Gap.Name := "Gap"; Gap.Offset := "";
                            Gap.Start := ""; Gap.Duration := "1/2/3s" |};
                 ItemVideo (sampleVideo "Clip 2" "soon" "0/24s")]))).

Lemma decode_error_first_item_witness :
  convertToTimeline badGapDocument =
    Err (Wrapf "failed to parse gap duration: " (Errorf "invalid rational time format: 1/2/3")) /\
  exists pre item post,
    spineItems badGapDocument = pre ++ item :: post /\
    forallb itemReads pre = true /\ itemReads item = false /\
    (forall videoTrack audioTrack,
        convertSpineItem item videoTrack audioTrack =
        Err (Wrapf "failed to parse gap duration: "
               (Errorf "invalid rational time format: 1/2/3"))) /\
    FieldError (Wrapf "failed to parse gap duration: "
                  (Errorf "invalid rational time format: 1/2/3")).
Proof.
  split; [vm_compute; reflexivity |].
  destruct (decode_error_first_item badGapDocument
              (Wrapf "failed to parse gap duration: "
                 (Errorf "invalid rational time format: 1/2/3")))
    as [H | H]; [vm_compute; reflexivity | discriminate H | exact H].
Defined.

(* ================================================================== *)
(** * The encoder: what it reads of the root stack *)
(* ================================================================== *)

Lemma convertTracksToSequence_video_items (stack : gotio.Stack) :
  convertTracksToSequence (Some stack) =
  (items <- traverse (fun item => convertItem item true)
              (itemsOfKind gotio.TrackKindVideo (gotio.stack_children stack)) ;;
   Ok (sampleSequenceOf items)).
Proof. unfold convertTracksToSequence. now rewrite convertVideoItems_audio_unused. Qed.

Lemma itemsOfKind_other (kind : string) (c : gotio.Composable) :
  isTrackOfKind kind c = false -> itemsOfKind kind [c] = [].
Proof.
  destruct c as [? | ? | ? | t]; cbn [isTrackOfKind itemsOfKind]; try reflexivity.
  now intros ->.
Qed.

(** X11: of the root stack the encoder reads the children of the video
    tracks, track after track, and nothing else.  Two video tracks side by
    side are written as one track that holds the items of the first and
    then those of the second; a child of the root stack that is not a video
    track (an audio track, a track of another kind, an item put in the
    stack itself) is not written; and the name, the source range, the
    markers and the metadata of the root stack are not read. *)
Theorem encoder_reads_video_tracks :
  (forall name range markers metadata pre post n1 r1 c1 n2 r2 c2,
      convertTracksToSequence
        (Some (gotio.mkStack name range markers metadata
                 (pre ++ gotio.TrackItem (gotio.mkTrack n1 r1 gotio.TrackKindVideo c1)
                      :: gotio.TrackItem (gotio.mkTrack n2 r2 gotio.TrackKindVideo c2)
                      :: post))) =
      convertTracksToSequence
        (Some (gotio.mkStack name range markers metadata
                 (pre ++ gotio.TrackItem
                           (gotio.mkTrack n1 r1 gotio.TrackKindVideo (c1 ++ c2)) :: post)))) /\
  (forall name range markers metadata pre post c,
      isTrackOfKind gotio.TrackKindVideo c = false ->
      convertTracksToSequence
        (Some (gotio.mkStack name range markers metadata (pre ++ c :: post))) =
      convertTracksToSequence
        (Some (gotio.mkStack name range markers metadata (pre ++ post)))) /\
  (forall name range markers metadata children,
      convertTracksToSequence
        (Some (gotio.mkStack name range markers metadata children)) =
      convertTracksToSequence (Some (gotio.mkStack "" None [] ∅ children))).
Proof.
  split; [| split].
  - intros. rewrite !convertTracksToSequence_video_items. cbn [gotio.stack_children].
    rewrite !itemsOfKind_app. cbn [itemsOfKind gotio.track_kind gotio.track_children].
    change (String.eqb gotio.TrackKindVideo gotio.TrackKindVideo) with true. cbv iota.
    now rewrite <- app_assoc.
  - intros name range markers metadata pre post c Hc.
    rewrite !convertTracksToSequence_video_items. cbn [gotio.stack_children].
    rewrite !itemsOfKind_app.
    change (c :: post) with ([c] ++ post).
    now rewrite itemsOfKind_app, (itemsOfKind_other _ _ Hc).
  - intros. now rewrite !convertTracksToSequence_video_items.
Qed.

(* ================================================================== *)
(** * The encoder: the entries of the spine *)
(* ================================================================== *)

(** The reference id the encoder gives a ref-clip: the text under
    "fcpx_ref" in the metadata of the stack, and "r1" when there is none or
    when it is no text. *)
Definition refIdOf (metadata : gmap string gotio.any) : string :=
  match metadata !! "fcpx_ref" with
  | Some (gotio.AnyString ref) => ref
  | _ => "r1"
  end.

(** The entry of the spine the encoder writes for an item of a video
    track: a video for a clip, a gap for a gap, a ref-clip for a stack,
    with the name of the item, its markers converted, and, from its source
    range, its duration and (but for a gap) its start as texts. *)
Definition encodesTo (c : gotio.Composable) (item : Item) : Prop :=
  itemName item = composableName c /\
  itemMarkers item = map convertMarkerToFCPX (composableMarkers c) /\
  (forall r, composableRange c = Some r ->
             itemDuration item = formatRationalTime (duration r) /\
             itemStart item =
               match c with
               | gotio.GapItem _ => ""
               | _ => formatRationalTime (start_time r)
               end) /\
  match c, item with
  | gotio.ClipItem _, ItemVideo video => Video.Ref video = "" /\ Video.Offset video = ""
  | gotio.GapItem _, ItemGap gap => Gap.Offset gap = "" /\ Gap.Start gap = ""
  | gotio.StackItem stack, ItemRefClip refClip =>
      RefClip.Ref refClip = refIdOf (gotio.stack_metadata stack) /\
      RefClip.SrcEnable refClip = "" /\ RefClip.Offset refClip = "" /\
      RefClip.UseAudioSubroles refClip = false
  | _, _ => False
  end.

Lemma convertItem_encodesTo (c : gotio.Composable) (item : Item) :
  convertItem c true = Ok item -> encodesTo c item.
Proof.
  destruct c as [clip | gap | stack | track]; cbn [convertItem];
    unfold convertClipToFCPX, convertGapToFCPX, convertStackToRefClip; [| | | discriminate].
  - destruct (gotio.clip_source_range clip) as [r |] eqn:Hr;
      cbn [gotio.Duration wrap bind startOf]; [| discriminate].
    intros [= <-]. repeat split; try reflexivity; cbn [composableRange] in *;
      rewrite Hr in *; match goal with H : Some _ = Some _ |- _ => now injection H as <- end.
  - destruct (gotio.gap_source_range gap) as [r |] eqn:Hr;
      cbn [gotio.Duration wrap bind startOf]; [| discriminate].
    intros [= <-]. repeat split; try reflexivity; cbn [composableRange] in *;
      rewrite Hr in *; match goal with H : Some _ = Some _ |- _ => now injection H as <- end.
  - destruct (gotio.stack_source_range stack) as [r |] eqn:Hr;
      cbn [gotio.Duration wrap bind startOf]; [| discriminate].
    intros [= <-]. repeat split; try reflexivity; cbn [composableRange] in *;
      rewrite Hr in *; match goal with H : Some _ = Some _ |- _ => now injection H as <- end.
Qed.

Lemma traverse_Forall2 {A B} (f : A -> result B) (R : A -> B -> Prop) (l : list A) :
  (forall a b, f a = Ok b -> R a b) ->
  forall l', traverse f l = Ok l' -> Forall2 R l l'.
Proof.
  intros Hf. induction l as [|a l IH]; intros l'; cbn [traverse].
  - intros [= <-]. constructor.
  - destruct (f a) as [b |] eqn:E; cbn [bind]; [| discriminate].
    destruct (traverse f l) as [bs |]; cbn [bind]; [| discriminate].
    intros [= <-]. constructor; [now apply Hf | now apply IH].
Qed.

(** X12: when the encoder returns a sequence, its spine holds one entry
    for each item of the video tracks, in their order, and nothing else:
    a video for a clip, a gap for a gap, a ref-clip for a stack, each with
    the name, the times and the markers of the item.  The format of the
    sequence is "r1" and its duration is left empty. *)
Theorem encoded_spine_entries (stack : gotio.Stack) (sequence : Sequence.t) :
  convertTracksToSequence (Some stack) = Ok sequence ->
  exists items,
    sequence = sampleSequenceOf items /\
    Forall2 encodesTo (itemsOfKind gotio.TrackKindVideo (gotio.stack_children stack)) items.
Proof.
  rewrite convertTracksToSequence_video_items.
  destruct (traverse _ _) as [items |] eqn:E; cbn [bind]; [| discriminate].
  intros [= <-]. exists items. split; [reflexivity |].
  eapply traverse_Forall2; [| exact E]. intros c item. apply convertItem_encodesTo.
Qed.

Lemma encoded_spine_entries_witness :
  exists items,
    convertTracksToSequence
      (gotio.tracks (videoTimeline "Test Project" canonicalItems)) =
      Ok (sampleSequenceOf items) /\
    map itemName items = ["Clip 1"; "Gap"; "Compound"] /\
    map itemDuration items = ["1200/24s"; "600/24s"; "80/24s"] /\
    Forall2 encodesTo canonicalItems items.
Proof.
  destruct (convertTracksToSequence (gotio.tracks (videoTimeline "Test Project" canonicalItems)))
    as [sequence | e] eqn:E; [| vm_compute in E; discriminate E].
  destruct (encoded_spine_entries _ sequence E) as (items & -> & Hall).
  exists items. split; [reflexivity |].
  vm_compute in E. injection E as <-.
  split; [reflexivity |]. split; [reflexivity |]. exact Hall.
Defined.

(* ================================================================== *)
(** * Project resolution: the projects of a library, in order *)
(* ================================================================== *)

(** X13: the project of a library's events is the first project of the
    events taken in order, an event without a project being passed; and in
    a document without a project at its root, a library gives the first of
    its own projects followed by those of its events. *)
Theorem library_projects_in_order :
  (forall events,
      firstEventProject events = head (flat_map Event.Projects events)) /\
  (forall doc library,
      FCPXML.Project doc = None -> FCPXML.Library doc = Some library ->
      findProject doc =
      head (Library.Projects library ++ flat_map Event.Projects (Library.Events library))).
Proof.
  assert (H : forall events,
             firstEventProject events = head (flat_map Event.Projects events)).
  { induction events as [|event events IH]; [reflexivity |].
    cbn [firstEventProject flat_map].
    destruct (Event.Projects event) as [|project projects]; [exact IH | reflexivity]. }
  split; [exact H |].
  intros doc library Hp Hl. unfold findProject. rewrite Hp, Hl.
  destruct (Library.Projects library) as [|project projects]; [apply H | reflexivity].
Qed.

(* ================================================================== *)
(** * Spine.UnmarshalXML on a document that ends too early *)
(* ================================================================== *)

Section SpineUnmarshalTruncated.

Context `{xml.Unmarshaler Clip.t} `{xml.Unmarshaler Video.t}
        `{xml.Unmarshaler Audio.t} `{xml.Unmarshaler Gap.t}
        `{xml.Unmarshaler Title.t} `{xml.Unmarshaler Transition.t}
        `{xml.Unmarshaler RefClip.t}.

(** The loop of [UnmarshalXML] through complete children, whatever follows
    them: one turn a child. *)
Lemma UnmarshalXML_loop_children (kids : list xml.Node) :
  forall k start items opn more,
    UnmarshalXML_loop (length kids + k) start items
      {| xml.open := opn; xml.input := xml.tokens_all kids ++ more |} =
    match traverse decodeChild (omap recognizedChild kids) with
    | Ok its =>
        UnmarshalXML_loop k start (items ++ its) {| xml.open := opn; xml.input := more |}
    | Err e => Err e
    end.
Proof.
  induction kids as [|kid kids IH]; intros k start items opn more.
  - cbn [length plus xml.tokens_all flat_map app omap list_omap traverse].
    now rewrite app_nil_r.
  - cbn [length plus].
    destruct kid as [name attr content | s | s | t i | s].
    + rewrite tokens_all_Element.
      cbn [UnmarshalXML_loop xml.NextToken xml.input xml.open omap list_omap recognizedChild].
      destruct (newItem (xml.Local name)) as [item |] eqn:En.
      * unfold DecodeElement. rewrite readElement_element.
        cbn [traverse bind decodeChild].
        destruct (unmarshalItem item name attr content) as [item' | e]; [| reflexivity].
        cbn [bind]. rewrite IH.
        destruct (traverse decodeChild (omap recognizedChild kids)) as [its | e];
          [| reflexivity].
        cbn [bind]. now rewrite <- app_assoc.
      * rewrite Skip_element. apply IH.
    + change (xml.tokens_all (xml.Text s :: kids)) with (xml.CharData s :: xml.tokens_all kids).
      cbn [app UnmarshalXML_loop xml.NextToken xml.input xml.open omap list_omap recognizedChild].
      apply IH.
    + change (xml.tokens_all (xml.CommentNode s :: kids)) with (xml.Comment s :: xml.tokens_all kids).
      cbn [app UnmarshalXML_loop xml.NextToken xml.input xml.open omap list_omap recognizedChild].
      apply IH.
    + change (xml.tokens_all (xml.ProcInstNode t i :: kids)) with (xml.ProcInst t i :: xml.tokens_all kids).
      cbn [app UnmarshalXML_loop xml.NextToken xml.input xml.open omap list_omap recognizedChild].
      apply IH.
    + change (xml.tokens_all (xml.DirectiveNode s :: kids)) with (xml.Directive s :: xml.tokens_all kids).
      cbn [app UnmarshalXML_loop xml.NextToken xml.input xml.open omap list_omap recognizedChild].
      apply IH.
Qed.

(** X14: when the document ends after some complete children of the spine,
    before the end tag of the spine, [UnmarshalXML] returns no spine: it
    returns the error of the first child that does not decode, or else the
    decoder's "unexpected EOF". *)
Theorem UnmarshalXML_truncated (start : xml.Name) (kids : list xml.Node)
    (outer : list xml.Name) :
  UnmarshalXML {| xml.open := start :: outer; xml.input := xml.tokens_all kids |} start =
    (items <- traverse decodeChild (omap recognizedChild kids) ;;
     Err (SyntaxError "unexpected EOF")).
Proof.
  unfold UnmarshalXML. cbn [xml.input].
  pose proof (length_tokens_all kids) as Hl.
  replace (S (length (xml.tokens_all kids)))
    with (length kids + S (length (xml.tokens_all kids) - length kids))%nat by lia.
  rewrite <- (app_nil_r (xml.tokens_all kids)) at 2.
  rewrite UnmarshalXML_loop_children.
  destruct (traverse decodeChild (omap recognizedChild kids)) as [its | e]; reflexivity.
Qed.

End SpineUnmarshalTruncated.

(* ================================================================== *)
(** * Decode *)
(* ================================================================== *)

Section Decode.

(** What [Decode] reads from, and [xml.NewDecoder(r).Decode(&fcpxml)]: the
    document encoding/xml reads from it into the structs of the document
    model, or its error; a library service, kept abstract. *)
Variable Reader : Type.
Variable xmlDecode : Reader -> result FCPXML.t.



End Decode.
